(** * SimpleCompiler: the recursive-descent parser and its AST

    A shallow embedding of [src/parser/parser.cpp] and of the node model of
    [ast.h].  Every grammar rule of the C++ parser is a function on an
    explicit parser state (the lexer and the one lookahead token); a call of
    [exit(n)] ends the run with the failure site that called it.  Rules that
    recurse or loop take a fuel argument: the depth of calls and the number
    of loop iterations still allowed.  What the parser writes before it
    exits ([cout], [error->display_err()]) is left out: no rule reads it. *)

From Stdlib Require Import List String ZArith Bool Arith Lia DecimalString.
Import ListNotations.
Open Scope string_scope.
Open Scope list_scope.

Set Implicit Arguments.

(* ================================================================== *)
(** * Enumerations of [type.h] *)

(** Modelled from the spec: [type.h] is not among the sources.  The tags are
    those the parser names ([Tag::KW_CONST], [Tag::ID], ...), the tags of the
    operators of the six precedence tiers (spec 4.3), and [END], the tag of
    the token a lexer returns once its input is exhausted. *)
Inductive Tag : Set :=
  | END | ID | NUM
  | KW_INT | KW_CHAR | KW_VOID | KW_CONST
  | KW_IF | KW_ELSE | KW_WHILE | KW_BREAK | KW_CONTINUE | KW_RETURN
  | NOT | ADD | SUB | MUL | DIV | MOD
  | GT | GE | LT | LE | EQU | NEQU | AND | OR
  | LPAREN | RPAREN | LBRACKET | RBRACKET | LBRACE | RBRACE
  | COMMA | SEMICON | ASSIGN.

(** Modelled from the spec: the operators the parser names, [lt_op] for the
    operator '<' that the relational tier leaves out (spec 4.3 and 9), and
    [none_op] for the tags that are no operator. *)
Inductive Operator : Set :=
  | add_op | sub_op | mul_op | div_op | mod_op
  | gt_op | ge_op | lt_op | le_op | equ_op | nequ_op
  | and_op | or_op | not_op | none_op.

(** [Type] of [type.h]: the return type of a function. *)
Inductive Type_ : Set := int_t | char_t | void_t.

Inductive VarType : Set := var_t | array_t.

Inductive Control : Set := break_c | continue_c | return_c.

Scheme Equality for Tag.
Scheme Equality for Operator.

(** Modelled from the spec: [tag_to_op] is declared outside the sources.  An
    operator tag is mapped to its operator, any other tag to [none_op], which
    is in no tier's operator set. *)
Definition tag_to_op (t : Tag) : Operator :=
  match t with
  | ADD => add_op | SUB => sub_op
  | MUL => mul_op | DIV => div_op | MOD => mod_op
  | GT => gt_op | GE => ge_op | LT => lt_op | LE => le_op
  | EQU => equ_op | NEQU => nequ_op
  | AND => and_op | OR => or_op | NOT => not_op
  | _ => none_op
  end.

(* ================================================================== *)
(** * Tokens *)

(** A token as the parser reads it: [token->tag], and the payloads it gets at
    by casting, [((Id* )token)->name] and [((Num* )token)->val].  The parser
    reads a payload only after it has matched the tag. *)
Record Token : Set := mkToken { tag : Tag; name : string; val : Z }.

Definition T (t : Tag) : Token := mkToken t EmptyString 0%Z.
Definition TId (n : string) : Token := mkToken ID n 0%Z.
Definition TNum (v : Z) : Token := mkToken NUM EmptyString v.

(* ================================================================== *)
(** * The node model of [ast.h] *)

(** One constructor per node class, its arguments in the order of the class
    constructor.  An [ASTPtr] is a [unique_ptr], which may be null: it is an
    [option]. *)
#[warnings="-register-all"]
Inductive AST : Set :=
  | CompUnitAST (units : list (option AST))
  | StmtAST (stmt : option AST)
  | FuncDefAST (type : Type_) (name : string)
               (params : list (option AST)) (body : option AST)
  | FuncCallAST (name : string) (args : list (option AST))
  | VarDeclAST (isConst : bool) (vars : list (option AST))
  | VarDefAST (isConst : bool) (var : option AST) (initVal : option AST)
  | IdAST (name : string) (type : VarType) (isConst : bool)
          (dim : list (option AST))
  | InitValAST (type : VarType) (values : list (option AST))
  | BlockAST (stmts : list (option AST))
  | BinaryAST (op : Operator) (left right : option AST)
  | UnaryAST (op : Operator) (exp : option AST)
  | NumAST (val : Z)
  | IfAST (conditionExp thenAST elseAST : option AST)
  | WhileAST (conditionExp body : option AST)
  | ControlAST (type : Control) (returnStmt : option AST)
  | AssignAST (left right : option AST)
  | LValAST (name : string) (type : VarType) (position : list (option AST))
  | EmptyAST.

Definition ASTPtr : Set := option AST.
Definition ASTPtrList : Set := list ASTPtr.

Definition make_unique (a : AST) : ASTPtr := Some a.
Definition nullptr : ASTPtr := None.

(** [dynamic_cast<LValAST *>(exp.get())] as a truth value. *)
Definition is_LValAST (exp : ASTPtr) : bool :=
  match exp with
  | Some (LValAST _ _ _) => true
  | _ => false
  end.

(** [push_back] on an [ASTPtrList]. *)
Definition push_back (l : ASTPtrList) (a : ASTPtr) : ASTPtrList := l ++ [a].

(* ================================================================== *)
(** * Failure sites *)

(** Which of the two places that parse a parameter list is running: the
    function branch of [Parser::program] or [Parser::function_def]. *)
Inductive Caller : Set := in_program | in_function_def.

(** Every call of [exit] in [parser.cpp], named by its line and its
    argument.  The sites of the two parameter lists and of the three loops
    over bracketed dimensions are told apart by their lines too. *)
Inductive Site : Set :=
  (* Parser::program *)
  | L49_exit1 | L56_exit2 | L63_exit3
  | L78_exit996 | L83_exit998 | L96_exit997 | L106_exit995 | L112_exit994
  | L126_exit993
  | L141_exit453 | L145_exit454 | L159_exit456 | L171_exit133 | L176_exit134
  | L184_exit233
  (* Parser::binary *)
  | L195_exit100 | L203_exit101
  (* Parser::unary *)
  | L249_exit102 | L264_exit103 | L272_exit104 | L280_exit105
  | L300_exit106 | L308_exit107 | L320_exit108 | L330_exit55
  (* Parser::statement *)
  | L341_exit106 | L348_exit107 | L355_exit108
  | L385_exit109 | L388_exit110
  | L397_exit111 | L405_exit112 | L409_exit113 | L418_exit114 | L423_exit115
  | L429_exit56
  (* Parser::if_else *)
  | L435_exit116 | L440_exit117 | L443_exit118 | L448_exit118 | L454_exit119
  | L460_exit57
  (* Parser::while_loop *)
  | L466_exit116 | L471_exit117 | L474_exit118 | L479_exit119
  (* Parser::init_val *)
  | L496_exit999 | L504_exit998 | L513_exit1000
  (* Parser::var_decl *)
  | L531_exit450 | L538_exit451 | L546_exit451 | L552_exit452
  (* Parser::var_def *)
  | L560_exit452 | L570_exit453 | L574_exit454 | L587_exit456 | L592_exit457
  (* Parser::block *)
  | L609_exit460 | L615_exit461
  (* Parser::function_def *)
  | L633_exit999 | L640_exit998
  | L648_exit996 | L652_exit998 | L665_exit997 | L674_exit995 | L679_exit994
  | L692_exit993.

Scheme Equality for Site.

(** The argument the site passes to [exit]. *)
Definition status (s : Site) : Z :=
  match s with
  | L49_exit1 => 1 | L56_exit2 => 2 | L63_exit3 => 3
  | L78_exit996 => 996 | L83_exit998 => 998 | L96_exit997 => 997
  | L106_exit995 => 995 | L112_exit994 => 994 | L126_exit993 => 993
  | L141_exit453 => 453 | L145_exit454 => 454 | L159_exit456 => 456
  | L171_exit133 => 133 | L176_exit134 => 134 | L184_exit233 => 233
  | L195_exit100 => 100 | L203_exit101 => 101
  | L249_exit102 => 102 | L264_exit103 => 103 | L272_exit104 => 104
  | L280_exit105 => 105 | L300_exit106 => 106 | L308_exit107 => 107
  | L320_exit108 => 108 | L330_exit55 => 55
  | L341_exit106 => 106 | L348_exit107 => 107 | L355_exit108 => 108
  | L385_exit109 => 109 | L388_exit110 => 110
  | L397_exit111 => 111 | L405_exit112 => 112 | L409_exit113 => 113
  | L418_exit114 => 114 | L423_exit115 => 115 | L429_exit56 => 56
  | L435_exit116 => 116 | L440_exit117 => 117 | L443_exit118 => 118
  | L448_exit118 => 118 | L454_exit119 => 119 | L460_exit57 => 57
  | L466_exit116 => 116 | L471_exit117 => 117 | L474_exit118 => 118
  | L479_exit119 => 119
  | L496_exit999 => 999 | L504_exit998 => 998 | L513_exit1000 => 1000
  | L531_exit450 => 450 | L538_exit451 => 451 | L546_exit451 => 451
  | L552_exit452 => 452
  | L560_exit452 => 452 | L570_exit453 => 453 | L574_exit454 => 454
  | L587_exit456 => 456 | L592_exit457 => 457
  | L609_exit460 => 460 | L615_exit461 => 461
  | L633_exit999 => 999 | L640_exit998 => 998
  | L648_exit996 => 996 | L652_exit998 => 998 | L665_exit997 => 997
  | L674_exit995 => 995 | L679_exit994 => 994 | L692_exit993 => 993
  end%Z.

(** The sites of a parameter list, by the place that runs it. *)
Definition param_no_int (c : Caller) : Site :=
  match c with in_program => L78_exit996 | in_function_def => L648_exit996 end.
Definition param_no_id (c : Caller) : Site :=
  match c with in_program => L83_exit998 | in_function_def => L652_exit998 end.
Definition param_no_rbracket (c : Caller) : Site :=
  match c with in_program => L96_exit997 | in_function_def => L665_exit997 end.
Definition param_dim_null (c : Caller) : Site :=
  match c with in_program => L106_exit995 | in_function_def => L674_exit995 end.
Definition param_dim_no_rbracket (c : Caller) : Site :=
  match c with in_program => L112_exit994 | in_function_def => L679_exit994 end.

(* ================================================================== *)
(** * The lexer, as the parser uses it *)

(** The parser calls two methods of its lexer: [lexing], which returns the
    next token, and [is_done]. *)
Class TokenSource (Lexer : Type) : Type := {
  lexing : Lexer -> Token * Lexer;
  is_done : Lexer -> bool
}.

(** Modelled from the spec: a lexer over a sequence of tokens already cut
    (spec 6: on each advance one tagged token, and an end of stream the driver
    can observe).  Past the last token it returns a token tagged [END] and is
    done from then on. *)
Record ListLexer : Set := mkListLexer { pending : list Token; finished : bool }.

Definition list_lexing (lx : ListLexer) : Token * ListLexer :=
  match pending lx with
  | [] => (T END, mkListLexer [] true)
  | t :: rest => (t, mkListLexer rest (finished lx))
  end.

#[export] Instance ListLexer_source : TokenSource ListLexer :=
  {| lexing := list_lexing; is_done := finished |}.

Definition lexer_of (ts : list Token) : ListLexer := mkListLexer ts false.

(* ================================================================== *)
(** * The parser *)

Section ParserDefinitions.

Context {Lexer : Type} {source : TokenSource Lexer}.

(** The state of a [Parser]: its lexer and the current token. *)
Record Parser : Type := mkParser { lexer : Lexer; token : Token }.

(** How a grammar rule ends: it returns a value in a new state, the process
    exits at a failure site, the rule reads a local that was never assigned
    ([Undefined]), or the fuel of the model is used up ([Timeout]). *)
Inductive Result (A : Type) : Type :=
  | Ok (a : A) (p : Parser)
  | Exit (site : Site)
  | Undefined
  | Timeout.

Arguments Exit {A} site.
Arguments Undefined {A}.
Arguments Timeout {A}.

Definition bind {A B : Type} (r : Result A) (k : A -> Parser -> Result B)
  : Result B :=
  match r with
  | Ok a p => k a p
  | Exit site => Exit site
  | Undefined => Undefined
  | Timeout => Timeout
  end.

Notation "'call' ( a , p ) <- r ; k" :=
  (bind r (fun a p => k))
  (at level 10, a name, p name, r at level 100, k at level 200,
   only parsing).

(** A grammar rule without arguments. *)
Definition Rule : Type := Parser -> Result ASTPtr.

(** [Parser::next]: [token = lexer.lexing()]. *)
Definition next (p : Parser) : Parser :=
  let (t, lx) := lexing (lexer p) in mkParser lx t.

(** [Parser::match_token]. *)
Definition match_token (p : Parser) (t : Tag) : bool :=
  Tag_beq (tag (token p)) t.

(** [find(ops.begin(), ops.end(), o) != ops.end()]. *)
Definition find_op (ops : list Operator) (o : Operator) : bool :=
  existsb (Operator_beq o) ops.

(** ** The expression engine *)

(** The [while] loop of [Parser::binary] (lines 197 to 206). *)
Fixpoint binary_loop (fuel : nat) (parser : Rule) (ops : list Operator)
  (lhs : ASTPtr) (p : Parser) : Result ASTPtr :=
  if find_op ops (tag_to_op (tag (token p))) then
    match fuel with
    | 0 => Timeout
    | S fuel' =>
      let op := tag_to_op (tag (token p)) in
      let p := next p in
      call (rhs, p) <- parser p;
      match rhs with
      | None => Exit L203_exit101
      | Some _ =>
        binary_loop fuel' parser ops (make_unique (BinaryAST op lhs rhs)) p
      end
    end
  else Ok lhs p.

(** [Parser::binary] (lines 191 to 208). *)
Definition binary (fuel : nat) (parser : Rule) (ops : list Operator)
  (p : Parser) : Result ASTPtr :=
  call (lhs, p) <- parser p;
  match lhs with
  | None => Exit L195_exit100
  | Some _ => binary_loop fuel parser ops lhs p
  end.

(** The [while (true)] loop over the arguments of a call (lines 297 to
    306). *)
Fixpoint call_params (fuel : nat) (binary_add : Rule) (params : ASTPtrList)
  (p : Parser) : Result ASTPtrList :=
  match fuel with
  | 0 => Timeout
  | S fuel' =>
    call (param, p) <- binary_add p;
    match param with
    | None => Exit L300_exit106
    | Some _ =>
      let params := push_back params param in
      if negb (match_token p COMMA) then Ok params p
      else call_params fuel' binary_add params (next p)
    end
  end.

(** The loop over the indices of an indexed left-value (lines 315 to 323);
    the index is pushed without a test for null. *)
Fixpoint lval_position (fuel : nat) (binary_add : Rule)
  (position : ASTPtrList) (p : Parser) : Result ASTPtrList :=
  if match_token p LBRACKET then
    match fuel with
    | 0 => Timeout
    | S fuel' =>
      let p := next p in
      call (sub_position, p) <- binary_add p;
      let position := push_back position sub_position in
      if negb (match_token p RBRACKET) then Exit L320_exit108
      else lval_position fuel' binary_add position (next p)
    end
  else Ok position p.

(** [Parser::unary] (lines 241 to 331), [Parser::binary_add] (220 to 223) and
    [Parser::binary_mul] (225 to 228), which call each other. *)
Fixpoint unary (fuel : nat) (p : Parser) {struct fuel} : Result ASTPtr :=
  match fuel with
  | 0 => Timeout
  | S fuel =>
    if match_token p LPAREN then
      let p := next p in
      call (exp, p) <- binary_add fuel p;
      if negb (Tag_beq (tag (token p)) RPAREN) then Exit L249_exit102
      else Ok exp (next p)
    else if match_token p NUM then
      let num := make_unique (NumAST (val (token p))) in
      Ok num (next p)
    else if match_token p ADD then
      let p := next p in
      call (exp, p) <- unary fuel p;
      match exp with
      | None => Exit L264_exit103
      | Some _ => Ok (make_unique (UnaryAST add_op exp)) p
      end
    else if match_token p SUB then
      let p := next p in
      call (exp, p) <- unary fuel p;
      match exp with
      | None => Exit L272_exit104
      | Some _ => Ok (make_unique (UnaryAST sub_op exp)) p
      end
    else if match_token p NOT then
      let p := next p in
      call (exp, p) <- unary fuel p;
      match exp with
      | None => Exit L280_exit105
      | Some _ => Ok (make_unique (UnaryAST not_op exp)) p
      end
    else if match_token p ID then
      let id_name := name (token p) in
      let p := next p in
      if match_token p LPAREN then
        let p := next p in
        if match_token p RPAREN then
          let function_call := make_unique (FuncCallAST id_name []) in
          Ok function_call (next p)
        else
          call (params, p) <- call_params fuel (binary_add fuel) [] p;
          if negb (match_token p RPAREN) then Exit L308_exit107
          else Ok (make_unique (FuncCallAST id_name params)) (next p)
      else if match_token p LBRACKET then
        call (position, p) <- lval_position fuel (binary_add fuel) [] p;
        Ok (make_unique (LValAST id_name array_t position)) p
      else Ok (make_unique (LValAST id_name var_t [])) p
    else Exit L330_exit55
  end

with binary_add (fuel : nat) (p : Parser) {struct fuel} : Result ASTPtr :=
  match fuel with
  | 0 => Timeout
  | S fuel => binary fuel (binary_mul fuel) [add_op; sub_op] p
  end

with binary_mul (fuel : nat) (p : Parser) {struct fuel} : Result ASTPtr :=
  match fuel with
  | 0 => Timeout
  | S fuel => binary fuel (unary fuel) [mul_op; div_op; mod_op] p
  end.

(** The operator set of the relational tier, as line 212 has it. *)
Definition relation_ops : list Operator := [gt_op; ge_op; le_op; le_op].

(** [Parser::binary_relation] (lines 210 to 213). *)
Definition binary_relation (fuel : nat) (p : Parser) : Result ASTPtr :=
  binary fuel (binary_add fuel) relation_ops p.

(** [Parser::binary_eq] (lines 215 to 218). *)
Definition binary_eq (fuel : nat) (p : Parser) : Result ASTPtr :=
  binary fuel (binary_relation fuel) [equ_op; nequ_op] p.

(** [Parser::binary_and] (lines 230 to 233). *)
Definition binary_and (fuel : nat) (p : Parser) : Result ASTPtr :=
  binary fuel (binary_eq fuel) [and_op] p.

(** [Parser::binary_or] (lines 235 to 238). *)
Definition binary_or (fuel : nat) (p : Parser) : Result ASTPtr :=
  binary fuel (binary_and fuel) [or_op] p.

(** ** Declarations and definitions *)

(** The [while (true)] loop over the members of a braced initializer (lines
    492 to 502). *)
Fixpoint init_list (fuel : nat) (init_val : Rule) (inits : ASTPtrList)
  (p : Parser) : Result ASTPtrList :=
  match fuel with
  | 0 => Timeout
  | S fuel' =>
    call (init, p) <- init_val p;
    match init with
    | None => Exit L496_exit999
    | Some _ =>
      let inits := push_back inits init in
      if negb (match_token p COMMA) then Ok inits p
      else init_list fuel' init_val inits (next p)
    end
  end.

(** [Parser::init_val] (lines 484 to 519). *)
Fixpoint init_val (fuel : nat) (p : Parser) {struct fuel} : Result ASTPtr :=
  match fuel with
  | 0 => Timeout
  | S fuel =>
    if match_token p LBRACE then
      let p := next p in
      if match_token p RBRACE then
        Ok (make_unique (InitValAST array_t [])) (next p)
      else
        call (inits, p) <- init_list fuel (init_val fuel) [] p;
        if negb (match_token p RBRACE) then Exit L504_exit998
        else Ok (make_unique (InitValAST array_t inits)) (next p)
    else
      call (exp, p) <- binary_add fuel p;
      match exp with
      | None => Exit L513_exit1000
      | Some _ =>
        let expList := push_back [] exp in
        Ok (make_unique (InitValAST var_t expList)) p
      end
  end.

(** The loop over bracketed dimension expressions, which the source has four
    times: for a parameter in [Parser::program] (lines 99 to 115) and in
    [Parser::function_def] (668 to 682), for the first variable of a
    declaration in [Parser::program] (137 to 148) and in [Parser::var_def]
    (566 to 577).  [null] and [open] are the sites of the copy that runs: a
    null dimension, and a dimension that no ']' closes. *)
Fixpoint bracket_dims (fuel : nat) (binary_add : Rule) (null open : Site)
  (dims : ASTPtrList) (p : Parser) : Result ASTPtrList :=
  if match_token p LBRACKET then
    match fuel with
    | 0 => Timeout
    | S fuel' =>
      let p := next p in
      call (exp, p) <- binary_add p;
      match exp with
      | None => Exit null
      | Some _ =>
        let dims := push_back dims exp in
        if negb (match_token p RBRACKET) then Exit open
        else bracket_dims fuel' binary_add null open dims (next p)
      end
    end
  else Ok dims p.

(** [dims.empty()] decides the kind of the [IdAST] (lines 151 to 154 and 579
    to 582). *)
Definition id_of_dims (id_name : string) (isConst : bool) (dims : ASTPtrList)
  : ASTPtr :=
  match dims with
  | [] => make_unique (IdAST id_name var_t isConst [])
  | _ :: _ => make_unique (IdAST id_name array_t isConst dims)
  end.

(** [Parser::var_def] (lines 558 to 596). *)
Definition var_def (fuel : nat) (isConst : bool) (p : Parser)
  : Result ASTPtr :=
  if negb (match_token p ID) then Exit L560_exit452
  else
    let id_name := name (token p) in
    let p := next p in
    call (dims, p) <-
      bracket_dims fuel (binary_add fuel) L570_exit453 L574_exit454 [] p;
    let var := id_of_dims id_name isConst dims in
    if match_token p ASSIGN then
      let p := next p in
      call (init, p) <- init_val fuel p;
      match init with
      | None => Exit L587_exit456
      | Some _ => Ok (make_unique (VarDefAST isConst var init)) p
      end
    else
      if isConst then Exit L592_exit457
      else Ok (make_unique (VarDefAST isConst var nullptr)) p.

(** The loop over the definitions after a comma: lines 542 to 549 of
    [Parser::var_decl] and lines 167 to 174 of [Parser::program]; [null] is
    the site of the copy that runs. *)
Fixpoint comma_defs (fuel : nat) (var_def : Rule) (null : Site)
  (vars : ASTPtrList) (p : Parser) : Result ASTPtrList :=
  if match_token p COMMA then
    match fuel with
    | 0 => Timeout
    | S fuel' =>
      let p := next p in
      call (varDef, p) <- var_def p;
      match varDef with
      | None => Exit null
      | Some _ => comma_defs fuel' var_def null (push_back vars varDef) p
      end
    end
  else Ok vars p.

(** [Parser::var_decl] (lines 521 to 556). *)
Definition var_decl (fuel : nat) (p : Parser) : Result ASTPtr :=
  let isConst := match_token p KW_CONST in
  let p := if match_token p KW_CONST then next p else p in
  if negb (match_token p KW_INT) then Exit L531_exit450
  else
    let p := next p in
    call (varDef, p) <- var_def fuel isConst p;
    match varDef with
    | None => Exit L538_exit451
    | Some _ =>
      let vars := push_back [] varDef in
      call (vars, p) <-
        comma_defs fuel (var_def fuel isConst) L546_exit451 vars p;
      if negb (match_token p SEMICON) then Exit L552_exit452
      else Ok (make_unique (VarDeclAST isConst vars)) (next p)
    end.

(** ** Statements and blocks *)

(** The [switch] of lines 366 to 380; [command] stays unassigned for any
    other tag. *)
Definition control_of_tag (temp : Tag) : option Control :=
  match temp with
  | KW_BREAK => Some break_c
  | KW_CONTINUE => Some continue_c
  | KW_RETURN => Some return_c
  | _ => None
  end.

(** The loop of [Parser::block] (lines 605 to 619). *)
Fixpoint block_loop (fuel : nat) (var_decl statement : Rule)
  (stmts : ASTPtrList) (p : Parser) : Result ASTPtrList :=
  if negb (match_token p RBRACE) then
    match fuel with
    | 0 => Timeout
    | S fuel' =>
      if match_token p KW_CONST || match_token p KW_INT then
        call (var, p) <- var_decl p;
        match var with
        | None => Exit L609_exit460
        | Some _ =>
          block_loop fuel' var_decl statement (push_back stmts var) p
        end
      else
        call (stmt, p) <- statement p;
        match stmt with
        | None => Exit L615_exit461
        | Some _ =>
          block_loop fuel' var_decl statement (push_back stmts stmt) p
        end
    end
  else Ok stmts p.

(** [Parser::statement] (lines 333 to 430), [Parser::if_else] (432 to 461),
    [Parser::while_loop] (463 to 482) and [Parser::block] (598 to 623).  The
    calls [exit(56)] of line 429 and [exit(57)] of line 460 stand after
    branches that all return. *)
Fixpoint statement (fuel : nat) (p : Parser) {struct fuel} : Result ASTPtr :=
  match fuel with
  | 0 => Timeout
  | S fuel =>
    if match_token p SEMICON then
      Ok (make_unique (StmtAST (make_unique EmptyAST))) (next p)
    else if match_token p LBRACE then
      call (body, p) <- block fuel p;
      match body with
      | None => Exit L341_exit106
      | Some _ => Ok (make_unique (StmtAST body)) p
      end
    else if match_token p KW_WHILE then
      call (stmt, p) <- while_loop fuel p;
      match stmt with
      | None => Exit L348_exit107
      | Some _ => Ok (make_unique (StmtAST stmt)) p
      end
    else if match_token p KW_IF then
      call (stmt, p) <- if_else fuel p;
      match stmt with
      | None => Exit L355_exit108
      | Some _ => Ok (make_unique (StmtAST stmt)) p
      end
    else if match_token p KW_BREAK || match_token p KW_CONTINUE
            || match_token p KW_RETURN then
      let temp := tag (token p) in
      let p := next p in
      if Tag_beq (tag (token p)) SEMICON then
        match control_of_tag temp with
        | None => Undefined
        | Some command =>
          let stmt := make_unique (ControlAST command nullptr) in
          Ok (make_unique (StmtAST stmt)) (next p)
        end
      else
        call (return_exp, p) <- binary_add fuel p;
        match return_exp with
        | None => Exit L385_exit109
        | Some _ =>
          if negb (match_token p SEMICON) then Exit L388_exit110
          else
            let stmt := make_unique (ControlAST return_c return_exp) in
            Ok (make_unique (StmtAST stmt)) (next p)
        end
    else
      call (exp, p) <- binary_add fuel p;
      match exp with
      | None => Exit L397_exit111
      | Some _ =>
        if is_LValAST exp then
          if match_token p ASSIGN then
            let p := next p in
            call (rhs, p) <- binary_add fuel p;
            match rhs with
            | None => Exit L405_exit112
            | Some _ =>
              let stmt := make_unique (AssignAST exp rhs) in
              if negb (match_token p SEMICON) then Exit L409_exit113
              else Ok (make_unique (StmtAST stmt)) (next p)
            end
          else if match_token p SEMICON then
            Ok (make_unique (StmtAST exp)) (next p)
          else Exit L418_exit114
        else
          if negb (match_token p SEMICON) then Exit L423_exit115
          else Ok (make_unique (StmtAST exp)) (next p)
      end
  end

with if_else (fuel : nat) (p : Parser) {struct fuel} : Result ASTPtr :=
  match fuel with
  | 0 => Timeout
  | S fuel =>
    let p := next p in
    if negb (match_token p LPAREN) then Exit L435_exit116
    else
      let p := next p in
      call (condition, p) <- binary_or fuel p;
      match condition with
      | None => Exit L440_exit117
      | Some _ =>
        if negb (match_token p RPAREN) then Exit L443_exit118
        else
          let p := next p in
          call (thenStatement, p) <- statement fuel p;
          match thenStatement with
          | None => Exit L448_exit118
          | Some _ =>
            if match_token p KW_ELSE then
              let p := next p in
              call (elseStatement, p) <- statement fuel p;
              match elseStatement with
              | None => Exit L454_exit119
              | Some _ =>
                Ok (make_unique (IfAST condition thenStatement elseStatement))
                   p
              end
            else Ok (make_unique (IfAST condition thenStatement nullptr)) p
          end
      end
  end

with while_loop (fuel : nat) (p : Parser) {struct fuel} : Result ASTPtr :=
  match fuel with
  | 0 => Timeout
  | S fuel =>
    let p := next p in
    if negb (match_token p LPAREN) then Exit L466_exit116
    else
      let p := next p in
      call (condition, p) <- binary_or fuel p;
      match condition with
      | None => Exit L471_exit117
      | Some _ =>
        if negb (match_token p RPAREN) then Exit L474_exit118
        else
          let p := next p in
          call (stmt, p) <- statement fuel p;
          match stmt with
          | None => Exit L479_exit119
          | Some _ => Ok (make_unique (WhileAST condition stmt)) p
          end
      end
  end

with block (fuel : nat) (p : Parser) {struct fuel} : Result ASTPtr :=
  match fuel with
  | 0 => Timeout
  | S fuel =>
    let p := next p in
    if match_token p RBRACE then
      Ok (make_unique (BlockAST [])) (next p)
    else
      call (stmts, p) <- block_loop fuel (var_decl fuel) (statement fuel) [] p;
      Ok (make_unique (BlockAST stmts)) (next p)
  end.

(** ** Function definitions and the program *)

(** One turn of the loop over the parameters, up to its [push_back]: lines 76
    to 119 of [Parser::program] and lines 647 to 686 of
    [Parser::function_def], which differ in their sites only.  The result is
    the [IdAST] that the turn pushes. *)
Definition param (fuel : nat) (c : Caller) (p : Parser) : Result ASTPtr :=
  if negb (match_token p KW_INT) then Exit (param_no_int c)
  else
    let p := next p in
    if negb (match_token p ID) then Exit (param_no_id c)
    else
      let arg_name := name (token p) in
      let p := next p in
      if match_token p LBRACKET then
        let dim := push_back [] (make_unique (NumAST 0)) in
        let p := next p in
        if negb (match_token p RBRACKET) then Exit (param_no_rbracket c)
        else
          let p := next p in
          call (dim, p) <-
            bracket_dims fuel (binary_add fuel)
              (param_dim_null c) (param_dim_no_rbracket c) dim p;
          Ok (make_unique (IdAST arg_name array_t false dim)) p
      else Ok (make_unique (IdAST arg_name var_t false [])) p.

(** The [while (true)] loop over the parameters (lines 74 to 123 and 645 to
    690). *)
Fixpoint param_list (fuel : nat) (c : Caller) (args : ASTPtrList)
  (p : Parser) : Result ASTPtrList :=
  match fuel with
  | 0 => Timeout
  | S fuel' =>
    call (arg, p) <- param fuel' c p;
    let args := push_back args arg in
    if negb (match_token p COMMA) then Ok args p
    else param_list fuel' c args (next p)
  end.

(** The parameters between '(' and ')', the current token being the one after
    '(' (lines 73 to 128 and 644 to 694); it ends on the ')' . *)
Definition params_upto_rparen (fuel : nat) (c : Caller) (p : Parser)
  : Result ASTPtrList :=
  if negb (match_token p RPAREN) then
    call (args, p) <- param_list fuel c [] p;
    if negb (match_token p RPAREN) then
      Exit (match c with
            | in_program => L126_exit993
            | in_function_def => L692_exit993
            end)
    else Ok args p
  else Ok [] p.

(** The three tests of lines 628 to 630 on the local [type], which starts
    unassigned. *)
Definition function_type (p : Parser) : option Type_ :=
  let type := None in
  let type := if match_token p KW_INT then Some int_t else type in
  let type := if match_token p KW_CHAR then Some char_t else type in
  let type := if match_token p KW_VOID then Some void_t else type in
  type.

(** [Parser::function_def] (lines 625 to 698). *)
Definition function_def (fuel : nat) (p : Parser) : Result ASTPtr :=
  let type := function_type p in
  let p := next p in
  if negb (match_token p ID) then Exit L633_exit999
  else
    let id_name := name (token p) in
    let p := next p in
    if negb (match_token p LPAREN) then Exit L640_exit998
    else
      let p := next p in
      call (args, p) <- params_upto_rparen fuel in_function_def p;
      let p := next p in
      call (body, p) <- block fuel p;
      match type with
      | None => Undefined
      | Some type => Ok (make_unique (FuncDefAST type id_name args body)) p
      end.

(** The loop of [Parser::program] (lines 44 to 186) and its [return]. *)
Fixpoint program_loop (fuel : nat) (nodes : ASTPtrList) (p : Parser)
  : Result ASTPtr :=
  if Bool.eqb (is_done (lexer p)) false then
    match fuel with
    | 0 => Timeout
    | S fuel' =>
      if match_token p KW_CONST then
        call (variable_decl, p) <- var_decl fuel' p;
        match variable_decl with
        | None => Exit L49_exit1
        | Some _ => program_loop fuel' (push_back nodes variable_decl) p
        end
      else if match_token p KW_VOID then
        call (func, p) <- function_def fuel' p;
        match func with
        | None => Exit L56_exit2
        | Some _ => program_loop fuel' (push_back nodes func) p
        end
      else if match_token p KW_INT then
        let p := next p in
        if negb (match_token p ID) then Exit L63_exit3
        else
          let name := name (token p) in
          let p := next p in
          if match_token p LPAREN then
            let p := next p in
            call (args, p) <- params_upto_rparen fuel' in_program p;
            let p := next p in
            call (body, p) <- block fuel' p;
            let func := make_unique (FuncDefAST int_t name args body) in
            program_loop fuel' (push_back nodes func) p
          else
            call (dims, p) <-
              bracket_dims fuel' (binary_add fuel')
                L141_exit453 L145_exit454 [] p;
            let var := id_of_dims name false dims in
            call (varDef, p) <-
              (if match_token p ASSIGN then
                 let p := next p in
                 call (init, p) <- init_val fuel' p;
                 match init with
                 | None => Exit L159_exit456
                 | Some _ => Ok (make_unique (VarDefAST false var init)) p
                 end
               else Ok (make_unique (VarDefAST false var nullptr)) p);
            let varDefs := push_back [] varDef in
            call (varDefs, p) <-
              comma_defs fuel' (var_def fuel' false) L171_exit133 varDefs p;
            if negb (match_token p SEMICON) then Exit L176_exit134
            else
              let decl := make_unique (VarDeclAST false varDefs) in
              program_loop fuel' (push_back nodes decl) (next p)
      else Exit L184_exit233
    end
  else Ok (make_unique (CompUnitAST nodes)) p.

(** [Parser::program]. *)
Definition program (fuel : nat) (p : Parser) : Result ASTPtr :=
  program_loop fuel [] p.

(** [Parser::parsing] on a parser built on [lex]: it reads the first token,
    then runs [program]. *)
Definition parsing (fuel : nat) (lex : Lexer) : Result ASTPtr :=
  let (t, lx) := lexing lex in
  program fuel (mkParser lx t).

End ParserDefinitions.

Arguments Exit {Lexer A} site.
Arguments Undefined {Lexer A}.
Arguments Timeout {Lexer A}.
Arguments match_token : simpl never.
Arguments next : simpl never.

(* ================================================================== *)
(** * Runs of a rule *)

Section Runs.

Context {Lexer : Type} {source : TokenSource Lexer}.

Local Abbreviation Parser := (@Parser Lexer).
Local Abbreviation Result := (@Result Lexer).

(** One result is below another when it is the other or is [Timeout]: more
    fuel can only turn a [Timeout] into an outcome. *)
Definition le_res {A : Type} (r r' : Result A) : Prop :=
  r = Timeout \/ r = r'.

Definition le_rule {A : Type} (f g : Parser -> Result A) : Prop :=
  forall p, le_res (f p) (g p).

(** The rule [f] returns [a] in state [p'] when it starts in [p]: every
    amount of fuel from some amount on gives this result. *)
Definition Returns {A : Type} (f : nat -> Parser -> Result A)
  (p : Parser) (a : A) (p' : Parser) : Prop :=
  exists n, forall m, n <= m -> f m p = Ok a p'.

(** The rule [f] ends the process at [site] when it starts in [p]. *)
Definition Exits {A : Type} (f : nat -> Parser -> Result A)
  (p : Parser) (site : Site) : Prop :=
  exists n, forall m, n <= m -> f m p = Exit site.

(** A family of rules indexed by fuel is steady when more fuel never changes
    an outcome. *)
Definition steady {A : Type} (f : nat -> Parser -> Result A) : Prop :=
  forall n m, n <= m -> le_rule (f n) (f m).

(** The token [t] is the token [pat], up to the payloads that [pat]'s tag
    does not carry. *)
Definition shows (t pat : Token) : Prop :=
  tag t = tag pat /\ (tag pat = ID -> name t = name pat)
  /\ (tag pat = NUM -> val t = val pat).

(** The current token of [p] and the tokens after it are [ts], and [p'] is
    the state once they are all consumed. *)
Fixpoint feeds (p : Parser) (ts : list Token) (p' : Parser) : Prop :=
  match ts with
  | [] => p' = p
  | t :: ts' => shows (token p) t /\ feeds (next p) ts' p'
  end.

(** The six tiers of binary operators, tightest first. *)
Inductive Tier : Set :=
  | mul_tier | add_tier | relation_tier | eq_tier | and_tier | or_tier.

(** The rule of a tier, the rule it gets its operands from, and its operator
    set, as lines 210 to 238 wire them. *)
Definition tier_rule (t : Tier) : nat -> Rule :=
  match t with
  | mul_tier => binary_mul
  | add_tier => binary_add
  | relation_tier => binary_relation
  | eq_tier => binary_eq
  | and_tier => binary_and
  | or_tier => binary_or
  end.

Definition tier_operand (t : Tier) : nat -> Rule :=
  match t with
  | mul_tier => unary
  | add_tier => binary_mul
  | relation_tier => binary_add
  | eq_tier => binary_relation
  | and_tier => binary_eq
  | or_tier => binary_and
  end.

Definition tier_ops (t : Tier) : list Operator :=
  match t with
  | mul_tier => [mul_op; div_op; mod_op]
  | add_tier => [add_op; sub_op]
  | relation_tier => relation_ops
  | eq_tier => [equ_op; nequ_op]
  | and_tier => [and_op]
  | or_tier => [or_op]
  end.

(** A run of operators of [ops], each followed by an operand that the rule
    [operand] returns: from state [p], whose token is the first operator (or
    no operator of [ops], when the run is empty), to state [p']. *)
Inductive chain (operand : nat -> Rule) (ops : list Operator)
  : Parser -> list (Operator * ASTPtr) -> Parser -> Prop :=
  | chain_stop p :
      find_op ops (tag_to_op (tag (token p))) = false ->
      chain operand ops p [] p
  | chain_more p rhs p1 rest p2 :
      find_op ops (tag_to_op (tag (token p))) = true ->
      Returns operand (next p) (Some rhs) p1 ->
      chain operand ops p1 rest p2 ->
      chain operand ops p ((tag_to_op (tag (token p)), Some rhs) :: rest) p2.

(** The tree of a run: each operator takes the tree built so far as its left
    operand. *)
Definition fold_binary (lhs : ASTPtr) (rest : list (Operator * ASTPtr))
  : ASTPtr :=
  fold_left (fun acc step => make_unique (BinaryAST (fst step) acc (snd step)))
            rest lhs.

(** A run of bracketed dimension expressions, from state [p], whose token is
    the first '[' (or no '[', when the run is empty), to state [p']. *)
Inductive bracketed : Parser -> ASTPtrList -> Parser -> Prop :=
  | bracketed_stop p :
      tag (token p) <> LBRACKET -> bracketed p [] p
  | bracketed_more p e p1 ds p2 :
      tag (token p) = LBRACKET ->
      Returns binary_add (next p) (Some e) p1 ->
      tag (token p1) = RBRACKET ->
      bracketed (next p1) ds p2 ->
      bracketed p (Some e :: ds) p2.

End Runs.

(** The tags that begin a statement of another kind than the expression and
    assignment statements (lines 334 to 359). *)
Definition statement_keyword (t : Tag) : bool :=
  match t with
  | SEMICON | LBRACE | KW_WHILE | KW_IF | KW_BREAK | KW_CONTINUE | KW_RETURN =>
    true
  | _ => false
  end.

(** The tags of the operators of the relational, equality, logical-and and
    logical-or tiers of the spec (4.3). *)
Definition above_additive : list Tag := [GT; GE; LT; LE; EQU; NEQU; AND; OR].

(** The statuses that more than one site passes to [exit]. *)
Definition shared_statuses : list Z :=
  [106; 107; 108; 116; 117; 118; 119; 451; 452; 453; 454; 456;
   993; 994; 995; 996; 997; 998; 999]%Z.

(** [Parser::parsing] on the tokens [ts] ends the process at [site]. *)
Definition fails_at (ts : list Token) (site : Site) : Prop :=
  exists n, forall m, n <= m -> parsing m (lexer_of ts) = Exit site.

(** [Parser::parsing] on the tokens [ts] returns the tree [a]. *)
Definition parses_to (ts : list Token) (a : ASTPtr) : Prop :=
  exists n, forall m, n <= m ->
    exists p, parsing m (lexer_of ts) = Ok a p.

(** The state of a parser on the tokens [ts], after [Parser::parsing] has
    read the first of them. *)
Definition start (ts : list Token) : @Parser ListLexer :=
  let (t, lx) := lexing (lexer_of ts) in mkParser lx t.

(* ================================================================== *)
(** * The shape of the trees *)

(** The pointer is not null and its node satisfies [P]. *)
Definition node (P : AST -> bool) (o : ASTPtr) : bool :=
  match o with
  | Some a => P a
  | None => false
  end.

(** The operators that a [binary] of lines 210 to 238 can put in a
    [BinaryAST], and those that [unary] puts in a [UnaryAST]. *)
Definition wired_binary (op : Operator) : bool :=
  match op with
  | add_op | sub_op | mul_op | div_op | mod_op
  | gt_op | ge_op | le_op | equ_op | nequ_op | and_op | or_op => true
  | _ => false
  end.

Definition wired_prefix (op : Operator) : bool :=
  match op with
  | add_op | sub_op | not_op => true
  | _ => false
  end.

(** An expression: a binary or unary node of a wired operator over
    expressions, a number, a call whose arguments are expressions, a scalar
    left-value without index or an indexed one with at least one index, each
    index an expression.  No pointer in it is null. *)
Fixpoint exp_ok (a : AST) : bool :=
  match a with
  | BinaryAST op (Some l) (Some r) => wired_binary op && exp_ok l && exp_ok r
  | UnaryAST op (Some e) => wired_prefix op && exp_ok e
  | NumAST _ => true
  | FuncCallAST _ args =>
    forallb (fun o => match o with Some x => exp_ok x | None => false end) args
  | LValAST _ var_t [] => true
  | LValAST _ array_t (i :: position) =>
    forallb (fun o => match o with Some x => exp_ok x | None => false end)
            (i :: position)
  | _ => false
  end.

(** An initializer: of scalar kind over exactly one expression, or of array
    kind over initializers. *)
Fixpoint init_ok (a : AST) : bool :=
  match a with
  | InitValAST var_t [Some e] => exp_ok e
  | InitValAST array_t values =>
    forallb (fun o => match o with Some x => init_ok x | None => false end)
            values
  | _ => false
  end.

(** The [IdAST] of a variable with const flag [c]: scalar without dimension,
    or array with at least one dimension, each an expression. *)
Definition id_ok (c : bool) (a : AST) : bool :=
  match a with
  | IdAST _ var_t c' [] => Bool.eqb c' c
  | IdAST _ array_t c' (d :: dims) =>
    Bool.eqb c' c && forallb (node exp_ok) (d :: dims)
  | _ => false
  end.

(** A definition with const flag [c]: its [IdAST] has the same flag, its
    initializer is an initializer, and is there when [c] is set. *)
Definition def_ok (c : bool) (a : AST) : bool :=
  match a with
  | VarDefAST c' (Some var) initVal =>
    Bool.eqb c' c && id_ok c var
    && match initVal with
       | Some i => init_ok i
       | None => negb c
       end
  | _ => false
  end.

(** A declaration: at least one definition, all with the flag of the
    declaration. *)
Definition decl_ok (a : AST) : bool :=
  match a with
  | VarDeclAST c (v :: vars) => forallb (node (def_ok c)) (v :: vars)
  | _ => false
  end.

(** A statement: a [StmtAST] over an empty node, a block of statements and
    declarations, a loop or a conditional over a condition and statements, a
    control node (with an expression only when of kind return), an
    assignment whose target is a left-value, or an expression. *)
Fixpoint stmt_ok (a : AST) : bool :=
  match a with
  | StmtAST (Some x) =>
    match x with
    | EmptyAST => true
    | BlockAST stmts =>
      forallb (fun o => match o with
                        | Some i => stmt_ok i || decl_ok i
                        | None => false
                        end) stmts
    | WhileAST (Some c) (Some s) => exp_ok c && stmt_ok s
    | IfAST (Some c) (Some t) e =>
      exp_ok c && stmt_ok t
      && match e with Some s => stmt_ok s | None => true end
    | ControlAST return_c (Some e) => exp_ok e
    | ControlAST _ None => true
    | AssignAST (Some l) (Some r) =>
      is_LValAST (Some l) && exp_ok l && exp_ok r
    | _ => exp_ok x
    end
  | _ => false
  end.

Definition block_ok (a : AST) : bool :=
  match a with
  | BlockAST _ => stmt_ok (StmtAST (Some a))
  | _ => false
  end.

(** A parameter: scalar, or array whose first dimension is the literal 0;
    never const. *)
Definition param_ok (a : AST) : bool :=
  match a with
  | IdAST _ var_t false [] => true
  | IdAST _ array_t false (Some (NumAST 0) :: dims) =>
    forallb (node exp_ok) dims
  | _ => false
  end.

(** A top-level unit: a declaration, or a function over parameters and a
    block. *)
Definition unit_ok (a : AST) : bool :=
  match a with
  | VarDeclAST _ _ => decl_ok a
  | FuncDefAST _ _ params (Some body) =>
    forallb (node param_ok) params && block_ok body
  | _ => false
  end.

Definition program_ok (a : AST) : bool :=
  match a with
  | CompUnitAST units => forallb (node unit_ok) units
  | _ => false
  end.

(** The sites that test the result of a rule for null (as in
    [if (!lhs) exit(100)]), and the two sites after branches that all
    return. *)
Definition dead (s : Site) : bool :=
  match s with
  | L49_exit1 | L56_exit2 | L106_exit995 | L141_exit453 | L159_exit456
  | L171_exit133 | L195_exit100 | L203_exit101
  | L264_exit103 | L272_exit104 | L280_exit105 | L300_exit106
  | L341_exit106 | L348_exit107 | L355_exit108 | L385_exit109
  | L397_exit111 | L405_exit112 | L429_exit56
  | L440_exit117 | L448_exit118 | L454_exit119 | L460_exit57
  | L471_exit117 | L479_exit119
  | L496_exit999 | L513_exit1000 | L538_exit451 | L546_exit451
  | L570_exit453 | L587_exit456 | L609_exit460 | L615_exit461
  | L674_exit995 => true
  | _ => false
  end.

Definition newline : string := String (Ascii.ascii_of_nat 10) EmptyString.

(** [to_string] of [ast.h], with [None] for a call through a null pointer.
    Modelled from the spec: [type_to_string], [vartype_to_string] and
    [op_to_string] are declared outside the sources and are parameters here;
    [std::to_string] on an [int] is the decimal numeral. *)
Section Rendering.

Variable type_to_string : Type_ -> string.
Variable vartype_to_string : VarType -> string.
Variable op_to_string : Operator -> string.

Definition int_to_string (v : Z) : string :=
  DecimalString.NilZero.string_of_int (Z.to_int v).

(** [output = output + "\n" + unit->to_string()] over a list. *)
Definition render_lines (to_string : AST -> option string)
  (units : ASTPtrList) : option string :=
  fold_left (fun output unit =>
               match output, unit with
               | Some out, Some u =>
                 match to_string u with
                 | Some s => Some (out ++ newline ++ s)%string
                 | None => None
                 end
               | _, _ => None
               end) units (Some EmptyString).

Fixpoint to_string (a : AST) : option string :=
  match a with
  | CompUnitAST units =>
    match render_lines to_string units with
    | Some output =>
      Some ("CompUnit: [" ++ output ++ "]" ++ newline)%string
    | None => None
    end
  | StmtAST stmt =>
    match stmt with
    | Some x =>
      match to_string x with
      | Some s =>
        Some ("Statement: {" ++ s ++ "}" ++ newline)%string
      | None => None
      end
    | None => None
    end
  | FuncDefAST type name params body =>
    let output :=
      Some ("FunctionDef(" ++ type_to_string type ++ "): " ++ name ++ " ")%string
    in
    let output :=
      fold_left (fun output param =>
                   match output, param with
                   | Some out, Some x =>
                     match to_string x with
                     | Some s => Some (out ++ s)%string
                     | None => None
                     end
                   | _, _ => output
                   end) params output in
    match output, body with
    | Some out, Some b =>
      match to_string b with
      | Some s => Some (out ++ s)%string
      | None => None
      end
    | _, _ => output
    end
  | FuncCallAST _ _ => Some "FuncCallAST"
  | VarDeclAST isConst vars =>
    match render_lines to_string vars with
    | Some output =>
      if isConst then Some ("VarDeclAST (CONST): {" ++ output ++ "}")%string
      else Some ("VarDeclAST: {" ++ output ++ "}")%string
    | None => None
    end
  | VarDefAST isConst var _ =>
    match var with
    | Some v =>
      match to_string v with
      | Some s =>
        if isConst then Some ("VarDefAST (CONST): {" ++ s ++ "}")%string
        else Some ("VarDefAST: { " ++ s ++ " }")%string
      | None => None
      end
    | None => None
    end
  | IdAST name type isConst _ =>
    if isConst
    then Some ("IdAST (CONST) (" ++ vartype_to_string type ++ "): " ++ name)%string
    else Some ("IdAST(" ++ vartype_to_string type ++ "): " ++ name)%string
  | InitValAST type _ =>
    Some ("InitValAST(" ++ vartype_to_string type ++ ")")%string
  | BlockAST stmts =>
    match render_lines to_string stmts with
    | Some output => Some ("BlockAST: {" ++ output ++ "}")%string
    | None => None
    end
  | BinaryAST op lhs rhs =>
    match lhs, rhs with
    | Some l, Some r =>
      match to_string l, to_string r with
      | Some sl, Some sr =>
        Some ("(" ++ sl ++ " " ++ op_to_string op ++ " " ++ sr ++ ")")%string
      | _, _ => None
      end
    | _, _ => None
    end
  | UnaryAST op exp =>
    match exp with
    | Some e =>
      match to_string e with
      | Some s => Some ("(" ++ op_to_string op ++ " " ++ s ++ ")")%string
      | None => None
      end
    | None => None
    end
  | NumAST val => Some (int_to_string val)
  | IfAST conditionExp thenAST elseAST =>
    match conditionExp, thenAST with
    | Some c, Some t =>
      match to_string c, to_string t with
      | Some sc, Some st =>
        match elseAST with
        | Some e =>
          match to_string e with
          | Some se =>
            Some ("IfAST: { if (" ++ sc ++ " ) then ( " ++ st ++ ") else ("
                  ++ se ++ " ) }")%string
          | None => None
          end
        | None =>
          Some ("IfAST: { if (" ++ sc ++ " ) then ( " ++ st ++ " ) }")%string
        end
      | _, _ => None
      end
    | _, _ => None
    end
  | WhileAST conditionExp body =>
    match conditionExp, body with
    | Some c, Some b =>
      match to_string c, to_string b with
      | Some sc, Some sb =>
        Some ("WhileAST: { while (" ++ sc ++ " ) do ( " ++ sb ++ " ) }")%string
      | _, _ => None
      end
    | _, _ => None
    end
  | ControlAST type returnStmt =>
    match type with
    | break_c => Some "ControlAST: BREAK"
    | continue_c => Some "ControlAST: CONTINUE"
    | return_c =>
      match returnStmt with
      | Some r =>
        match to_string r with
        | Some s => Some ("ControlAST: RETURN (" ++ s ++ ")")%string
        | None => None
        end
      | None => Some "ControlAST: RETURN "
      end
    end
  | AssignAST lhs rhs =>
    match lhs, rhs with
    | Some l, Some r =>
      match to_string l, to_string r with
      | Some sl, Some sr =>
        Some (" AssignAST: { " ++ sl ++ " = " ++ sr ++ " }")%string
      | _, _ => None
      end
    | _, _ => None
    end
  | LValAST name type _ =>
    Some ("LValAST:(" ++ vartype_to_string type ++ "):  { " ++ name ++ " }")%string
  | EmptyAST => Some "EmptyAST"
  end.

End Rendering.

(** What the rules return, by kind. *)
Definition is_exp (a : ASTPtr) : Prop := node exp_ok a = true.
Definition is_init (a : ASTPtr) : Prop := node init_ok a = true.
Definition is_def (c : bool) (a : ASTPtr) : Prop := node (def_ok c) a = true.
Definition is_decl (a : ASTPtr) : Prop := node decl_ok a = true.
Definition is_stmt (a : ASTPtr) : Prop := node stmt_ok a = true.
Definition is_block (a : ASTPtr) : Prop := node block_ok a = true.
Definition is_param (a : ASTPtr) : Prop := node param_ok a = true.
Definition is_unit (a : ASTPtr) : Prop := node unit_ok a = true.
Definition is_program (a : ASTPtr) : Prop := node program_ok a = true.

(** A node that [statement] can wrap. *)
Definition is_wrapped (a : ASTPtr) : Prop :=
  node (fun x => stmt_ok (StmtAST (Some x))) a = true.

(** The list [l] is [acc] followed by pointers that satisfy [P]. *)
Definition extends (P : ASTPtr -> bool) (acc l : ASTPtrList) : Prop :=
  exists more, l = acc ++ more /\ forallb P more = true.

(* ================================================================== *)
(** * Results and runs, continued *)

Section Outcomes.

Context {Lexer : Type} {source : TokenSource Lexer}.

Local Abbreviation Parser := (@Parser Lexer).
Local Abbreviation Result := (@Result Lexer).
Local Abbreviation Rule := (@Rule Lexer).

(** The outcome [r] is as expected: a value that satisfies [Q], an exit at a
    site that is not dead, or the end of the fuel; never the read of an
    unassigned local. *)
Definition after {A : Type} (Q : A -> Prop) (r : Result A) : Prop :=
  match r with
  | Ok a _ => Q a
  | Exit site => dead site = false
  | Undefined => False
  | Timeout => True
  end.

(** Items that the rule [item] returns, with a comma between two of them:
    from state [p], where the first item begins, to state [p'], whose token
    is the first one after an item that is no comma. *)
Inductive comma_run (item : nat -> Rule)
  : Parser -> ASTPtrList -> Parser -> Prop :=
  | comma_last p a p1 :
      Returns item p (Some a) p1 ->
      tag (token p1) <> COMMA ->
      comma_run item p [Some a] p1
  | comma_more p a p1 rest p2 :
      Returns item p (Some a) p1 ->
      tag (token p1) = COMMA ->
      comma_run item (next p1) rest p2 ->
      comma_run item p (Some a :: rest) p2.

(** The prefix operator of a tag (lines 259 to 282). *)
Definition prefix_op (t : Tag) : option Operator :=
  match t with
  | ADD => Some add_op
  | SUB => Some sub_op
  | NOT => Some not_op
  | _ => None
  end.

(** A run of prefix operators, from state [p] to state [p']. *)
Inductive prefix_run : Parser -> list Operator -> Parser -> Prop :=
  | prefix_none p : prefix_run p [] p
  | prefix_more p op ops p' :
      prefix_op (tag (token p)) = Some op ->
      prefix_run (next p) ops p' ->
      prefix_run p (op :: ops) p'.

(** The items of a block, from state [p] to state [p'], whose token is the
    closing brace. *)
Inductive block_run : Parser -> ASTPtrList -> Parser -> Prop :=
  | block_end p :
      tag (token p) = RBRACE -> block_run p [] p
  | block_decl p d p1 rest p2 :
      In (tag (token p)) [KW_CONST; KW_INT] ->
      Returns var_decl p (Some d) p1 ->
      block_run p1 rest p2 ->
      block_run p (Some d :: rest) p2
  | block_stmt p s p1 rest p2 :
      ~ In (tag (token p)) [RBRACE; KW_CONST; KW_INT] ->
      Returns statement p (Some s) p1 ->
      block_run p1 rest p2 ->
      block_run p (Some s :: rest) p2.

End Outcomes.

(* ================================================================== *)
(** * Tokens left to read *)

Section Consumption.

Context {Lexer : Type} {source : TokenSource Lexer}.

Local Abbreviation Parser := (@Parser Lexer).
Local Abbreviation Result := (@Result Lexer).

(** A bound on the tokens a lexer still has to give. *)
Variable left : Lexer -> nat.

(** The lexer gives finitely many tokens: [lexing] never raises the bound and
    lowers it with every token that is not tagged [END]. *)
Definition finite_source : Prop :=
  forall lx,
    left (snd (lexing lx)) <= left lx /\
    (tag (fst (lexing lx)) <> END -> left (snd (lexing lx)) < left lx).

(** The tokens a parser has not consumed: the current one, unless it is the
    end of the stream, and those its lexer has left. *)
Definition size (p : Parser) : nat :=
  left (lexer p) + (if Tag_beq (tag (token p)) END then 0 else 1).

(** The rule has ended, by a return in a state that satisfies [Q] or by an
    exit. *)
Definition ends {A : Type} (Q : Parser -> Prop) (r : Result A) : Prop :=
  match r with
  | Ok _ p' => Q p'
  | Timeout => False
  | _ => True
  end.

End Consumption.

(** The bound of the lexer over a list: the tokens that are pending. *)
Definition list_left (lx : ListLexer) : nat := List.length (pending lx).

(* ================================================================== *)
(** * Fuel *)

Section Fuel.

Context {Lexer : Type} {source : TokenSource Lexer}.

Local Abbreviation Parser := (@Parser Lexer).
Local Abbreviation Result := (@Result Lexer).
Local Abbreviation Rule := (@Rule Lexer).

Lemma le_res_refl {A : Type} (r : Result A) : le_res r r.
Proof. right; reflexivity. Qed.

Lemma le_res_timeout {A : Type} (r : Result A) : le_res Timeout r.
Proof. left; reflexivity. Qed.

Lemma bind_le {A B : Type} (r r' : Result A)
  (k k' : A -> Parser -> Result B) :
  le_res r r' -> (forall a p, le_res (k a p) (k' a p)) ->
  le_res (bind r k) (bind r' k').
Proof.
  intros [-> | ->] Hk.
  - apply le_res_timeout.
  - destruct r'; simpl; auto using le_res_refl.
Qed.

Lemma le_res_ok {A : Type} (r r' : Result A) a p :
  le_res r r' -> r = Ok a p -> r' = Ok a p.
Proof. intros [-> | ->]; [discriminate | auto]. Qed.

Lemma le_res_exit {A : Type} (r r' : Result A) site :
  le_res r r' -> r = Exit site -> r' = Exit site.
Proof. intros [-> | ->]; [discriminate | auto]. Qed.

(** The step of a proof that a rule with less fuel is below the same rule
    with more: both sides branch on the same tests. *)
Ltac le_step :=
  match goal with
  | |- le_res ?x ?x => apply le_res_refl
  | |- le_res Timeout _ => apply le_res_timeout
  | |- le_res (bind _ _) (bind _ _) => apply bind_le; [ | intros ? ? ]
  | |- le_res (if ?c then _ else _) (if ?c then _ else _) => destruct c
  | |- le_res (match ?a with Some _ => _ | None => _ end)
              (match ?a with Some _ => _ | None => _ end) => destruct a
  | H : le_rule ?f ?g |- le_res (?f _) (?g _) => apply H
  | H : forall m, _ -> _ |- _ => apply H; solve [trivial | lia]
  end.

Ltac le_steps := repeat le_step.

Lemma binary_loop_le n m (f g : Rule) ops :
  n <= m -> le_rule f g ->
  forall lhs p, le_res (binary_loop n f ops lhs p) (binary_loop m g ops lhs p).
Proof.
  revert m; induction n as [|n IH]; intros [|m] Hnm Hfg lhs p;
    try lia; simpl; le_steps.
Qed.

Lemma binary_le n m (f g : Rule) ops :
  n <= m -> le_rule f g -> le_rule (binary n f ops) (binary m g ops).
Proof.
  intros Hnm Hfg p; unfold binary; le_steps.
  apply binary_loop_le; assumption.
Qed.

Lemma call_params_le n m (f g : Rule) :
  n <= m -> le_rule f g ->
  forall params p, le_res (call_params n f params p) (call_params m g params p).
Proof.
  revert m; induction n as [|n IH]; intros [|m] Hnm Hfg params p;
    try lia; simpl; le_steps.
Qed.

Lemma lval_position_le n m (f g : Rule) :
  n <= m -> le_rule f g ->
  forall position p,
    le_res (lval_position n f position p) (lval_position m g position p).
Proof.
  revert m; induction n as [|n IH]; intros [|m] Hnm Hfg position p;
    try lia; simpl; le_steps.
Qed.

Lemma init_list_le n m (f g : Rule) :
  n <= m -> le_rule f g ->
  forall inits p, le_res (init_list n f inits p) (init_list m g inits p).
Proof.
  revert m; induction n as [|n IH]; intros [|m] Hnm Hfg inits p;
    try lia; simpl; le_steps.
Qed.

Lemma bracket_dims_le n m (f g : Rule) null open :
  n <= m -> le_rule f g ->
  forall dims p,
    le_res (bracket_dims n f null open dims p)
           (bracket_dims m g null open dims p).
Proof.
  revert m; induction n as [|n IH]; intros [|m] Hnm Hfg dims p;
    try lia; simpl; le_steps.
Qed.

Lemma comma_defs_le n m (f g : Rule) null :
  n <= m -> le_rule f g ->
  forall vars p,
    le_res (comma_defs n f null vars p) (comma_defs m g null vars p).
Proof.
  revert m; induction n as [|n IH]; intros [|m] Hnm Hfg vars p;
    try lia; simpl; le_steps.
Qed.

Lemma block_loop_le n m (d d' s s' : Rule) :
  n <= m -> le_rule d d' -> le_rule s s' ->
  forall stmts p,
    le_res (block_loop n d s stmts p) (block_loop m d' s' stmts p).
Proof.
  revert m; induction n as [|n IH]; intros [|m] Hnm Hd Hs stmts p;
    try lia; simpl; le_steps.
Qed.

Lemma expr_le n :
  forall m, n <= m ->
    le_rule (unary n) (unary m) /\ le_rule (binary_add n) (binary_add m)
    /\ le_rule (binary_mul n) (binary_mul m).
Proof.
  induction n as [|n IH]; intros [|m] Hnm; try lia;
    try (repeat split; intro p; apply le_res_timeout).
  destruct (IH m) as (Hu & Ha & Hm); [lia|].
  repeat split; intro p; simpl; le_steps;
    first [ apply call_params_le | apply lval_position_le
          | apply binary_le ]; solve [lia | assumption].
Qed.

Lemma unary_le n m : n <= m -> le_rule (unary n) (unary m).
Proof. intro H; apply (expr_le H). Qed.

Lemma binary_add_le n m : n <= m -> le_rule (binary_add n) (binary_add m).
Proof. intro H; apply (expr_le H). Qed.

Lemma binary_mul_le n m : n <= m -> le_rule (binary_mul n) (binary_mul m).
Proof. intro H; apply (expr_le H). Qed.

Lemma binary_relation_le n m :
  n <= m -> le_rule (binary_relation n) (binary_relation m).
Proof. intro H; apply binary_le; [|apply binary_add_le]; assumption. Qed.

Lemma binary_eq_le n m : n <= m -> le_rule (binary_eq n) (binary_eq m).
Proof. intro H; apply binary_le; [|apply binary_relation_le]; assumption. Qed.

Lemma binary_and_le n m : n <= m -> le_rule (binary_and n) (binary_and m).
Proof. intro H; apply binary_le; [|apply binary_eq_le]; assumption. Qed.

Lemma binary_or_le n m : n <= m -> le_rule (binary_or n) (binary_or m).
Proof. intro H; apply binary_le; [|apply binary_and_le]; assumption. Qed.

Lemma init_val_le n : forall m, n <= m -> le_rule (init_val n) (init_val m).
Proof.
  induction n as [|n IH]; intros [|m] Hnm p; try lia;
    try apply le_res_timeout.
  simpl; le_steps.
  - apply init_list_le; [lia | apply IH; lia].
  - apply binary_add_le; lia.
Qed.

Lemma var_def_le n m isConst :
  n <= m -> le_rule (var_def n isConst) (var_def m isConst).
Proof.
  intros Hnm p; unfold var_def; le_steps.
  - apply bracket_dims_le; [|apply binary_add_le]; assumption.
  - apply init_val_le; assumption.
Qed.

Lemma var_decl_le n m : n <= m -> le_rule (var_decl n) (var_decl m).
Proof.
  intros Hnm p; unfold var_decl; cbv zeta; le_steps.
  - apply var_def_le; assumption.
  - apply comma_defs_le; [|intro; apply var_def_le]; assumption.
Qed.

Lemma stmt_le n :
  forall m, n <= m ->
    le_rule (statement n) (statement m) /\ le_rule (if_else n) (if_else m)
    /\ le_rule (while_loop n) (while_loop m) /\ le_rule (block n) (block m).
Proof.
  induction n as [|n IH]; intros [|m] Hnm; try lia;
    try (repeat split; intro p; apply le_res_timeout).
  destruct (IH m) as (Hs & Hi & Hw & Hb); [lia|].
  repeat split; intro p; simpl; le_steps;
    first [ apply binary_add_le | apply binary_or_le
          | apply block_loop_le; [|apply var_decl_le|] ];
    solve [lia | assumption].
Qed.

Lemma statement_le n m : n <= m -> le_rule (statement n) (statement m).
Proof. intro H; apply (stmt_le H). Qed.

Lemma if_else_le n m : n <= m -> le_rule (if_else n) (if_else m).
Proof. intro H; apply (stmt_le H). Qed.

Lemma while_loop_le n m : n <= m -> le_rule (while_loop n) (while_loop m).
Proof. intro H; apply (stmt_le H). Qed.

Lemma block_le n m : n <= m -> le_rule (block n) (block m).
Proof. intro H; apply (stmt_le H). Qed.

Lemma param_le n m c : n <= m -> le_rule (param n c) (param m c).
Proof.
  intros Hnm p; unfold param; cbv zeta; le_steps.
  apply bracket_dims_le; [|apply binary_add_le]; assumption.
Qed.

Lemma param_list_le n c :
  forall m, n <= m ->
  forall args p, le_res (param_list n c args p) (param_list m c args p).
Proof.
  induction n as [|n IH]; intros [|m] Hnm args p; try lia;
    try apply le_res_timeout.
  simpl; le_steps.
  apply param_le; lia.
Qed.

Lemma params_upto_rparen_le n m c :
  n <= m -> le_rule (params_upto_rparen n c) (params_upto_rparen m c).
Proof.
  intros Hnm p; unfold params_upto_rparen; le_steps.
  apply param_list_le; assumption.
Qed.

Lemma function_def_le n m :
  n <= m -> le_rule (function_def n) (function_def m).
Proof.
  intros Hnm p; unfold function_def; cbv zeta; le_steps.
  - apply params_upto_rparen_le; assumption.
  - apply block_le; assumption.
Qed.

Lemma program_loop_le n :
  forall m, n <= m ->
  forall nodes p, le_res (program_loop n nodes p) (program_loop m nodes p).
Proof.
  induction n as [|n IH]; intros [|m] Hnm nodes p; try lia;
    simpl; le_steps;
    first [ apply var_decl_le | apply function_def_le
          | apply params_upto_rparen_le | apply block_le
          | apply bracket_dims_le; [|apply binary_add_le]
          | apply init_val_le
          | apply comma_defs_le; [|intro; apply var_def_le] ];
    lia.
Qed.

Lemma program_le n m : n <= m -> le_rule (program n) (program m).
Proof. intros H p; apply program_loop_le; assumption. Qed.

Lemma parsing_le n m lex : n <= m -> le_res (parsing n lex) (parsing m lex).
Proof.
  intro H; unfold parsing; destruct (lexing lex); apply program_le; assumption.
Qed.

End Fuel.

(* ================================================================== *)
(** * Properties of the rules *)

Section Theory.

Context {Lexer : Type} {source : TokenSource Lexer}.

Local Abbreviation Parser := (@Parser Lexer).
Local Abbreviation Result := (@Result Lexer).
Local Abbreviation Rule := (@Rule Lexer).

(** ** Tags and tokens *)

Lemma Tag_beq_eq (a b : Tag) : Tag_beq a b = true <-> a = b.
Proof.
  split; [apply internal_Tag_dec_bl | apply internal_Tag_dec_lb].
Qed.

Lemma Tag_beq_neq (a b : Tag) : Tag_beq a b = false <-> a <> b.
Proof.
  rewrite <- Tag_beq_eq; destruct (Tag_beq a b); split; congruence.
Qed.

Lemma match_token_eq (p : Parser) t :
  tag (token p) = t -> match_token p t = true.
Proof. intro H; apply Tag_beq_eq; exact H. Qed.

Lemma match_token_neq (p : Parser) t :
  tag (token p) <> t -> match_token p t = false.
Proof. intro H; apply Tag_beq_neq; exact H. Qed.

Lemma match_token_is (p : Parser) t t' :
  tag (token p) = t -> match_token p t' = Tag_beq t t'.
Proof. intros <-; reflexivity. Qed.

(** Rewrites the tests of [match_token] that the hypotheses decide. *)
Ltac tags :=
  repeat match goal with
  | H : tag (token ?p) = ?t |- context [match_token ?p ?t'] =>
    rewrite (@match_token_is p t t' H)
  | H : tag (token ?p) <> ?t |- context [match_token ?p ?t] =>
    rewrite (@match_token_neq p t H)
  | H : tag (token ?p) = ?t |- context [tag (token ?p)] =>
    rewrite H
  end;
  cbn [Tag_beq negb orb andb].

(** ** Runs and fuel *)

Lemma steady_returns {A : Type} (f : nat -> Parser -> Result A) n p a p' :
  steady f -> f n p = Ok a p' -> Returns f p a p'.
Proof.
  intros Hf H; exists n; intros m Hm.
  exact (le_res_ok (Hf n m Hm p) H).
Qed.

Lemma steady_exits {A : Type} (f : nat -> Parser -> Result A) n p site :
  steady f -> f n p = Exit site -> Exits f p site.
Proof.
  intros Hf H; exists n; intros m Hm.
  exact (le_res_exit (Hf n m Hm p) H).
Qed.

Lemma Returns_unique {A : Type} (f : nat -> Parser -> Result A) p a p' b q :
  Returns f p a p' -> Returns f p b q -> a = b /\ p' = q.
Proof.
  intros [n Hn] [m Hm].
  specialize (Hn (n + m) ltac:(lia)); specialize (Hm (n + m) ltac:(lia)).
  rewrite Hn in Hm; inversion Hm; auto.
Qed.

Lemma unary_steady : steady (@unary Lexer _).
Proof. intros n m H; apply unary_le; exact H. Qed.

Lemma binary_mul_steady : steady (@binary_mul Lexer _).
Proof. intros n m H; apply binary_mul_le; exact H. Qed.

Lemma binary_add_steady : steady (@binary_add Lexer _).
Proof. intros n m H; apply binary_add_le; exact H. Qed.

Lemma binary_or_steady : steady (@binary_or Lexer _).
Proof. intros n m H; apply binary_or_le; exact H. Qed.

Lemma statement_steady : steady (@statement Lexer _).
Proof. intros n m H; apply statement_le; exact H. Qed.

Lemma if_else_steady : steady (@if_else Lexer _).
Proof. intros n m H; apply if_else_le; exact H. Qed.

Lemma while_loop_steady : steady (@while_loop Lexer _).
Proof. intros n m H; apply while_loop_le; exact H. Qed.

Lemma block_steady : steady (@block Lexer _).
Proof. intros n m H; apply block_le; exact H. Qed.

Lemma param_steady c : steady (fun n => @param Lexer _ n c).
Proof. intros n m H; apply param_le; exact H. Qed.

Lemma function_def_steady : steady (@function_def Lexer _).
Proof. intros n m H; apply function_def_le; exact H. Qed.

Lemma program_steady : steady (@program Lexer _).
Proof. intros n m H; apply program_le; exact H. Qed.

Lemma parsing_steady (lex : Lexer) n m a p :
  n <= m -> parsing n lex = Ok a p -> parsing m lex = Ok a p.
Proof. intros H; apply le_res_ok, parsing_le, H. Qed.

(** ** The loop of [binary] *)

Lemma binary_loop_chain (operand : nat -> Rule) ops p rest p2 :
  chain operand ops p rest p2 ->
  exists N, forall k n, N <= k -> N <= n ->
    forall lhs,
      binary_loop k (operand n) ops lhs p = Ok (fold_binary lhs rest) p2.
Proof.
  induction 1 as [p Hstop | p rhs p1 rest p2 Hop [N1 Hrhs] _ [N2 IH]].
  - exists 0; intros [|k] n _ _ lhs; simpl; rewrite Hstop; reflexivity.
  - exists (S (N1 + N2)); intros [|k] n Hk Hn lhs; [lia|].
    simpl; rewrite Hop, Hrhs by lia; simpl.
    rewrite IH by lia; reflexivity.
Qed.

Lemma tier_unfold (t : Tier) n p :
  tier_rule t (S n) p
  = match t with
    | mul_tier | add_tier => binary n (tier_operand t n) (tier_ops t) p
    | _ => binary (S n) (tier_operand t (S n)) (tier_ops t) p
    end.
Proof. destruct t; reflexivity. Qed.

(** A tier returns the left fold of the run it reads. *)
Lemma tier_fold (t : Tier) p l p1 rest p2 :
  Returns (tier_operand t) p (Some l) p1 ->
  chain (tier_operand t) (tier_ops t) p1 rest p2 ->
  Returns (tier_rule t) p (fold_binary (Some l) rest) p2.
Proof.
  intros [N1 Hl] Hchain.
  destruct (binary_loop_chain Hchain) as [N2 Hloop].
  exists (S (N1 + N2)); intros [|m] Hm; [lia|].
  rewrite tier_unfold; unfold binary.
  destruct t; rewrite Hl by lia; cbv beta iota delta [bind];
    apply Hloop; lia.
Qed.

(** A tier hands on an operand that no operator of the tier follows. *)
Lemma tier_single (t : Tier) p l p1 :
  Returns (tier_operand t) p (Some l) p1 ->
  find_op (tier_ops t) (tag_to_op (tag (token p1))) = false ->
  Returns (tier_rule t) p (Some l) p1.
Proof.
  intros Hl Hstop.
  exact (tier_fold t Hl (chain_stop (tier_operand t) (tier_ops t) p1 Hstop)).
Qed.

(** The operand of a tier that exits makes the tier exit at the same site. *)
Lemma tier_operand_exits (t : Tier) p site :
  Exits (tier_operand t) p site -> Exits (tier_rule t) p site.
Proof.
  intros [N H]; exists (S N); intros [|m] Hm; [lia|].
  rewrite tier_unfold; unfold binary.
  destruct t; rewrite H by lia; reflexivity.
Qed.

(** [binary] never returns a null pointer, whatever its operand rule is: the
    left operand is tested, and the loop only replaces it by a new node.  So
    the six tiers return [Some] node whenever they return. *)
Lemma binary_loop_never_null n (parser : Rule) ops lhs p a p' :
  lhs <> None ->
  binary_loop n parser ops lhs p = Ok a p' -> a <> None.
Proof.
  revert lhs p; induction n as [|n IH]; intros lhs p Hl; simpl;
    destruct (find_op ops (tag_to_op (tag (token p)))); try discriminate;
    try (intro H; inversion H; subst; exact Hl).
  destruct (parser (next p)) as [[rhs|] q | | |]; simpl; try discriminate.
  apply IH; discriminate.
Qed.

Lemma binary_never_null n (parser : Rule) ops p a p' :
  binary n parser ops p = Ok a p' -> a <> None.
Proof.
  unfold binary.
  destruct (parser p) as [[lhs|] q | | |]; simpl; try discriminate.
  apply binary_loop_never_null; discriminate.
Qed.

Lemma tier_never_null (t : Tier) p a p' :
  Returns (tier_rule t) p a p' -> exists e, a = Some e.
Proof.
  intros [N H]; specialize (H (S N) (Nat.le_succ_diag_r N)).
  rewrite tier_unfold in H.
  assert (Ha : a <> None) by (destruct t; exact (binary_never_null _ _ _ _ H)).
  destruct a as [e|]; [exists e; reflexivity | contradiction].
Qed.

(** ** The base tier *)

Lemma unary_num (p : Parser) :
  tag (token p) = NUM ->
  Returns unary p (Some (NumAST (val (token p)))) (next p).
Proof.
  intro H; exists 1; intros [|m] Hm; [lia|].
  simpl; unfold match_token; rewrite H; reflexivity.
Qed.

Lemma unary_var (p : Parser) :
  tag (token p) = ID ->
  tag (token (next p)) <> LPAREN -> tag (token (next p)) <> LBRACKET ->
  Returns unary p (Some (LValAST (name (token p)) var_t [])) (next p).
Proof.
  intros H H1 H2; exists 1; intros [|m] Hm; [lia|].
  simpl; unfold match_token at 1 2 3 4 5 6; rewrite H; simpl.
  rewrite (match_token_neq _ H1), (match_token_neq _ H2); reflexivity.
Qed.

(** The base tier returns a binary node only for a parenthesized
    expression. *)
Lemma unary_binary_in_parens (p : Parser) op x y p' :
  Returns unary p (Some (BinaryAST op x y)) p' -> tag (token p) = LPAREN.
Proof.
  intros [N H]; specialize (H (S N) (Nat.le_succ_diag_r N)); simpl in H.
  destruct (match_token p LPAREN) eqn:E; [apply Tag_beq_eq; exact E|].
  exfalso.
  repeat (match type of H with
          | context [if ?c then _ else _] => destruct c
          | context [bind ?r _] => destruct r; cbn [bind] in H
          | context [match ?a with Some _ => _ | None => _ end] => destruct a
          end; try discriminate H).
Qed.

(** What the loop of [binary] returns is the left operand it was given, in
    the state it was given, or a node of one of its operators. *)
Lemma binary_loop_root n (parser : Rule) ops lhs p a p' :
  binary_loop n parser ops lhs p = Ok a p' ->
  (a = lhs /\ p' = p) \/
  exists op l r, a = Some (BinaryAST op l r) /\ find_op ops op = true.
Proof.
  revert lhs p; induction n as [|n IH]; intros lhs p; simpl;
    destruct (find_op ops (tag_to_op (tag (token p)))) eqn:Hop;
    try discriminate;
    try (intro H; inversion H; subst; left; split; reflexivity).
  destruct (parser (next p)) as [[rhs|] q | | |]; cbn [bind];
    try discriminate.
  intro H; right; destruct (IH _ _ H) as [[-> _] | Hnode].
  - exists (tag_to_op (tag (token p))), lhs, (Some rhs); split;
      [reflexivity | exact Hop].
  - exact Hnode.
Qed.

(** A tier returns a node of one of its operators or what its operand rule
    returns. *)
Lemma tier_root (t : Tier) p op x y p' :
  Returns (tier_rule t) p (Some (BinaryAST op x y)) p' ->
  find_op (tier_ops t) op = true \/
  Returns (tier_operand t) p (Some (BinaryAST op x y)) p'.
Proof.
  intros [N H].
  assert (Hs : steady (tier_operand t)).
  { destruct t; intros n m Hnm;
      [ apply unary_le | apply binary_mul_le | apply binary_add_le
      | apply binary_relation_le | apply binary_eq_le | apply binary_and_le ];
      exact Hnm. }
  specialize (H (S N) (Nat.le_succ_diag_r N)); rewrite tier_unfold in H.
  assert (Hb : exists n,
             binary n (tier_operand t n) (tier_ops t) p
             = Ok (Some (BinaryAST op x y)) p').
  { destruct t; eexists; exact H. }
  clear H; destruct Hb as [n H]; unfold binary in H.
  destruct (tier_operand t n p) as [[lhs|] q | | |] eqn:Hl; cbn [bind] in H;
    try discriminate H.
  destruct (binary_loop_root _ _ _ _ _ H) as [[Ha ->] | (op' & l & r & Ha & Hop)].
  - right; rewrite Ha; exact (steady_returns _ _ Hs Hl).
  - left; inversion Ha; subst; exact Hop.
Qed.

(** An operand of a tier is a node of one of the tier's own operators only
    when it is a parenthesized expression. *)
Lemma operand_of_own_tier_in_parens (t : Tier) (p : Parser) op x y p' :
  Returns (tier_operand t) p (Some (BinaryAST op x y)) p' ->
  find_op (tier_ops t) op = true ->
  tag (token p) = LPAREN.
Proof.
  intros H Hop.
  assert (Hmul : forall o, Returns binary_mul p (Some (BinaryAST o x y)) p' ->
                   find_op (tier_ops mul_tier) o = false ->
                   tag (token p) = LPAREN).
  { intros o Ho Hno; destruct (tier_root mul_tier Ho) as [Hin | Hu].
    - rewrite Hin in Hno; discriminate.
    - exact (unary_binary_in_parens Hu). }
  assert (Hadd : forall o, Returns binary_add p (Some (BinaryAST o x y)) p' ->
                   find_op (tier_ops add_tier ++ tier_ops mul_tier) o = false ->
                   tag (token p) = LPAREN).
  { intros o Ho Hno; destruct (tier_root add_tier Ho) as [Hin | Hu].
    - destruct o; discriminate.
    - apply (Hmul o Hu); destruct o; try discriminate; reflexivity. }
  assert (Hrel : forall o,
                   Returns binary_relation p (Some (BinaryAST o x y)) p' ->
                   find_op (tier_ops relation_tier ++ tier_ops add_tier
                            ++ tier_ops mul_tier) o = false ->
                   tag (token p) = LPAREN).
  { intros o Ho Hno; destruct (tier_root relation_tier Ho) as [Hin | Hu].
    - destruct o; discriminate.
    - apply (Hadd o Hu); destruct o; try discriminate; reflexivity. }
  assert (Heq : forall o, Returns binary_eq p (Some (BinaryAST o x y)) p' ->
                  find_op (tier_ops eq_tier ++ tier_ops relation_tier
                           ++ tier_ops add_tier ++ tier_ops mul_tier) o = false ->
                  tag (token p) = LPAREN).
  { intros o Ho Hno; destruct (tier_root eq_tier Ho) as [Hin | Hu].
    - destruct o; discriminate.
    - apply (Hrel o Hu); destruct o; try discriminate; reflexivity. }
  assert (Hand : forall o, Returns binary_and p (Some (BinaryAST o x y)) p' ->
                   find_op (tier_ops and_tier ++ tier_ops eq_tier
                            ++ tier_ops relation_tier ++ tier_ops add_tier
                            ++ tier_ops mul_tier) o = false ->
                   tag (token p) = LPAREN).
  { intros o Ho Hno; destruct (tier_root and_tier Ho) as [Hin | Hu].
    - destruct o; discriminate.
    - apply (Heq o Hu); destruct o; try discriminate; reflexivity. }
  destruct t; simpl in H, Hop.
  - exact (unary_binary_in_parens H).
  - apply (Hmul op H); destruct op; try discriminate; reflexivity.
  - apply (Hadd op H); destruct op; try discriminate; reflexivity.
  - apply (Hrel op H); destruct op; try discriminate; reflexivity.
  - apply (Heq op H); destruct op; try discriminate; reflexivity.
  - apply (Hand op H); destruct op; try discriminate; reflexivity.
Qed.

Lemma fold_binary_last (lhs : ASTPtr) rest op rhs :
  fold_binary lhs (rest ++ [(op, rhs)])
  = make_unique (BinaryAST op (fold_binary lhs rest) rhs).
Proof. unfold fold_binary; rewrite fold_left_app; reflexivity. Qed.

(** The tokens [a op b] at a tier whose operands are [a] and [b]. *)
Lemma tier_pair (t : Tier) p a p1 b p2 :
  Returns (tier_operand t) p (Some a) p1 ->
  find_op (tier_ops t) (tag_to_op (tag (token p1))) = true ->
  Returns (tier_operand t) (next p1) (Some b) p2 ->
  find_op (tier_ops t) (tag_to_op (tag (token p2))) = false ->
  Returns (tier_rule t) p
    (Some (BinaryAST (tag_to_op (tag (token p1))) (Some a) (Some b))) p2.
Proof.
  intros Ha Hop Hb Hstop.
  assert (Hc : chain (tier_operand t) (tier_ops t) p1
                 [(tag_to_op (tag (token p1)), Some b)] p2).
  { eapply chain_more; [exact Hop | exact Hb | apply chain_stop, Hstop]. }
  exact (tier_fold t Ha Hc).
Qed.

(** Three operands [a], [b] and [c] of the base tier, joined by an additive
    and then a multiplicative operator. *)
Lemma add_then_mul (p : Parser) a p1 b p2 c p3 :
  Returns unary p (Some a) p1 ->
  In (tag (token p1)) [ADD; SUB] ->
  Returns unary (next p1) (Some b) p2 ->
  In (tag (token p2)) [MUL; DIV; MOD] ->
  Returns unary (next p2) (Some c) p3 ->
  find_op (tier_ops add_tier ++ tier_ops mul_tier)
          (tag_to_op (tag (token p3))) = false ->
  Returns binary_add p
    (Some (BinaryAST (tag_to_op (tag (token p1))) (Some a)
       (Some (BinaryAST (tag_to_op (tag (token p2))) (Some b) (Some c)))))
    p3.
Proof.
  intros Ha Hadd Hb Hmul Hc Hstop.
  unfold find_op in Hstop; rewrite existsb_app in Hstop.
  apply orb_false_elim in Hstop; destruct Hstop as [Hsa Hsm].
  assert (Hl : Returns binary_mul p (Some a) p1).
  { apply (tier_single mul_tier Ha).
    simpl in Hadd; destruct Hadd as [<- | [<- | []]]; reflexivity. }
  assert (Hr : Returns binary_mul (next p1)
                 (Some (BinaryAST (tag_to_op (tag (token p2)))
                          (Some b) (Some c))) p3).
  { apply (tier_pair mul_tier Hb); [|exact Hc|exact Hsm].
    simpl in Hmul; destruct Hmul as [<- | [<- | [<- | []]]]; reflexivity. }
  apply (tier_pair add_tier Hl); [|exact Hr|exact Hsa].
  simpl in Hadd; destruct Hadd as [<- | [<- | []]]; reflexivity.
Qed.

(** The same operands joined by a multiplicative and then an additive
    operator. *)
Lemma mul_then_add (p : Parser) a p1 b p2 c p3 :
  Returns unary p (Some a) p1 ->
  In (tag (token p1)) [MUL; DIV; MOD] ->
  Returns unary (next p1) (Some b) p2 ->
  In (tag (token p2)) [ADD; SUB] ->
  Returns unary (next p2) (Some c) p3 ->
  find_op (tier_ops add_tier ++ tier_ops mul_tier)
          (tag_to_op (tag (token p3))) = false ->
  Returns binary_add p
    (Some (BinaryAST (tag_to_op (tag (token p2)))
       (Some (BinaryAST (tag_to_op (tag (token p1))) (Some a) (Some b)))
       (Some c)))
    p3.
Proof.
  intros Ha Hmul Hb Hadd Hc Hstop.
  unfold find_op in Hstop; rewrite existsb_app in Hstop.
  apply orb_false_elim in Hstop; destruct Hstop as [Hsa Hsm].
  assert (Hl : Returns binary_mul p
                 (Some (BinaryAST (tag_to_op (tag (token p1)))
                          (Some a) (Some b))) p2).
  { apply (tier_pair mul_tier Ha); [|exact Hb|].
    - simpl in Hmul; destruct Hmul as [<- | [<- | [<- | []]]]; reflexivity.
    - simpl in Hadd; destruct Hadd as [<- | [<- | []]]; reflexivity. }
  assert (Hr : Returns binary_mul (next p2) (Some c) p3).
  { apply (tier_single mul_tier Hc Hsm). }
  apply (tier_pair add_tier Hl); [|exact Hr|exact Hsa].
  simpl in Hadd; destruct Hadd as [<- | [<- | []]]; reflexivity.
Qed.

(** The loop of [binary] over any operand rule, with fuel for each operator
    of the run. *)
Lemma binary_loop_run (parser : Rule) ops p rest p2 :
  chain (fun _ => parser) ops p rest p2 ->
  forall k lhs, List.length rest <= k ->
    binary_loop k parser ops lhs p = Ok (fold_binary lhs rest) p2.
Proof.
  induction 1 as [p Hstop | p rhs p1 rest p2 Hop [N Hrhs] _ IH];
    intros [|k] lhs Hk; simpl in Hk; try lia; simpl.
  - rewrite Hstop; reflexivity.
  - rewrite Hstop; reflexivity.
  - rewrite Hop, (Hrhs N (le_n N)); simpl.
    apply IH; lia.
Qed.

(** Three numbers joined by two operators, as the lexer feeds them. *)
Lemma feeds_three (p p' : Parser) x o1 y o2 z :
  feeds p [TNum x; T o1; TNum y; T o2; TNum z] p' ->
  let p1 := next p in
  let p2 := next (next p1) in
  let p3 := next (next p2) in
  p' = p3 /\
  Returns unary p (Some (NumAST x)) p1 /\ tag (token p1) = o1 /\
  Returns unary (next p1) (Some (NumAST y)) p2 /\ tag (token p2) = o2 /\
  Returns unary (next p2) (Some (NumAST z)) p3.
Proof.
  simpl; intros ((Hx & _ & Vx) & Ho1 & (Hy & _ & Vy) & Ho2 & (Hz & _ & Vz) & ->).
  simpl in *.
  rewrite <- (Vx eq_refl), <- (Vy eq_refl), <- (Vz eq_refl).
  repeat split; try apply unary_num; solve [assumption | apply Ho1 | apply Ho2].
Qed.

(** An operand of the base tier that no additive or multiplicative operator
    follows is what the additive tier returns. *)
Lemma unary_to_add (p : Parser) e p1 :
  Returns unary p (Some e) p1 ->
  find_op (tier_ops add_tier ++ tier_ops mul_tier)
          (tag_to_op (tag (token p1))) = false ->
  Returns binary_add p (Some e) p1.
Proof.
  intros He Hstop.
  unfold find_op in Hstop; rewrite existsb_app in Hstop.
  apply orb_false_elim in Hstop; destruct Hstop as [Hsa Hsm].
  apply (tier_single add_tier); [|exact Hsa].
  apply (tier_single mul_tier); [exact He|exact Hsm].
Qed.

(** An additive expression that no operator of the four tiers above follows
    is what the logical-or tier returns. *)
Lemma add_to_or (p : Parser) e p1 :
  Returns binary_add p (Some e) p1 ->
  find_op (tier_ops relation_tier ++ tier_ops eq_tier ++ tier_ops and_tier
           ++ tier_ops or_tier) (tag_to_op (tag (token p1))) = false ->
  Returns binary_or p (Some e) p1.
Proof.
  intros He Hstop.
  unfold find_op in Hstop; rewrite !existsb_app in Hstop.
  apply orb_false_elim in Hstop; destruct Hstop as [Hr Hstop].
  apply orb_false_elim in Hstop; destruct Hstop as [Heq Hstop].
  apply orb_false_elim in Hstop; destruct Hstop as [Hand Hor].
  apply (tier_single or_tier); [|exact Hor].
  apply (tier_single and_tier); [|exact Hand].
  apply (tier_single eq_tier); [|exact Heq].
  apply (tier_single relation_tier); [exact He|exact Hr].
Qed.

(** An operator of the four tiers above the additive one, between two
    additive expressions and followed by no further such operator, is folded
    by the logical-or tier, '<' apart. *)
Lemma or_tier_pair (p : Parser) a p1 b p2 :
  Returns binary_add p (Some a) p1 ->
  In (tag (token p1)) [GT; GE; LE; EQU; NEQU; AND; OR] ->
  Returns binary_add (next p1) (Some b) p2 ->
  find_op (tier_ops relation_tier ++ tier_ops eq_tier ++ tier_ops and_tier
           ++ tier_ops or_tier) (tag_to_op (tag (token p2))) = false ->
  Returns binary_or p
    (Some (BinaryAST (tag_to_op (tag (token p1))) (Some a) (Some b))) p2.
Proof.
  intros Ha Hop Hb Hstop.
  unfold find_op in Hstop; rewrite !existsb_app in Hstop.
  apply orb_false_elim in Hstop; destruct Hstop as [Hr Hstop].
  apply orb_false_elim in Hstop; destruct Hstop as [Heq Hstop].
  apply orb_false_elim in Hstop; destruct Hstop as [Hand Hor].
  simpl in Hop.
  destruct Hop as [T | [T | [T | [T | [T | [T | [T | []]]]]]]].
  1-3: apply (tier_single or_tier); [|exact Hor];
       apply (tier_single and_tier); [|exact Hand];
       apply (tier_single eq_tier); [|exact Heq];
       apply (tier_pair relation_tier Ha); [|exact Hb|exact Hr];
       rewrite <- T; reflexivity.
  1-2: apply (tier_single or_tier); [|exact Hor];
       apply (tier_single and_tier); [|exact Hand];
       apply (tier_pair eq_tier (p1 := p1)); [| |
         apply (tier_single relation_tier Hb Hr) | exact Heq];
       [ apply (tier_single relation_tier Ha) | ];
       rewrite <- T; reflexivity.
  - apply (tier_single or_tier); [|exact Hor].
    apply (tier_pair and_tier (p1 := p1)); [| | | exact Hand].
    + apply (tier_single eq_tier); [|rewrite <- T; reflexivity].
      apply (tier_single relation_tier Ha); rewrite <- T; reflexivity.
    + rewrite <- T; reflexivity.
    + apply (tier_single eq_tier); [|exact Heq].
      apply (tier_single relation_tier Hb Hr).
  - apply (tier_pair or_tier (p1 := p1)); [| | | exact Hor].
    + apply (tier_single and_tier); [|rewrite <- T; reflexivity].
      apply (tier_single eq_tier); [|rewrite <- T; reflexivity].
      apply (tier_single relation_tier Ha); rewrite <- T; reflexivity.
    + rewrite <- T; reflexivity.
    + apply (tier_single and_tier); [|exact Hand].
      apply (tier_single eq_tier); [|exact Heq].
      apply (tier_single relation_tier Hb Hr).
Qed.

(** ** Statements *)

Lemma keyword_tests (p : Parser) :
  statement_keyword (tag (token p)) = false ->
  match_token p SEMICON = false /\ match_token p LBRACE = false /\
  match_token p KW_WHILE = false /\ match_token p KW_IF = false /\
  match_token p KW_BREAK = false /\ match_token p KW_CONTINUE = false /\
  match_token p KW_RETURN = false.
Proof.
  unfold match_token; destruct (tag (token p)); simpl; intro H;
    try discriminate H; repeat split.
Qed.

(** Enters the branch of [statement] for expressions and assignments. *)
Ltac expression_branch Hk :=
  let K := fresh "K" in
  destruct (keyword_tests _ Hk) as (K & ? & ? & ? & ? & ? & ?);
  simpl; rewrite K;
  repeat match goal with
         | H : match_token _ _ = false |- _ => rewrite H; clear H
         end;
  cbn [orb].

Lemma statement_operand_exits (p : Parser) site :
  statement_keyword (tag (token p)) = false ->
  Exits binary_add p site -> Exits statement p site.
Proof.
  intros Hk [N H]; exists (S N); intros [|m] Hm; [lia|].
  expression_branch Hk; rewrite H by lia; reflexivity.
Qed.

Lemma statement_assign (p : Parser) e p1 r p2 :
  statement_keyword (tag (token p)) = false ->
  Returns binary_add p (Some e) p1 ->
  is_LValAST (Some e) = true -> tag (token p1) = ASSIGN ->
  Returns binary_add (next p1) (Some r) p2 ->
  tag (token p2) = SEMICON ->
  Returns statement p
    (Some (StmtAST (Some (AssignAST (Some e) (Some r))))) (next p2).
Proof.
  intros Hk [N1 H1] HL Ha [N2 H2] Hs.
  exists (S (N1 + N2)); intros [|m] Hm; [lia|].
  expression_branch Hk; rewrite H1 by lia; cbn [bind]; rewrite HL; tags.
  rewrite H2 by lia; cbn [bind]; tags; reflexivity.
Qed.

Lemma statement_assign_open (p : Parser) e p1 r p2 :
  statement_keyword (tag (token p)) = false ->
  Returns binary_add p (Some e) p1 ->
  is_LValAST (Some e) = true -> tag (token p1) = ASSIGN ->
  Returns binary_add (next p1) (Some r) p2 ->
  tag (token p2) <> SEMICON ->
  Exits statement p L409_exit113.
Proof.
  intros Hk [N1 H1] HL Ha [N2 H2] Hs.
  exists (S (N1 + N2)); intros [|m] Hm; [lia|].
  expression_branch Hk; rewrite H1 by lia; cbn [bind]; rewrite HL; tags.
  rewrite H2 by lia; cbn [bind]; tags; reflexivity.
Qed.

Lemma statement_lval (p : Parser) e p1 :
  statement_keyword (tag (token p)) = false ->
  Returns binary_add p (Some e) p1 ->
  is_LValAST (Some e) = true -> tag (token p1) = SEMICON ->
  Returns statement p (Some (StmtAST (Some e))) (next p1).
Proof.
  intros Hk [N1 H1] HL Hs.
  exists (S N1); intros [|m] Hm; [lia|].
  expression_branch Hk; rewrite H1 by lia; cbn [bind]; rewrite HL; tags.
  reflexivity.
Qed.

Lemma statement_lval_open (p : Parser) e p1 :
  statement_keyword (tag (token p)) = false ->
  Returns binary_add p (Some e) p1 ->
  is_LValAST (Some e) = true ->
  tag (token p1) <> ASSIGN -> tag (token p1) <> SEMICON ->
  Exits statement p L418_exit114.
Proof.
  intros Hk [N1 H1] HL Ha Hs.
  exists (S N1); intros [|m] Hm; [lia|].
  expression_branch Hk; rewrite H1 by lia; cbn [bind]; rewrite HL; tags.
  reflexivity.
Qed.

Lemma statement_expression (p : Parser) e p1 :
  statement_keyword (tag (token p)) = false ->
  Returns binary_add p (Some e) p1 ->
  is_LValAST (Some e) = false -> tag (token p1) = SEMICON ->
  Returns statement p (Some (StmtAST (Some e))) (next p1).
Proof.
  intros Hk [N1 H1] HL Hs.
  exists (S N1); intros [|m] Hm; [lia|].
  expression_branch Hk; rewrite H1 by lia; cbn [bind]; rewrite HL; tags.
  reflexivity.
Qed.

Lemma statement_expression_open (p : Parser) e p1 :
  statement_keyword (tag (token p)) = false ->
  Returns binary_add p (Some e) p1 ->
  is_LValAST (Some e) = false -> tag (token p1) <> SEMICON ->
  Exits statement p L423_exit115.
Proof.
  intros Hk [N1 H1] HL Hs.
  exists (S N1); intros [|m] Hm; [lia|].
  expression_branch Hk; rewrite H1 by lia; cbn [bind]; rewrite HL; tags.
  reflexivity.
Qed.

(** The branch of [statement] for 'break', 'continue' and 'return' (lines
    359 to 393). *)
Lemma statement_control_bare (p : Parser) command :
  control_of_tag (tag (token p)) = Some command ->
  tag (token (next p)) = SEMICON ->
  Returns statement p
    (Some (StmtAST (Some (ControlAST command None)))) (next (next p)).
Proof.
  intros Hc Hs; exists 1; intros [|m] Hm; [lia|].
  simpl; unfold match_token at 1 2 3 4 5 6 7.
  destruct (tag (token p)); try discriminate Hc; simpl;
    rewrite Hs; simpl; inversion Hc; reflexivity.
Qed.

Lemma statement_control_expression (p : Parser) command e p1 :
  control_of_tag (tag (token p)) = Some command ->
  tag (token (next p)) <> SEMICON ->
  Returns binary_add (next p) (Some e) p1 ->
  (tag (token p1) = SEMICON ->
   Returns statement p
     (Some (StmtAST (Some (ControlAST return_c (Some e))))) (next p1)) /\
  (tag (token p1) <> SEMICON -> Exits statement p L388_exit110).
Proof.
  intros Hc Hn [N He]; apply Tag_beq_neq in Hn.
  split; intro Hs; exists (S N); intros [|m] Hm; try lia;
    simpl; unfold match_token at 1 2 3 4 5 6 7;
    destruct (tag (token p)); try discriminate Hc; simpl;
    rewrite Hn, He by lia; cbn [bind]; tags; reflexivity.
Qed.

(** [if_else] and [while_loop]. *)
Lemma if_else_open (p : Parser) c q :
  tag (token (next p)) = LPAREN ->
  Returns binary_or (next (next p)) (Some c) q ->
  tag (token q) <> RPAREN ->
  Exits if_else p L443_exit118.
Proof.
  intros Hl [N Hc] Hr; exists (S N); intros [|m] Hm; [lia|].
  simpl; tags; rewrite Hc by lia; cbn [bind]; tags; reflexivity.
Qed.

Lemma while_loop_open (p : Parser) c q :
  tag (token (next p)) = LPAREN ->
  Returns binary_or (next (next p)) (Some c) q ->
  tag (token q) <> RPAREN ->
  Exits while_loop p L474_exit118.
Proof.
  intros Hl [N Hc] Hr; exists (S N); intros [|m] Hm; [lia|].
  simpl; tags; rewrite Hc by lia; cbn [bind]; tags; reflexivity.
Qed.

Lemma if_else_then (p : Parser) c q s q1 :
  tag (token (next p)) = LPAREN ->
  Returns binary_or (next (next p)) (Some c) q ->
  tag (token q) = RPAREN ->
  Returns statement (next q) (Some s) q1 ->
  tag (token q1) <> KW_ELSE ->
  Returns if_else p (Some (IfAST (Some c) (Some s) None)) q1.
Proof.
  intros Hl [N1 Hc] Hr [N2 Hs] He.
  exists (S (N1 + N2)); intros [|m] Hm; [lia|].
  simpl; tags; rewrite Hc by lia; cbn [bind]; tags.
  rewrite Hs by lia; cbn [bind]; tags; reflexivity.
Qed.

Lemma if_else_then_else (p : Parser) c q s q1 s' q2 :
  tag (token (next p)) = LPAREN ->
  Returns binary_or (next (next p)) (Some c) q ->
  tag (token q) = RPAREN ->
  Returns statement (next q) (Some s) q1 ->
  tag (token q1) = KW_ELSE ->
  Returns statement (next q1) (Some s') q2 ->
  Returns if_else p (Some (IfAST (Some c) (Some s) (Some s'))) q2.
Proof.
  intros Hl [N1 Hc] Hr [N2 Hs] He [N3 Hs'].
  exists (S (N1 + N2 + N3)); intros [|m] Hm; [lia|].
  simpl; tags; rewrite Hc by lia; cbn [bind]; tags.
  rewrite Hs by lia; cbn [bind]; tags.
  rewrite Hs' by lia; reflexivity.
Qed.

Lemma while_loop_body (p : Parser) c q s q1 :
  tag (token (next p)) = LPAREN ->
  Returns binary_or (next (next p)) (Some c) q ->
  tag (token q) = RPAREN ->
  Returns statement (next q) (Some s) q1 ->
  Returns while_loop p (Some (WhileAST (Some c) (Some s))) q1.
Proof.
  intros Hl [N1 Hc] Hr [N2 Hs].
  exists (S (N1 + N2)); intros [|m] Hm; [lia|].
  simpl; tags; rewrite Hc by lia; cbn [bind]; tags.
  rewrite Hs by lia; reflexivity.
Qed.

(** [statement] on 'if' and on 'while'. *)
Lemma statement_if (p : Parser) i q :
  tag (token p) = KW_IF ->
  Returns if_else p (Some i) q ->
  Returns statement p (Some (StmtAST (Some i))) q.
Proof.
  intros Hk [N Hi]; exists (S N); intros [|m] Hm; [lia|].
  simpl; tags; rewrite Hi by lia; reflexivity.
Qed.

Lemma statement_if_exits (p : Parser) site :
  tag (token p) = KW_IF ->
  Exits if_else p site -> Exits statement p site.
Proof.
  intros Hk [N Hi]; exists (S N); intros [|m] Hm; [lia|].
  simpl; tags; rewrite Hi by lia; reflexivity.
Qed.

Lemma statement_while (p : Parser) w q :
  tag (token p) = KW_WHILE ->
  Returns while_loop p (Some w) q ->
  Returns statement p (Some (StmtAST (Some w))) q.
Proof.
  intros Hk [N Hw]; exists (S N); intros [|m] Hm; [lia|].
  simpl; tags; rewrite Hw by lia; reflexivity.
Qed.

Lemma statement_while_exits (p : Parser) site :
  tag (token p) = KW_WHILE ->
  Exits while_loop p site -> Exits statement p site.
Proof.
  intros Hk [N Hw]; exists (S N); intros [|m] Hm; [lia|].
  simpl; tags; rewrite Hw by lia; reflexivity.
Qed.

Lemma above_additive_no_end (t : Tag) :
  In t above_additive -> t <> SEMICON /\ t <> ASSIGN /\ t <> RPAREN.
Proof.
  unfold above_additive; simpl; intros H.
  repeat (destruct H as [<- | H]; [repeat split; discriminate|]).
  destruct H.
Qed.

(** ** Parameters *)

Lemma bracket_dims_run (p : Parser) ds p' :
  bracketed p ds p' ->
  exists N, forall k n, N <= k -> N <= n ->
    forall null open acc,
      bracket_dims k (binary_add n) null open acc p = Ok (acc ++ ds) p'.
Proof.
  induction 1 as [p Hstop | p e p1 ds p2 Hopen [N1 He] Hclose _ [N2 IH]].
  - exists 0; intros [|k] n _ _ null open acc; simpl; tags;
      rewrite app_nil_r; reflexivity.
  - exists (S (N1 + N2)); intros [|k] n Hk Hn null open acc; [lia|].
    simpl; tags; rewrite He by lia; cbn [bind]; tags.
    rewrite IH by lia; unfold push_back; rewrite <- app_assoc; reflexivity.
Qed.

Lemma param_array (c : Caller) (p : Parser) ds p' :
  tag (token p) = KW_INT ->
  tag (token (next p)) = ID ->
  tag (token (next (next p))) = LBRACKET ->
  tag (token (next (next (next p)))) = RBRACKET ->
  bracketed (next (next (next (next p)))) ds p' ->
  Returns (fun n => param n c) p
    (Some (IdAST (name (token (next p))) array_t false
             (Some (NumAST 0) :: ds))) p'.
Proof.
  intros Hint Hid Hopen Hclose Hds.
  destruct (bracket_dims_run Hds) as [N Hrun].
  exists N; intros m Hm.
  unfold param; tags; cbv zeta; tags.
  rewrite Hrun by lia; reflexivity.
Qed.

(** The parameter list pushes the node of each parameter. *)
Lemma param_list_last (c : Caller) (p : Parser) a p' args :
  Returns (fun n => param n c) p a p' ->
  tag (token p') <> COMMA ->
  Returns (fun n => param_list n c args) p (args ++ [a]) p'.
Proof.
  intros [N Ha] Hc; exists (S N); intros [|m] Hm; [lia|].
  simpl; rewrite Ha by lia; cbn [bind]; tags; reflexivity.
Qed.

(** ** Blocks *)

Lemma block_ignores_token n (lx : Lexer) (t t' : Token) :
  block n (mkParser lx t) = block n (mkParser lx t').
Proof. destruct n; reflexivity. Qed.

End Theory.

(* ================================================================== *)
(** * The claims of the specification *)

Section Claims.

Context {Lexer : Type} {source : TokenSource Lexer}.

Local Abbreviation Parser := (@Parser Lexer).
Local Abbreviation Result := (@Result Lexer).
Local Abbreviation Rule := (@Rule Lexer).

(** C2: multiplication binds tighter than addition.  The additive tier is
    [binary] over the multiplicative tier and the multiplicative tier is
    [binary] over the base tier, so the operands of an additive operator are
    whole multiplicative runs: [a + b * c] gives [Binary(+, a, Binary( *, b,
    c))] and [a * b + c] gives [Binary(+, Binary( *, a, b), c)] for operands
    of the base tier; an operand of a multiplicative operator is a binary
    node only when it stands in parentheses; the tokens of [1+2*3] give
    [Binary(add, Num 1, Binary(mul, Num 2, Num 3))] and not
    [Binary(mul, Binary(add, Num 1, Num 2), Num 3)]. *)
Theorem C2_mul_binds_tighter_than_add :
  (forall n (p : Parser),
     binary_add (S n) p = binary n (binary_mul n) [add_op; sub_op] p /\
     binary_mul (S n) p = binary n (unary n) [mul_op; div_op; mod_op] p) /\
  (forall (p : Parser) l p1 rest p2,
     Returns binary_mul p (Some l) p1 ->
     chain binary_mul [add_op; sub_op] p1 rest p2 ->
     Returns binary_add p (fold_binary (Some l) rest) p2) /\
  (forall (p : Parser) a p1 b p2 c p3,
     Returns unary p (Some a) p1 ->
     In (tag (token p1)) [ADD; SUB] ->
     Returns unary (next p1) (Some b) p2 ->
     In (tag (token p2)) [MUL; DIV; MOD] ->
     Returns unary (next p2) (Some c) p3 ->
     find_op [add_op; sub_op; mul_op; div_op; mod_op]
             (tag_to_op (tag (token p3))) = false ->
     Returns binary_add p
       (Some (BinaryAST (tag_to_op (tag (token p1))) (Some a)
          (Some (BinaryAST (tag_to_op (tag (token p2))) (Some b) (Some c)))))
       p3) /\
  (forall (p : Parser) a p1 b p2 c p3,
     Returns unary p (Some a) p1 ->
     In (tag (token p1)) [MUL; DIV; MOD] ->
     Returns unary (next p1) (Some b) p2 ->
     In (tag (token p2)) [ADD; SUB] ->
     Returns unary (next p2) (Some c) p3 ->
     find_op [add_op; sub_op; mul_op; div_op; mod_op]
             (tag_to_op (tag (token p3))) = false ->
     Returns binary_add p
       (Some (BinaryAST (tag_to_op (tag (token p2)))
          (Some (BinaryAST (tag_to_op (tag (token p1))) (Some a) (Some b)))
          (Some c)))
       p3) /\
  (forall (p : Parser) op x y p',
     Returns unary p (Some (BinaryAST op x y)) p' ->
     tag (token p) = LPAREN) /\
  (forall (p p' : Parser),
     feeds p [TNum 1; T ADD; TNum 2; T MUL; TNum 3] p' ->
     find_op [add_op; sub_op; mul_op; div_op; mod_op]
             (tag_to_op (tag (token p'))) = false ->
     Returns binary_add p
       (Some (BinaryAST add_op (Some (NumAST 1))
          (Some (BinaryAST mul_op (Some (NumAST 2)) (Some (NumAST 3))))))
       p' /\
     ~ Returns binary_add p
       (Some (BinaryAST mul_op
          (Some (BinaryAST add_op (Some (NumAST 1)) (Some (NumAST 2))))
          (Some (NumAST 3))))
       p').
Proof.
  split; [intros n p; split; reflexivity|].
  split; [intros p l p1 rest p2; apply (tier_fold add_tier)|].
  split; [intros p a p1 b p2 c p3; apply add_then_mul|].
  split; [intros p a p1 b p2 c p3; apply mul_then_add|].
  split; [intros p op x y p'; apply unary_binary_in_parens|].
  intros p p' Hfeed Hstop.
  destruct (feeds_three Hfeed) as (-> & H1 & Ho1 & H2 & Ho2 & H3).
  assert (Hgood := add_then_mul H1 (or_introl (eq_sym Ho1)) H2
                     (or_introl (eq_sym Ho2)) H3 Hstop).
  rewrite Ho1, Ho2 in Hgood; simpl in Hgood.
  split; [exact Hgood|].
  intro Hbad; destruct (Returns_unique Hgood Hbad) as [Heq _]; discriminate.
Qed.

(** C3: every binary tier folds to the left.  [binary], over any operand
    rule and operator set, returns the left fold of the run of operators and
    operands it reads, given fuel for each operator; each of the six tiers is
    [binary] over the tier below and so returns the left fold of its run; the
    root of a fold has the last operand as its right child, and an operand
    of a tier is a node of one of the tier's own operators only when it
    stands in parentheses; the tokens of [1-2-3] give
    [Binary(sub, Binary(sub, Num 1, Num 2), Num 3)] and not the right-nested
    tree. *)
Theorem C3_binary_folds_left :
  (forall n (parser : Rule) ops (p : Parser) l p1 rest p2,
     parser p = Ok (Some l) p1 ->
     chain (fun _ => parser) ops p1 rest p2 ->
     List.length rest <= n ->
     binary n parser ops p = Ok (fold_binary (Some l) rest) p2) /\
  (forall (t : Tier) n (p : Parser),
     tier_rule t (S n) p
     = match t with
       | mul_tier | add_tier => binary n (tier_operand t n) (tier_ops t) p
       | _ => binary (S n) (tier_operand t (S n)) (tier_ops t) p
       end) /\
  (forall (t : Tier) (p : Parser) l p1 rest p2,
     Returns (tier_operand t) p (Some l) p1 ->
     chain (tier_operand t) (tier_ops t) p1 rest p2 ->
     Returns (tier_rule t) p (fold_binary (Some l) rest) p2) /\
  (forall (lhs : ASTPtr) rest op rhs,
     fold_binary lhs (rest ++ [(op, rhs)])
     = Some (BinaryAST op (fold_binary lhs rest) rhs)) /\
  (forall (t : Tier) (p : Parser) op x y p',
     Returns (tier_operand t) p (Some (BinaryAST op x y)) p' ->
     find_op (tier_ops t) op = true ->
     tag (token p) = LPAREN) /\
  (forall (p p' : Parser),
     feeds p [TNum 1; T SUB; TNum 2; T SUB; TNum 3] p' ->
     find_op [add_op; sub_op; mul_op; div_op; mod_op]
             (tag_to_op (tag (token p'))) = false ->
     Returns binary_add p
       (Some (BinaryAST sub_op
          (Some (BinaryAST sub_op (Some (NumAST 1)) (Some (NumAST 2))))
          (Some (NumAST 3))))
       p' /\
     ~ Returns binary_add p
       (Some (BinaryAST sub_op (Some (NumAST 1))
          (Some (BinaryAST sub_op (Some (NumAST 2)) (Some (NumAST 3))))))
       p').
Proof.
  split.
  { intros n parser ops p l p1 rest p2 Hl Hchain Hn.
    unfold binary; rewrite Hl; simpl.
    apply (binary_loop_run Hchain); exact Hn. }
  split; [apply tier_unfold|].
  split; [apply tier_fold|].
  split; [apply fold_binary_last|].
  split; [apply operand_of_own_tier_in_parens|].
  intros p p' Hfeed Hstop.
  destruct (feeds_three Hfeed) as (-> & H1 & Ho1 & H2 & Ho2 & H3).
  unfold find_op in Hstop; simpl in Hstop.
  apply orb_false_elim in Hstop; destruct Hstop as [Sa Hstop].
  apply orb_false_elim in Hstop; destruct Hstop as [Ss Hstop].
  set (p1 := next p) in *; set (p2 := next (next p1)) in *.
  set (p3 := next (next p2)) in *.
  assert (Hchain :
    chain binary_mul [add_op; sub_op] p1
      [(tag_to_op (tag (token p1)), Some (NumAST 2));
       (tag_to_op (tag (token p2)), Some (NumAST 3))] p3).
  { eapply chain_more.
    - rewrite Ho1; reflexivity.
    - apply (tier_single mul_tier H2); rewrite Ho2; reflexivity.
    - eapply chain_more.
      + rewrite Ho2; reflexivity.
      + apply (tier_single mul_tier H3); exact Hstop.
      + apply chain_stop; unfold find_op; simpl; rewrite Sa, Ss; reflexivity. }
  rewrite Ho1, Ho2 in Hchain; simpl in Hchain.
  assert (Hgood := tier_fold add_tier
    (tier_single mul_tier H1 ltac:(rewrite Ho1; reflexivity)) Hchain).
  simpl in Hgood.
  split; [exact Hgood|].
  intro Hbad; destruct (Returns_unique Hgood Hbad) as [Heq _]; discriminate.
Qed.

(** C4: a statement that begins with no terminator, '{', 'while', 'if',
    'break', 'continue' or 'return' first parses an expression, with
    [binary_add], on the same state (a failure of it is the failure of the
    statement).  When the node it built is a left-value and '=' follows, a
    second expression is parsed and the statement wraps
    [Assign(left-value, expression)] if a terminator follows; it is a failure
    otherwise.  In every other case a terminator must follow, and the
    statement wraps the expression itself.  The tokens of [a=1;] give the
    statement of [Assign(LVal(a, scalar), Num 1)], the tokens of [a;] give
    the statement that wraps [LVal(a, scalar)], without an [Assign]. *)
Theorem C4_assignment_or_expression_statement :
  (forall (p : Parser) site,
     statement_keyword (tag (token p)) = false ->
     Exits binary_add p site -> Exits statement p site) /\
  (forall (p : Parser) e p1 r p2,
     statement_keyword (tag (token p)) = false ->
     Returns binary_add p (Some e) p1 ->
     is_LValAST (Some e) = true -> tag (token p1) = ASSIGN ->
     Returns binary_add (next p1) (Some r) p2 ->
     (tag (token p2) = SEMICON ->
      Returns statement p
        (Some (StmtAST (Some (AssignAST (Some e) (Some r))))) (next p2)) /\
     (tag (token p2) <> SEMICON -> Exits statement p L409_exit113)) /\
  (forall (p : Parser) e p1,
     statement_keyword (tag (token p)) = false ->
     Returns binary_add p (Some e) p1 ->
     is_LValAST (Some e) && Tag_beq (tag (token p1)) ASSIGN = false ->
     (tag (token p1) = SEMICON ->
      Returns statement p (Some (StmtAST (Some e))) (next p1)) /\
     (tag (token p1) <> SEMICON ->
      Exits statement p
        (if is_LValAST (Some e) then L418_exit114 else L423_exit115))) /\
  (forall (p p' : Parser),
     feeds p [TId "a"; T ASSIGN; TNum 1; T SEMICON] p' ->
     Returns statement p
       (Some (StmtAST (Some
          (AssignAST (Some (LValAST "a" var_t [])) (Some (NumAST 1))))))
       p') /\
  (forall (p p' : Parser),
     feeds p [TId "a"; T SEMICON] p' ->
     Returns statement p (Some (StmtAST (Some (LValAST "a" var_t [])))) p').
Proof.
  split; [apply statement_operand_exits|].
  split.
  { intros p e p1 r p2 Hk He HL Ha Hr; split; intro Hs.
    - exact (statement_assign Hk He HL Ha Hr Hs).
    - exact (statement_assign_open Hk He HL Ha Hr Hs). }
  split.
  { intros p e p1 Hk He Hno; split; intro Hs.
    - destruct (is_LValAST (Some e)) eqn:HL.
      + exact (statement_lval Hk He HL Hs).
      + exact (statement_expression Hk He HL Hs).
    - destruct (is_LValAST (Some e)) eqn:HL.
      + apply (statement_lval_open Hk He HL); [|exact Hs].
        simpl in Hno; apply Tag_beq_neq; exact Hno.
      + exact (statement_expression_open Hk He HL Hs). }
  split.
  - intros p p'; simpl.
    intros ((Ta & Na & _) & (Te & _) & (Tn & _ & Vn) & (Ts & _) & ->).
    simpl in *.
    assert (Hl : Returns binary_add p (Some (LValAST "a" var_t [])) (next p)).
    { rewrite <- (Na eq_refl).
      apply unary_to_add; [|rewrite Te; reflexivity].
      apply (unary_var _ Ta); rewrite Te; discriminate. }
    assert (Hr : Returns binary_add (next (next p)) (Some (NumAST 1))
                   (next (next (next p)))).
    { rewrite <- (Vn eq_refl).
      apply unary_to_add; [|rewrite Ts; reflexivity].
      apply (unary_num _ Tn). }
    refine (statement_assign _ Hl _ Te Hr Ts); [|reflexivity].
    rewrite Ta; reflexivity.
  - intros p p'; simpl.
    intros ((Ta & Na & _) & (Ts & _) & ->).
    simpl in *.
    assert (Hl : Returns binary_add p (Some (LValAST "a" var_t [])) (next p)).
    { rewrite <- (Na eq_refl).
      apply unary_to_add; [|rewrite Ts; reflexivity].
      apply (unary_var _ Ta); rewrite Ts; discriminate. }
    refine (statement_lval _ Hl _ Ts); [|reflexivity].
    rewrite Ta; reflexivity.
Qed.

(** C1: the relational tier as wired.  Its operator set is
    [gt, ge, le, le]: '<' is not in it and '<=' is in it twice.  After a left
    operand, '>', '>=' or '<=' is consumed and a right operand is folded in;
    '<' is not consumed: the relational tier, and every tier above it,
    returns the left operand with '<' still the current token.  The conditions
    of 'if' and 'while' are the places that reach the relational tier, and
    there '<' is fatal: the ')' that must follow the condition is missing. *)
Theorem C1_relational_tier_omits_lt :
  (relation_ops = [gt_op; ge_op; le_op; le_op] /\
   find_op relation_ops lt_op = false /\
   count_occ Operator_eq_dec relation_ops le_op = 2 /\
   forall n (p : Parser),
     binary_relation n p = binary n (binary_add n) relation_ops p) /\
  (forall (p : Parser) a p1 b p2,
     Returns binary_add p (Some a) p1 ->
     In (tag (token p1)) [GT; GE; LE] ->
     Returns binary_add (next p1) (Some b) p2 ->
     find_op relation_ops (tag_to_op (tag (token p2))) = false ->
     Returns binary_relation p
       (Some (BinaryAST (tag_to_op (tag (token p1))) (Some a) (Some b))) p2) /\
  (forall (p : Parser) a p1,
     Returns binary_add p (Some a) p1 ->
     tag (token p1) = LT ->
     Returns binary_relation p (Some a) p1 /\
     Returns binary_or p (Some a) p1) /\
  (forall (p : Parser) a p1,
     tag (token (next p)) = LPAREN ->
     Returns binary_add (next (next p)) (Some a) p1 ->
     tag (token p1) = LT ->
     Exits if_else p L443_exit118 /\ Exits while_loop p L474_exit118 /\
     (tag (token p) = KW_IF -> Exits statement p L443_exit118) /\
     (tag (token p) = KW_WHILE -> Exits statement p L474_exit118)).
Proof.
  split; [repeat split|].
  split.
  { intros p a p1 b p2 Ha Hop Hb Hstop.
    apply (tier_pair relation_tier Ha); [|exact Hb|exact Hstop].
    simpl in Hop; destruct Hop as [<- | [<- | [<- | []]]]; reflexivity. }
  split.
  { intros p a p1 Ha Hlt; split.
    - apply (tier_single relation_tier Ha); rewrite Hlt; reflexivity.
    - apply (add_to_or Ha); rewrite Hlt; reflexivity. }
  intros p a p1 Hl Ha Hlt.
  assert (Hor : Returns binary_or (next (next p)) (Some a) p1).
  { apply (add_to_or Ha); rewrite Hlt; reflexivity. }
  assert (Hr : tag (token p1) <> RPAREN) by (rewrite Hlt; discriminate).
  assert (Hi := if_else_open _ Hl Hor Hr).
  assert (Hw := while_loop_open _ Hl Hor Hr).
  repeat split; try assumption; intro Hk.
  - exact (statement_if_exits Hk Hi).
  - exact (statement_while_exits Hk Hw).
Qed.

(** C5 (what the code does): a statement that begins with 'break', 'continue'
    or 'return' and has the terminator next is a Control node of the keyword's
    kind without an expression.  When another token is next, the expression
    that follows is parsed and the node is of kind return with this
    expression, whatever the keyword was: [break 1;] and [continue 1;] give
    [Control(return, Num 1)]. *)
Theorem C5_control_with_expression_is_return :
  (forall (p : Parser) command,
     control_of_tag (tag (token p)) = Some command ->
     tag (token (next p)) = SEMICON ->
     Returns statement p
       (Some (StmtAST (Some (ControlAST command None)))) (next (next p))) /\
  (forall (p : Parser) command e p1,
     control_of_tag (tag (token p)) = Some command ->
     tag (token (next p)) <> SEMICON ->
     Returns binary_add (next p) (Some e) p1 ->
     tag (token p1) = SEMICON ->
     Returns statement p
       (Some (StmtAST (Some (ControlAST return_c (Some e))))) (next p1)) /\
  (forall (p p' : Parser) kw,
     In kw [KW_BREAK; KW_CONTINUE; KW_RETURN] ->
     feeds p [T kw; TNum 1; T SEMICON] p' ->
     Returns statement p
       (Some (StmtAST (Some (ControlAST return_c (Some (NumAST 1)))))) p').
Proof.
  split; [apply statement_control_bare|].
  split.
  { intros p command e p1 Hc Hn He Hs.
    exact (proj1 (statement_control_expression _ Hc Hn He) Hs). }
  intros p p' kw Hkw; simpl.
  intros ((Tk & _) & (Tn & _ & Vn) & (Ts & _) & ->); simpl in *.
  assert (Hc : exists command, control_of_tag (tag (token p)) = Some command).
  { rewrite Tk; destruct Hkw as [<- | [<- | [<- | []]]]; eexists; reflexivity. }
  destruct Hc as [command Hc].
  assert (He : Returns binary_add (next p) (Some (NumAST 1)) (next (next p))).
  { rewrite <- (Vn eq_refl).
    apply unary_to_add; [|rewrite Ts; reflexivity].
    apply (unary_num _ Tn). }
  refine (proj1 (statement_control_expression _ Hc _ He) Ts).
  rewrite Tn; discriminate.
Qed.

(** C6: the dangling else.  An 'if' takes the 'else' that follows its
    then-statement at once.  So in [if (c1) if (c2) s1 else s2] the inner
    'if', which is the then-statement of the outer one, carries [s2] as its
    else branch, and the outer 'if' has no else branch; the tree in which the
    outer 'if' carries [s2] is not what the parser returns. *)
Theorem C6_else_binds_to_innermost_if :
  forall (p : Parser) c1 q1 c2 q2 s1 q3 s2 q4,
    tag (token p) = KW_IF ->
    tag (token (next p)) = LPAREN ->
    Returns binary_or (next (next p)) (Some c1) q1 ->
    tag (token q1) = RPAREN ->
    tag (token (next q1)) = KW_IF ->
    tag (token (next (next q1))) = LPAREN ->
    Returns binary_or (next (next (next q1))) (Some c2) q2 ->
    tag (token q2) = RPAREN ->
    Returns statement (next q2) (Some s1) q3 ->
    tag (token q3) = KW_ELSE ->
    Returns statement (next q3) (Some s2) q4 ->
    tag (token q4) <> KW_ELSE ->
    let inner := IfAST (Some c2) (Some s1) (Some s2) in
    let outer := IfAST (Some c1) (Some (StmtAST (Some inner))) None in
    Returns if_else (next q1) (Some inner) q4 /\
    Returns if_else p (Some outer) q4 /\
    Returns statement p (Some (StmtAST (Some outer))) q4 /\
    ~ Returns if_else p
        (Some (IfAST (Some c1)
           (Some (StmtAST (Some (IfAST (Some c2) (Some s1) None))))
           (Some s2))) q4.
Proof.
  intros p c1 q1 c2 q2 s1 q3 s2 q4 Ki L1 C1 R1 Ki' L2 C2 R2 S1 E S2 NE
         inner outer.
  assert (Hin : Returns if_else (next q1) (Some inner) q4).
  { exact (if_else_then_else _ L2 C2 R2 S1 E S2). }
  assert (Hout : Returns if_else p (Some outer) q4).
  { exact (if_else_then _ L1 C1 R1 (statement_if Ki' Hin) NE). }
  repeat split; try assumption.
  - exact (statement_if Ki Hout).
  - intro Hbad; destruct (Returns_unique Hout Hbad) as [Heq _].
    discriminate Heq.
Qed.

(** C7: the dimensions of an array parameter.  A parameter [int name [ ]]
    followed by [k] bracketed dimension expressions gives, in
    [Parser::program] and in [Parser::function_def] alike, an [IdAST] of array
    kind, not const, whose dimension list is the literal node [Num 0] followed
    by the [k] parsed expressions in their order: [k + 1] entries.  This node
    is what the parameter list pushes. *)
Theorem C7_array_parameter_dimensions :
  forall (c : Caller) (p : Parser) ds p',
    tag (token p) = KW_INT ->
    tag (token (next p)) = ID ->
    tag (token (next (next p))) = LBRACKET ->
    tag (token (next (next (next p)))) = RBRACKET ->
    bracketed (next (next (next (next p)))) ds p' ->
    let dim := Some (NumAST 0) :: ds in
    let arg := Some (IdAST (name (token (next p))) array_t false dim) in
    Returns (fun n => param n c) p arg p' /\
    List.length dim = List.length ds + 1 /\
    hd_error dim = Some (Some (NumAST 0)) /\
    tl dim = ds /\
    (forall args, tag (token p') <> COMMA ->
       Returns (fun n => param_list n c args) p (args ++ [arg]) p').
Proof.
  intros c p ds p' Hint Hid Hopen Hclose Hds dim arg.
  assert (Harg := param_array c _ Hint Hid Hopen Hclose Hds).
  split; [exact Harg|].
  split; [unfold dim; simpl; rewrite Nat.add_1_r; reflexivity|].
  split; [reflexivity|].
  split; [reflexivity|].
  intros args Hc; exact (param_list_last args Harg Hc).
Qed.

(** C8, amended: a failure site passes a positive status to [exit], and the
    status tells the site, except for the statuses 106, 107, 108, 116 to 119,
    451 to 454, 456 and 993 to 999: each of these is the status of more than
    one site.  The low eight bits of the status, which are what the parent
    process sees, tell as much as the status. *)
Theorem C8_statuses_distinct_outside_shared :
  forall s1 s2 : Site,
    (status s1 mod 256 = status s2 mod 256)%Z ->
    (0 < status s1)%Z /\
    status s1 = status s2 /\
    (s1 = s2 \/
     (In (status s1) shared_statuses /\
      exists s3 s4, s3 <> s4 /\ status s3 = status s1
                    /\ status s4 = status s1)).
Proof.
  intros s1 s2 H; split; [destruct s1; reflexivity|].
  assert (H' : status s1 = status s2).
  { destruct s1, s2; try reflexivity; discriminate H. }
  clear H; rename H' into H; split; [exact H|].
  destruct s1, s2; try discriminate H;
    first [ left; reflexivity
          | right; split;
            [ simpl; tauto
            | eexists; eexists; split; [|split; [reflexivity|exact (eq_sym H)]];
              discriminate ] ].
Qed.

(** C10 (what the code does): the expression of an expression statement, the
    right-hand side of an assignment and the value of a 'return' are parsed by
    the additive tier, so an operator of the four tiers above it that follows
    such an expression is fatal: the terminator is missing.  The conditions of
    'if' and 'while' are parsed by the logical-or tier, which folds '>', '>=',
    '<=', '==', '!=', '&&' and '||'.  It does not fold '<': there the ')' is
    missing. *)
Theorem C10_statements_stop_at_additive_tier :
  (forall (p : Parser) e p1,
     statement_keyword (tag (token p)) = false ->
     Returns binary_add p (Some e) p1 ->
     In (tag (token p1)) above_additive ->
     Exits statement p
       (if is_LValAST (Some e) then L418_exit114 else L423_exit115)) /\
  (forall (p : Parser) e p1 r p2,
     statement_keyword (tag (token p)) = false ->
     Returns binary_add p (Some e) p1 ->
     is_LValAST (Some e) = true -> tag (token p1) = ASSIGN ->
     Returns binary_add (next p1) (Some r) p2 ->
     In (tag (token p2)) above_additive ->
     Exits statement p L409_exit113) /\
  (forall (p : Parser) command e p1,
     control_of_tag (tag (token p)) = Some command ->
     tag (token (next p)) <> SEMICON ->
     Returns binary_add (next p) (Some e) p1 ->
     In (tag (token p1)) above_additive ->
     Exits statement p L388_exit110) /\
  (forall (p : Parser) a p1 b p2 s q,
     tag (token (next p)) = LPAREN ->
     Returns binary_add (next (next p)) (Some a) p1 ->
     In (tag (token p1)) [GT; GE; LE; EQU; NEQU; AND; OR] ->
     Returns binary_add (next p1) (Some b) p2 ->
     tag (token p2) = RPAREN ->
     Returns statement (next p2) (Some s) q ->
     let condition :=
       Some (BinaryAST (tag_to_op (tag (token p1))) (Some a) (Some b)) in
     Returns while_loop p (Some (WhileAST condition (Some s))) q /\
     (tag (token q) <> KW_ELSE ->
      Returns if_else p (Some (IfAST condition (Some s) None)) q)) /\
  (forall (p : Parser) a p1,
     tag (token (next p)) = LPAREN ->
     Returns binary_add (next (next p)) (Some a) p1 ->
     tag (token p1) = LT ->
     Exits if_else p L443_exit118 /\ Exits while_loop p L474_exit118).
Proof.
  split.
  { intros p e p1 Hk He Hop.
    destruct (above_additive_no_end Hop) as (Hs & Ha & _).
    destruct (is_LValAST (Some e)) eqn:HL.
    - exact (statement_lval_open Hk He HL Ha Hs).
    - exact (statement_expression_open Hk He HL Hs). }
  split.
  { intros p e p1 r p2 Hk He HL Ha Hr Hop.
    destruct (above_additive_no_end Hop) as (Hs & _ & _).
    exact (statement_assign_open Hk He HL Ha Hr Hs). }
  split.
  { intros p command e p1 Hc Hn He Hop.
    destruct (above_additive_no_end Hop) as (Hs & _ & _).
    exact (proj2 (statement_control_expression _ Hc Hn He) Hs). }
  split.
  { intros p a p1 b p2 s q Hl Ha Hop Hb Hr Hs condition.
    assert (Hc : Returns binary_or (next (next p)) condition p2).
    { apply (or_tier_pair Ha Hop Hb); rewrite Hr; reflexivity. }
    split.
    - exact (while_loop_body _ Hl Hc Hr Hs).
    - intro He; exact (if_else_then _ Hl Hc Hr Hs He). }
  intros p a p1 Hl Ha Hlt.
  assert (Hor : Returns binary_or (next (next p)) (Some a) p1).
  { apply (add_to_or Ha); rewrite Hlt; reflexivity. }
  assert (Hr : tag (token p1) <> RPAREN) by (rewrite Hlt; discriminate).
  split.
  - exact (if_else_open _ Hl Hor Hr).
  - exact (while_loop_open _ Hl Hor Hr).
Qed.

End Claims.

(* ================================================================== *)
(** * Runs on token lists *)

(** The claims above at inputs cut into tokens, on the lexer [ListLexer]. *)

Lemma fails_at_run (ts : list Token) (site : Site) n :
  parsing n (lexer_of ts) = Exit site -> fails_at ts site.
Proof.
  intro H; exists n; intros m Hm.
  exact (le_res_exit (parsing_le (lexer_of ts) Hm) H).
Qed.

Lemma parses_to_run (ts : list Token) (a : ASTPtr) n p :
  parsing n (lexer_of ts) = Ok a p -> parses_to ts a.
Proof.
  intro H; exists n; intros m Hm; exists p.
  exact (parsing_steady _ Hm H).
Qed.

Lemma bracketed_end (p p' : @Parser ListLexer) :
  tag (token p) <> LBRACKET -> p = p' -> bracketed p [] p'.
Proof. intros H <-; apply bracketed_stop, H. Qed.

(** C9: the block builder does not test for the opening brace.  Whatever the
    current token is when [block] is entered, it is consumed and the result
    is the same.  So the tokens [int f ( ) ; }], in which ';' stands where the
    body should open, parse to the function [f] with an empty body, as
    [int f ( ) { }] does, and in [void g ( ) 5 x ; }] the number is taken for
    the brace and the statement [x;] is the body. *)
Theorem C9_block_does_not_check_the_opening_brace :
  (forall (Lexer : Type) (source : TokenSource Lexer) n (lx : Lexer)
          (t t' : Token),
     block n (mkParser lx t) = block n (mkParser lx t')) /\
  parses_to [T KW_INT; TId "f"; T LPAREN; T RPAREN; T SEMICON; T RBRACE]
    (Some (CompUnitAST
       [Some (FuncDefAST int_t "f" [] (Some (BlockAST [])))])) /\
  parses_to [T KW_INT; TId "f"; T LPAREN; T RPAREN; T LBRACE; T RBRACE]
    (Some (CompUnitAST
       [Some (FuncDefAST int_t "f" [] (Some (BlockAST [])))])) /\
  parses_to [T KW_VOID; TId "g"; T LPAREN; T RPAREN; TNum 5; TId "x";
             T SEMICON; T RBRACE]
    (Some (CompUnitAST
       [Some (FuncDefAST void_t "g" []
          (Some (BlockAST [Some (StmtAST (Some (LValAST "x" var_t [])))])))])).
Proof.
  split; [intros; apply block_ignores_token|].
  repeat split; eapply parses_to_run with (n := 10); reflexivity.
Qed.

(** C8 as stated fails: a missing '(' after 'if' (line 435) and a missing '('
    after 'while' (line 466) are two failure sites, both reached, and both
    exit with status 116. *)
Lemma C8_counterexample :
  ~ (forall ts1 ts2 s1 s2,
       fails_at ts1 s1 -> fails_at ts2 s2 ->
       s1 <> s2 -> status s1 <> status s2).
Proof.
  intro H.
  apply (H [T KW_VOID; TId "f"; T LPAREN; T RPAREN; T LBRACE;
            T KW_IF; T SEMICON; T RBRACE]
           [T KW_VOID; TId "f"; T LPAREN; T RPAREN; T LBRACE;
            T KW_WHILE; T SEMICON; T RBRACE]
           L435_exit116 L466_exit116).
  - apply fails_at_run with (n := 10); reflexivity.
  - apply fails_at_run with (n := 10); reflexivity.
  - discriminate.
  - reflexivity.
Qed.

Lemma C2_witness :
  let p := start [TNum 1; T ADD; TNum 2; T MUL; TNum 3; T SEMICON] in
  let p' := next (next (next (next (next p)))) in
  feeds p [TNum 1; T ADD; TNum 2; T MUL; TNum 3] p' /\
  find_op [add_op; sub_op; mul_op; div_op; mod_op]
          (tag_to_op (tag (token p'))) = false /\
  Returns binary_add p
    (Some (BinaryAST add_op (Some (NumAST 1))
       (Some (BinaryAST mul_op (Some (NumAST 2)) (Some (NumAST 3))))))
    p'.
Proof.
  cbv zeta.
  assert (F : feeds (start [TNum 1; T ADD; TNum 2; T MUL; TNum 3; T SEMICON])
                [TNum 1; T ADD; TNum 2; T MUL; TNum 3]
                (next (next (next (next (next
                   (start [TNum 1; T ADD; TNum 2; T MUL; TNum 3;
                           T SEMICON]))))))).
  { vm_compute; repeat split; auto. }
  split; [exact F|]. split; [reflexivity|].
  apply (proj2 (proj2 (proj2 (proj2 (proj2
           C2_mul_binds_tighter_than_add))))).
  - exact F.
  - reflexivity.
Defined.

Lemma C3_witness :
  let p := start [TNum 1; T SUB; TNum 2; T SUB; TNum 3; T SEMICON] in
  let p' := next (next (next (next (next p)))) in
  feeds p [TNum 1; T SUB; TNum 2; T SUB; TNum 3] p' /\
  find_op [add_op; sub_op; mul_op; div_op; mod_op]
          (tag_to_op (tag (token p'))) = false /\
  Returns binary_add p
    (Some (BinaryAST sub_op
       (Some (BinaryAST sub_op (Some (NumAST 1)) (Some (NumAST 2))))
       (Some (NumAST 3))))
    p'.
Proof.
  cbv zeta.
  assert (F : feeds (start [TNum 1; T SUB; TNum 2; T SUB; TNum 3; T SEMICON])
                [TNum 1; T SUB; TNum 2; T SUB; TNum 3]
                (next (next (next (next (next
                   (start [TNum 1; T SUB; TNum 2; T SUB; TNum 3;
                           T SEMICON]))))))).
  { vm_compute; repeat split; auto. }
  split; [exact F|]. split; [reflexivity|].
  apply (proj2 (proj2 (proj2 (proj2 (proj2 C3_binary_folds_left))))).
  - exact F.
  - reflexivity.
Defined.

(** A rule that returns at fuel 12 returns. *)
Ltac ran steady_rule :=
  apply steady_returns with (n := 12); [apply steady_rule | reflexivity].

Lemma C1_witness :
  let p := start [T KW_IF; T LPAREN; TId "a"; T LT; TId "b"; T RPAREN;
                  T SEMICON] in
  let p1 := next (next (next p)) in
  tag (token (next p)) = LPAREN /\
  Returns binary_add (next (next p)) (Some (LValAST "a" var_t [])) p1 /\
  tag (token p1) = LT /\
  Exits statement p L443_exit118.
Proof.
  cbv zeta.
  assert (Ha : Returns binary_add
                 (next (next (start [T KW_IF; T LPAREN; TId "a"; T LT;
                                     TId "b"; T RPAREN; T SEMICON])))
                 (Some (LValAST "a" var_t []))
                 (next (next (next (start [T KW_IF; T LPAREN; TId "a"; T LT;
                                           TId "b"; T RPAREN; T SEMICON]))))).
  { ran (@binary_add_steady ListLexer _). }
  repeat split; try exact Ha.
  apply (proj2 (proj2 (proj2 (@C1_relational_tier_omits_lt ListLexer ListLexer_source)))
           (start [T KW_IF; T LPAREN; TId "a"; T LT; TId "b"; T RPAREN;
                   T SEMICON]) _ _
           (eq_refl LPAREN) Ha (eq_refl LT)).
  reflexivity.
Defined.

Lemma C4_witness :
  let p := start [TId "a"; T ASSIGN; TNum 1; T SEMICON] in
  let p1 := next p in
  let p2 := next (next p1) in
  statement_keyword (tag (token p)) = false /\
  Returns binary_add p (Some (LValAST "a" var_t [])) p1 /\
  tag (token p1) = ASSIGN /\
  Returns binary_add (next p1) (Some (NumAST 1)) p2 /\
  tag (token p2) = SEMICON /\
  Returns statement p
    (Some (StmtAST (Some
       (AssignAST (Some (LValAST "a" var_t [])) (Some (NumAST 1))))))
    (next p2).
Proof.
  cbv zeta.
  assert (He : Returns binary_add
                 (start [TId "a"; T ASSIGN; TNum 1; T SEMICON])
                 (Some (LValAST "a" var_t []))
                 (next (start [TId "a"; T ASSIGN; TNum 1; T SEMICON]))).
  { ran (@binary_add_steady ListLexer _). }
  assert (Hr : Returns binary_add
                 (next (next (start [TId "a"; T ASSIGN; TNum 1; T SEMICON])))
                 (Some (NumAST 1))
                 (next (next (next
                    (start [TId "a"; T ASSIGN; TNum 1; T SEMICON]))))).
  { ran (@binary_add_steady ListLexer _). }
  repeat split; try assumption.
  exact (proj1 (proj1 (proj2 (@C4_assignment_or_expression_statement ListLexer ListLexer_source))
                  (start [TId "a"; T ASSIGN; TNum 1; T SEMICON]) _ _ _ _
                  (eq_refl false) He (eq_refl true)
                  (eq_refl ASSIGN) Hr) (eq_refl SEMICON)).
Defined.

Lemma C5_witness :
  let p := start [T KW_BREAK; TNum 1; T SEMICON] in
  let p1 := next (next p) in
  control_of_tag (tag (token p)) = Some break_c /\
  tag (token (next p)) <> SEMICON /\
  Returns binary_add (next p) (Some (NumAST 1)) p1 /\
  tag (token p1) = SEMICON /\
  Returns statement p
    (Some (StmtAST (Some (ControlAST return_c (Some (NumAST 1)))))) (next p1).
Proof.
  cbv zeta.
  assert (Hn : tag (token (next (start [T KW_BREAK; TNum 1; T SEMICON])))
               <> SEMICON) by discriminate.
  assert (He : Returns binary_add
                 (next (start [T KW_BREAK; TNum 1; T SEMICON]))
                 (Some (NumAST 1))
                 (next (next (start [T KW_BREAK; TNum 1; T SEMICON])))).
  { ran (@binary_add_steady ListLexer _). }
  repeat split; try assumption.
  exact (proj1 (proj2 (@C5_control_with_expression_is_return ListLexer ListLexer_source))
           (start [T KW_BREAK; TNum 1; T SEMICON]) break_c _ _
           (eq_refl (Some break_c)) Hn He (eq_refl SEMICON)).
Defined.

Lemma C6_witness :
  let p := start [T KW_IF; T LPAREN; TId "a"; T RPAREN;
                  T KW_IF; T LPAREN; TId "b"; T RPAREN;
                  TId "x"; T SEMICON; T KW_ELSE; TId "y"; T SEMICON] in
  let q1 := next (next (next p)) in
  let q2 := next (next (next (next q1))) in
  let q3 := next (next (next q2)) in
  let q4 := next (next (next q3)) in
  Returns binary_or (next (next p)) (Some (LValAST "a" var_t [])) q1 /\
  Returns binary_or (next (next (next q1))) (Some (LValAST "b" var_t [])) q2 /\
  Returns statement (next q2)
    (Some (StmtAST (Some (LValAST "x" var_t [])))) q3 /\
  Returns statement (next q3)
    (Some (StmtAST (Some (LValAST "y" var_t [])))) q4 /\
  tag (token q4) <> KW_ELSE /\
  Returns statement p
    (Some (StmtAST (Some
       (IfAST (Some (LValAST "a" var_t []))
          (Some (StmtAST (Some
             (IfAST (Some (LValAST "b" var_t []))
                (Some (StmtAST (Some (LValAST "x" var_t []))))
                (Some (StmtAST (Some (LValAST "y" var_t []))))))))
          None))))
    q4.
Proof.
  set (p := start [T KW_IF; T LPAREN; TId "a"; T RPAREN;
                   T KW_IF; T LPAREN; TId "b"; T RPAREN;
                   TId "x"; T SEMICON; T KW_ELSE; TId "y"; T SEMICON]).
  cbv zeta.
  set (q1 := next (next (next p))).
  set (q2 := next (next (next (next q1)))).
  set (q3 := next (next (next q2))).
  set (q4 := next (next (next q3))).
  assert (C1 : Returns binary_or (next (next p))
                 (Some (LValAST "a" var_t [])) q1).
  { ran (@binary_or_steady ListLexer _). }
  assert (C2 : Returns binary_or (next (next (next q1)))
                 (Some (LValAST "b" var_t [])) q2).
  { ran (@binary_or_steady ListLexer _). }
  assert (S1 : Returns statement (next q2)
                 (Some (StmtAST (Some (LValAST "x" var_t [])))) q3).
  { ran (@statement_steady ListLexer _). }
  assert (S2 : Returns statement (next q3)
                 (Some (StmtAST (Some (LValAST "y" var_t [])))) q4).
  { ran (@statement_steady ListLexer _). }
  assert (NE : tag (token q4) <> KW_ELSE) by discriminate.
  repeat split; try assumption.
  exact (proj1 (proj2 (proj2
           (@C6_else_binds_to_innermost_if ListLexer ListLexer_source
              p _ q1 _ q2 _ q3 _ q4
              (eq_refl KW_IF) (eq_refl LPAREN) C1 (eq_refl RPAREN)
              (eq_refl KW_IF) (eq_refl LPAREN) C2 (eq_refl RPAREN)
              S1 (eq_refl KW_ELSE) S2 NE)))).
Defined.

Lemma C7_witness :
  let p := start [T KW_INT; TId "a"; T LBRACKET; T RBRACKET;
                  T LBRACKET; TNum 3; T RBRACKET;
                  T LBRACKET; TNum 4; T RBRACKET; T RPAREN] in
  let q := next (next (next (next p))) in
  let p' := next (next (next (next (next (next q))))) in
  bracketed q [Some (NumAST 3); Some (NumAST 4)] p' /\
  Returns (fun n => param n in_function_def) p
    (Some (IdAST "a" array_t false
             [Some (NumAST 0); Some (NumAST 3); Some (NumAST 4)])) p' /\
  parses_to [T KW_VOID; TId "f"; T LPAREN;
             T KW_INT; TId "a"; T LBRACKET; T RBRACKET;
             T LBRACKET; TNum 3; T RBRACKET; T LBRACKET; TNum 4; T RBRACKET;
             T RPAREN; T LBRACE; T RBRACE]
    (Some (CompUnitAST
       [Some (FuncDefAST void_t "f"
          [Some (IdAST "a" array_t false
                   [Some (NumAST 0); Some (NumAST 3); Some (NumAST 4)])]
          (Some (BlockAST [])))])) /\
  parses_to [T KW_INT; TId "f"; T LPAREN;
             T KW_INT; TId "a"; T LBRACKET; T RBRACKET;
             T LBRACKET; TNum 3; T RBRACKET; T LBRACKET; TNum 4; T RBRACKET;
             T RPAREN; T LBRACE; T RBRACE]
    (Some (CompUnitAST
       [Some (FuncDefAST int_t "f"
          [Some (IdAST "a" array_t false
                   [Some (NumAST 0); Some (NumAST 3); Some (NumAST 4)])]
          (Some (BlockAST [])))])).
Proof.
  set (p := start [T KW_INT; TId "a"; T LBRACKET; T RBRACKET;
                   T LBRACKET; TNum 3; T RBRACKET;
                   T LBRACKET; TNum 4; T RBRACKET; T RPAREN]).
  cbv zeta.
  set (q := next (next (next (next p)))).
  set (p' := next (next (next (next (next (next q)))))).
  assert (B : bracketed q [Some (NumAST 3); Some (NumAST 4)] p').
  { apply bracketed_more with (p1 := next (next q)).
    - reflexivity.
    - ran (@binary_add_steady ListLexer _).
    - reflexivity.
    - apply bracketed_more with (p1 := next (next (next (next (next q))))).
      + reflexivity.
      + ran (@binary_add_steady ListLexer _).
      + reflexivity.
      + apply bracketed_end; [discriminate | reflexivity]. }
  split; [exact B|].
  split.
  - exact (proj1 (@C7_array_parameter_dimensions ListLexer ListLexer_source
                    in_function_def p _ p'
                    (eq_refl KW_INT) (eq_refl ID) (eq_refl LBRACKET)
                    (eq_refl RBRACKET) B)).
  - split; eapply parses_to_run with (n := 12); reflexivity.
Defined.

Lemma C8_witness :
  (status L435_exit116 mod 256 = status L466_exit116 mod 256)%Z /\
  L435_exit116 <> L466_exit116 /\
  In (status L435_exit116) shared_statuses.
Proof.
  split; [reflexivity|]. split; [discriminate|].
  destruct (proj2 (proj2 (C8_statuses_distinct_outside_shared
                     L435_exit116 L466_exit116 eq_refl))) as [H | [H _]].
  - discriminate H.
  - exact H.
Defined.

Lemma C10_witness :
  let p := start [T KW_WHILE; T LPAREN; TId "a"; T EQU; TId "b"; T RPAREN;
                  T SEMICON] in
  let p1 := next (next (next p)) in
  let p2 := next (next p1) in
  let r := start [TId "a"; T EQU; TId "b"; T SEMICON] in
  Returns binary_add (next (next p)) (Some (LValAST "a" var_t [])) p1 /\
  Returns binary_add (next p1) (Some (LValAST "b" var_t [])) p2 /\
  Returns statement (next p2) (Some (StmtAST (Some EmptyAST))) (next (next p2))
  /\
  Returns while_loop p
    (Some (WhileAST
       (Some (BinaryAST equ_op (Some (LValAST "a" var_t []))
                (Some (LValAST "b" var_t []))))
       (Some (StmtAST (Some EmptyAST))))) (next (next p2)) /\
  Returns binary_add r (Some (LValAST "a" var_t [])) (next r) /\
  In (tag (token (next r))) above_additive /\
  Exits statement r L418_exit114.
Proof.
  set (p := start [T KW_WHILE; T LPAREN; TId "a"; T EQU; TId "b"; T RPAREN;
                   T SEMICON]).
  set (r := start [TId "a"; T EQU; TId "b"; T SEMICON]).
  cbv zeta.
  set (p1 := next (next (next p))).
  set (p2 := next (next p1)).
  assert (A : Returns binary_add (next (next p))
                (Some (LValAST "a" var_t [])) p1).
  { ran (@binary_add_steady ListLexer _). }
  assert (B : Returns binary_add (next p1)
                (Some (LValAST "b" var_t [])) p2).
  { ran (@binary_add_steady ListLexer _). }
  assert (S : Returns statement (next p2)
                (Some (StmtAST (Some EmptyAST))) (next (next p2))).
  { ran (@statement_steady ListLexer _). }
  assert (E : Returns binary_add r (Some (LValAST "a" var_t [])) (next r)).
  { ran (@binary_add_steady ListLexer _). }
  assert (O : In (tag (token (next r))) above_additive).
  { right; right; right; right; left; reflexivity. }
  repeat split; try assumption.
  - exact (proj1 (proj1 (proj2 (proj2 (proj2
             (@C10_statements_stop_at_additive_tier ListLexer
                ListLexer_source))))
             p _ p1 _ p2 _ _ (eq_refl LPAREN) A
             (or_intror (or_intror (or_intror (or_introl eq_refl))))
             B (eq_refl RPAREN) S)).
  - exact (proj1 (@C10_statements_stop_at_additive_tier ListLexer
                    ListLexer_source)
             r _ _ (eq_refl false) E O).
Defined.

(* ================================================================== *)
(** * What every rule returns *)

Section Shapes.

Context {Lexer : Type} {source : TokenSource Lexer}.

Local Abbreviation Parser := (@Parser Lexer).
Local Abbreviation Result := (@Result Lexer).
Local Abbreviation Rule := (@Rule Lexer).

Lemma after_bind {A B : Type} (Q : A -> Prop) (R : B -> Prop)
  (r : Result A) (k : A -> Parser -> Result B) :
  after Q r -> (forall a p, Q a -> after R (k a p)) -> after R (bind r k).
Proof. destruct r; simpl; auto. Qed.

Lemma after_weaken {A : Type} (Q R : A -> Prop) (r : Result A) :
  after Q r -> (forall a, Q a -> R a) -> after R r.
Proof. destruct r; simpl; auto. Qed.

Lemma find_op_wired ops op :
  forallb wired_binary ops = true -> find_op ops op = true ->
  wired_binary op = true.
Proof.
  intros Hall Hin; unfold find_op in Hin.
  apply existsb_exists in Hin; destruct Hin as (o & Ho & Heq).
  apply internal_Operator_dec_bl in Heq; subst o.
  rewrite forallb_forall in Hall; exact (Hall _ Ho).
Qed.

Lemma extends_refl P acc : extends P acc acc.
Proof. exists []; rewrite app_nil_r; split; reflexivity. Qed.

Lemma extends_push P acc l a :
  P a = true -> extends P (push_back acc a) l -> extends P acc l.
Proof.
  intros Ha (more & -> & Hm); exists (a :: more); split.
  - unfold push_back; rewrite <- app_assoc; reflexivity.
  - simpl; rewrite Ha, Hm; reflexivity.
Qed.

Lemma extends_from_nil P l : extends P [] l -> forallb P l = true.
Proof. intros (more & -> & Hm); exact Hm. Qed.

Lemma forallb_push (P : ASTPtr -> bool) l a :
  forallb P l = true -> P a = true -> forallb P (push_back l a) = true.
Proof.
  intros Hl Ha; unfold push_back; rewrite forallb_app, Hl; simpl.
  rewrite Ha; reflexivity.
Qed.

Create HintDb shapes.

(** A step of a proof by the shape of the rule. *)
Ltac after_step :=
  match goal with
  | H : _ None |- _ => discriminate H
  | |- after _ (bind ?r _) =>
    eapply after_bind;
    [ first [ solve [eauto with shapes]
            | match goal with |- ?g => change (id g) end ]
    | intros ? ? ?; cbv beta in * ]
  | |- after _ (if ?c then _ else _) => destruct c eqn:?
  | |- after _ (match ?a with Some _ => _ | None => _ end) =>
    destruct a eqn:?
  | |- True => exact I
  | |- after _ (Exit _) => reflexivity
  | |- after _ Timeout => exact I
  | H : forall p, after _ (?f p) |- after _ (?f _) => apply H
  end.

Ltac after_steps := repeat after_step.

Lemma binary_loop_after n (parser : Rule) ops :
  (forall p, after is_exp (parser p)) ->
  forallb wired_binary ops = true ->
  forall lhs p, is_exp lhs -> after is_exp (binary_loop n parser ops lhs p).
Proof.
  intros Hp Hops; induction n as [|n IH]; intros lhs p Hl; simpl;
    after_steps; try exact Hl.
  apply IH; unfold is_exp in *; simpl.
  rewrite (find_op_wired _ _ Hops Heqb).
  destruct lhs; [simpl in Hl; rewrite Hl; exact H | discriminate Hl].
Qed.

Lemma binary_after n (parser : Rule) ops :
  (forall p, after is_exp (parser p)) ->
  forallb wired_binary ops = true ->
  forall p, after is_exp (binary n parser ops p).
Proof.
  intros Hp Hops p; unfold binary; after_steps.
  apply binary_loop_after; assumption.
Qed.

Lemma call_params_after n (f : Rule) :
  (forall p, after is_exp (f p)) ->
  forall params p,
    after (extends (node exp_ok) params) (call_params n f params p).
Proof.
  intros Hf; induction n as [|n IH]; intros params p; simpl; after_steps.
  - simpl; eapply extends_push; [eassumption | apply extends_refl].
  - eapply after_weaken; [apply IH|].
    intros l; apply extends_push; assumption.
Qed.

Lemma lval_position_after n (f : Rule) :
  (forall p, after is_exp (f p)) ->
  forall position p,
    after (fun l => extends (node exp_ok) position l /\
                    (match_token p LBRACKET = true -> l <> []))
          (lval_position n f position p).
Proof.
  intros Hf; induction n as [|n IH]; intros position p; simpl; after_steps;
    try (simpl; split; [apply extends_refl | discriminate]).
  eapply after_weaken; [apply IH|].
  intros l [He _]; split.
  - eapply extends_push; eassumption.
  - intros _ ->; destruct He as (more & Hm & _).
    unfold push_back in Hm; destruct position; discriminate Hm.
Qed.

#[local] Hint Resolve binary_after call_params_after lval_position_after
  : shapes.

Lemma expr_after n :
  (forall p, after is_exp (unary n p)) /\
  (forall p, after is_exp (binary_add n p)) /\
  (forall p, after is_exp (binary_mul n p)).
Proof.
  induction n as [|n (Hu & Ha & Hm)];
    [repeat split; intro p; exact I|].
  repeat split; intro p; simpl.
  - after_steps; simpl; try assumption; try reflexivity.
    + match goal with H : extends _ [] _ |- _ =>
        exact (extends_from_nil H) end.
    + cbv beta in *.
      match goal with
      | H : _ /\ _, E : match_token _ LBRACKET = true |- _ =>
        destruct H as [Hl Hne]; specialize (Hne E);
        apply extends_from_nil in Hl
      end.
      match goal with |- context [LValAST _ _ ?l] => destruct l end;
        [contradiction | exact Hl].
  - apply binary_after; [exact Hm | reflexivity].
  - apply binary_after; [exact Hu | reflexivity].
Qed.

Lemma unary_after n p : after is_exp (unary n p).
Proof. apply expr_after. Qed.

Lemma binary_add_after n p : after is_exp (binary_add n p).
Proof. apply expr_after. Qed.

Lemma binary_or_after n p : after is_exp (binary_or n p).
Proof.
  revert p; repeat (apply binary_after; [|reflexivity]); apply binary_add_after.
Qed.

#[local] Hint Resolve unary_after binary_add_after binary_or_after : shapes.

Lemma init_list_after n (f : Rule) :
  (forall p, after is_init (f p)) ->
  forall inits p,
    after (extends (node init_ok) inits) (init_list n f inits p).
Proof.
  intros Hf; induction n as [|n IH]; intros inits p; simpl; after_steps.
  - simpl; eapply extends_push; [eassumption | apply extends_refl].
  - eapply after_weaken; [apply IH|].
    intros l; apply extends_push; assumption.
Qed.

#[local] Hint Resolve init_list_after : shapes.

Lemma init_val_after n : forall p, after is_init (init_val n p).
Proof.
  induction n as [|n IH]; intro p; simpl; after_steps; simpl;
    try reflexivity.
  - match goal with H : extends _ [] _ |- _ =>
      exact (extends_from_nil H) end.
  - assumption.
Qed.

#[local] Hint Resolve init_val_after : shapes.

Lemma bracket_dims_after n (f : Rule) null open :
  (forall p, after is_exp (f p)) -> dead open = false ->
  forall dims p,
    after (extends (node exp_ok) dims)
          (bracket_dims n f null open dims p).
Proof.
  intros Hf Hopen; induction n as [|n IH]; intros dims p; simpl;
    after_steps; try (simpl; apply extends_refl); try exact Hopen.
  eapply after_weaken; [apply IH|].
  intros l; apply extends_push; assumption.
Qed.

#[local] Hint Resolve bracket_dims_after : shapes.

Lemma id_of_dims_ok id_name c dims :
  forallb (node exp_ok) dims = true ->
  node (id_ok c) (id_of_dims id_name c dims) = true.
Proof.
  intro H; destruct dims; simpl; rewrite eqb_reflx; [reflexivity | exact H].
Qed.

Lemma var_def_after n c p : after (is_def c) (var_def n c p).
Proof.
  unfold var_def; after_steps; try reflexivity.
  - cbv beta in *; unfold is_def, is_init in *; simpl.
    match goal with H : extends _ [] _ |- _ =>
      apply extends_from_nil in H;
      pose proof (@id_of_dims_ok (name (token p)) c _ H) as Hid end.
    destruct (id_of_dims _ _ _); [|discriminate Hid].
    simpl in *; rewrite eqb_reflx, Hid; assumption.
  - cbv beta in *; unfold is_def; simpl.
    match goal with H : extends _ [] _ |- _ =>
      apply extends_from_nil in H;
      pose proof (@id_of_dims_ok (name (token p)) false _ H) as Hid end.
    destruct (id_of_dims _ _ _); [|discriminate Hid].
    simpl in *; rewrite Hid; reflexivity.
Qed.

#[local] Hint Resolve var_def_after : shapes.

Lemma comma_defs_after n (f : Rule) c null :
  (forall p, after (is_def c) (f p)) ->
  forall vars p,
    after (extends (node (def_ok c)) vars) (comma_defs n f null vars p).
Proof.
  intros Hf; induction n as [|n IH]; intros vars p; simpl; after_steps;
    try (simpl; apply extends_refl).
  eapply after_weaken; [apply IH|].
  intros l; apply extends_push; assumption.
Qed.

#[local] Hint Resolve comma_defs_after : shapes.

Lemma decl_of_defs c (v : ASTPtr) l :
  node (def_ok c) v = true ->
  extends (node (def_ok c)) (push_back [] v) l ->
  is_decl (make_unique (VarDeclAST c l)).
Proof.
  intros Hv (more & -> & Hm); unfold is_decl; simpl.
  rewrite Hv, Hm; reflexivity.
Qed.

Lemma var_decl_after n p : after is_decl (var_decl n p).
Proof.
  unfold var_decl; cbv zeta; after_steps; try reflexivity.
  cbv beta in *; simpl; eapply decl_of_defs; eassumption.
Qed.

#[local] Hint Resolve var_decl_after : shapes.

Lemma exp_is_wrapped (x : AST) :
  exp_ok x = true -> stmt_ok (StmtAST (Some x)) = true.
Proof. destruct x; simpl; intro H; try discriminate H; exact H. Qed.

Lemma block_loop_after n (d s : Rule) :
  (forall p, after is_decl (d p)) -> (forall p, after is_stmt (s p)) ->
  forall stmts p,
    after (extends (node (fun i => stmt_ok i || decl_ok i)) stmts)
          (block_loop n d s stmts p).
Proof.
  intros Hd Hs; induction n as [|n IH]; intros stmts p; simpl; after_steps;
    try (simpl; apply extends_refl);
    (eapply after_weaken; [apply IH|]); intros l; apply extends_push;
    unfold is_decl, is_stmt in *; simpl in *;
    match goal with H : _ = true |- _ => rewrite H end;
    auto using orb_true_r.
Qed.

#[local] Hint Resolve block_loop_after : shapes.

Lemma wrap_block a : is_block a -> is_stmt (make_unique (StmtAST a)).
Proof.
  destruct a as [[]|]; unfold is_block, is_stmt; simpl; intro H;
    try discriminate H; exact H.
Qed.

Lemma wrap_wrapped a : is_wrapped a -> is_stmt (make_unique (StmtAST a)).
Proof. destruct a; unfold is_wrapped, is_stmt; simpl; auto. Qed.

Lemma wrap_exp a : is_exp a -> is_stmt (make_unique (StmtAST a)).
Proof.
  destruct a as [x|]; unfold is_exp, is_stmt; simpl;
    [apply exp_is_wrapped | auto].
Qed.

Lemma wrap_control_bare c :
  is_stmt (make_unique (StmtAST (make_unique (ControlAST c nullptr)))).
Proof. destruct c; reflexivity. Qed.

Lemma wrap_control_return e :
  is_exp e ->
  is_stmt (make_unique (StmtAST (make_unique (ControlAST return_c e)))).
Proof. destruct e; unfold is_exp, is_stmt; simpl; auto. Qed.

Lemma wrap_assign l r :
  is_exp l -> is_LValAST l = true -> is_exp r ->
  is_stmt (make_unique (StmtAST (make_unique (AssignAST l r)))).
Proof.
  destruct l as [l|], r as [r|]; unfold is_exp, is_stmt; simpl;
    intros Hl HL Hr; try discriminate.
  rewrite HL, Hl, Hr; reflexivity.
Qed.

Lemma wrapped_if c t e :
  is_exp c -> is_stmt t -> is_stmt e -> is_wrapped (make_unique (IfAST c t e)).
Proof.
  destruct c as [c|], t as [t|], e as [e|];
    unfold is_exp, is_stmt, is_wrapped; simpl; intros Hc Ht He;
    try discriminate.
  rewrite Hc, Ht, He; reflexivity.
Qed.

Lemma wrapped_if_no_else c t :
  is_exp c -> is_stmt t -> is_wrapped (make_unique (IfAST c t nullptr)).
Proof.
  destruct c as [c|], t as [t|];
    unfold is_exp, is_stmt, is_wrapped; simpl; intros Hc Ht;
    try discriminate.
  rewrite Hc, Ht; reflexivity.
Qed.

Lemma wrapped_while c s :
  is_exp c -> is_stmt s -> is_wrapped (make_unique (WhileAST c s)).
Proof.
  destruct c as [c|], s as [s|];
    unfold is_exp, is_stmt, is_wrapped; simpl; intros Hc Hs;
    try discriminate.
  rewrite Hc, Hs; reflexivity.
Qed.

Lemma block_of_items l :
  extends (node (fun i => stmt_ok i || decl_ok i)) [] l ->
  is_block (make_unique (BlockAST l)).
Proof. intro H; exact (extends_from_nil H). Qed.

#[local] Hint Resolve wrap_block wrap_wrapped wrap_exp wrap_control_bare
  wrap_control_return wrap_assign wrapped_if wrapped_if_no_else
  wrapped_while block_of_items : shapes.

Lemma stmt_after n :
  (forall p, after is_stmt (statement n p)) /\
  (forall p, after is_wrapped (if_else n p)) /\
  (forall p, after is_wrapped (while_loop n p)) /\
  (forall p, after is_block (block n p)).
Proof.
  induction n as [|n (Hs & Hi & Hw & Hb)];
    [repeat split; intro p; exact I|].
  repeat split; intro p; simpl; after_steps; try reflexivity;
    cbv beta in *; simpl after; subst; eauto with shapes.
  match goal with
  | E : control_of_tag (tag (token p)) = None, B : _ || _ || _ = true |- _ =>
    unfold match_token in B; destruct (tag (token p)); discriminate
  end.
Qed.

Lemma statement_after n p : after is_stmt (statement n p).
Proof. apply stmt_after. Qed.

Lemma block_after n p : after is_block (block n p).
Proof. apply stmt_after. Qed.

#[local] Hint Resolve statement_after block_after : shapes.

Lemma param_of_dims arg_name l :
  extends (node exp_ok) (push_back [] (make_unique (NumAST 0))) l ->
  is_param (make_unique (IdAST arg_name array_t false l)).
Proof. intros (more & -> & Hm); exact Hm. Qed.

Lemma param_after n c p : after is_param (param n c p).
Proof.
  unfold param; cbv zeta; after_steps; try reflexivity;
    try (destruct c; reflexivity).
  - apply bracket_dims_after; [apply binary_add_after|].
    destruct c; reflexivity.
  - cbv beta in *; simpl; apply param_of_dims; assumption.
Qed.

Lemma param_list_after n c :
  forall args p,
    after (extends (node param_ok) args) (param_list n c args p).
Proof.
  induction n as [|n IH]; intros args p; simpl; after_steps.
  - apply param_after.
  - simpl; eapply extends_push; [eassumption | apply extends_refl].
  - eapply after_weaken; [apply IH|].
    intros l; apply extends_push; assumption.
Qed.

Lemma params_upto_rparen_after n c p :
  after (fun l => forallb (node param_ok) l = true)
        (params_upto_rparen n c p).
Proof.
  unfold params_upto_rparen; after_steps; try reflexivity;
    try (destruct c; reflexivity).
  - apply param_list_after.
  - cbv beta in *; simpl; apply extends_from_nil; assumption.
Qed.

#[local] Hint Resolve params_upto_rparen_after : shapes.

Lemma unit_of_function type id_name args body :
  forallb (node param_ok) args = true -> is_block body ->
  is_unit (make_unique (FuncDefAST type id_name args body)).
Proof.
  destruct body as [b|]; unfold is_block, is_unit; simpl; intros Ha Hb;
    [rewrite Ha, Hb; reflexivity | discriminate].
Qed.

Lemma function_def_after n p :
  function_type p <> None -> after is_unit (function_def n p).
Proof.
  intro Ht; unfold function_def; cbv zeta; after_steps; try reflexivity.
  - cbv beta in *; simpl; apply unit_of_function; assumption.
  - contradiction.
Qed.

Lemma unit_of_decl a : is_decl a -> is_unit a.
Proof.
  destruct a as [[]|]; unfold is_decl, is_unit; simpl; intro H;
    try discriminate H; exact H.
Qed.

Lemma function_type_void (p : Parser) :
  match_token p KW_VOID = true -> function_type p <> None.
Proof. unfold function_type; intros ->; discriminate. Qed.

Lemma first_def_after n var (p : Parser) :
  node (id_ok false) var = true ->
  after (is_def false)
    (if match_token p ASSIGN
     then bind (init_val n (next p))
            (fun init q =>
               match init with
               | None => Exit L159_exit456
               | Some _ => Ok (make_unique (VarDefAST false var init)) q
               end)
     else Ok (make_unique (VarDefAST false var nullptr)) p).
Proof.
  intro Hv; after_steps; cbv beta in *; unfold is_def, is_init in *;
    destruct var as [v|]; try discriminate Hv; simpl in *.
  - rewrite Hv; assumption.
  - rewrite Hv; reflexivity.
Qed.

Lemma program_loop_after n :
  forall nodes p,
    forallb (node unit_ok) nodes = true ->
    after is_program (program_loop n nodes p).
Proof.
  induction n as [|n IH]; intros nodes p Hn; simpl; after_steps;
    try reflexivity; try exact Hn; cbv beta in *;
    try (apply IH; apply forallb_push; [exact Hn|]).
  - apply unit_of_decl; assumption.
  - unfold id; apply function_def_after, function_type_void; assumption.
  - assumption.
  - discriminate.
  - apply unit_of_function; assumption.
  - unfold id; apply first_def_after, id_of_dims_ok, extends_from_nil.
    assumption.
  - apply unit_of_decl; eapply decl_of_defs; eassumption.
Qed.

Lemma program_loop_done n :
  forall nodes (p : Parser) a p',
    program_loop n nodes p = Ok a p' -> is_done (lexer p') = true.
Proof.
  induction n as [|n IH]; intros nodes p a p'; simpl.
  - destruct (is_done (lexer p)) eqn:E; simpl; [|discriminate].
    intro H; inversion H; subst; exact E.
  - destruct (is_done (lexer p)) eqn:E; simpl;
      [intro H; inversion H; subst; exact E|].
    repeat match goal with
           | |- (if ?c then _ else _) = _ -> _ => destruct c
           | |- bind ?r _ = _ -> _ => destruct r; cbn [bind]
           | |- match ?a with Some _ => _ | None => _ end = _ -> _ =>
             destruct a
           | |- program_loop _ _ _ = _ -> _ => apply IH
           | |- _ = _ -> _ => discriminate
           end.
Qed.

Lemma parsing_after n (lex : Lexer) : after is_program (parsing n lex).
Proof.
  unfold parsing; destruct (lexing lex); apply program_loop_after; reflexivity.
Qed.

(** X1: no test for a null pointer ever fires.  Whatever the tokens are, the
    parser does not exit at one of the sites that test the result of a rule
    for null, nor at the two sites after branches that all return: every rule
    that returns, returns a node. *)
Theorem X1_null_checks_never_fire :
  forall n (lex : Lexer) site,
    parsing n lex = Exit site -> dead site = false.
Proof.
  intros n lex site H; pose proof (parsing_after n lex) as A.
  rewrite H in A; exact A.
Qed.

(** X2: no unassigned local is ever read.  The local [command] of
    [statement] is read only after 'break', 'continue' or 'return' assigned
    it, and [program] enters [function_def] on 'void' only, which assigns
    [type]. *)
Theorem X2_no_unassigned_local_is_read :
  forall n (lex : Lexer),
    parsing n lex <> Undefined /\
    forall p, statement n p <> Undefined /\ var_decl n p <> Undefined
              /\ binary_or n p <> Undefined.
Proof.
  intros n lex; split; [|intro p; repeat split]; intro H;
    [ pose proof (parsing_after n lex) as A
    | pose proof (statement_after n p) as A
    | pose proof (var_decl_after n p) as A
    | pose proof (binary_or_after n p) as A ];
    rewrite H in A; exact A.
Qed.

(** X3: the expressions the parser builds.  What the expression rules
    return is never null and is an expression: a binary node of one of the
    operators + - * / % > >= <= == != && || (never '<') over two
    expressions, a unary node of + - ! over an expression, a number, a call
    over expressions, or a left-value that is scalar without index or
    indexed with at least one index. *)
Theorem X3_expressions_are_well_formed :
  forall n (p : Parser) a p',
    (unary n p = Ok a p' -> is_exp a) /\
    (binary_add n p = Ok a p' -> is_exp a) /\
    (binary_or n p = Ok a p' -> is_exp a).
Proof.
  intros n p a p'; repeat split; intro H;
    [ pose proof (unary_after n p) as A
    | pose proof (binary_add_after n p) as A
    | pose proof (binary_or_after n p) as A ];
    rewrite H in A; exact A.
Qed.

(** X4: the declarations the parser builds.  A declaration holds at least
    one definition; each definition carries the const flag of the
    declaration, as does its identifier; the identifier is of array kind
    exactly when it has dimensions; the initializer of a scalar kind holds
    exactly one expression, the one of array kind holds initializers; and a
    const definition always has its initializer. *)
Theorem X4_declarations_are_well_formed :
  forall n (p : Parser) a p',
    (init_val n p = Ok a p' -> is_init a) /\
    (forall c, var_def n c p = Ok a p' -> is_def c a) /\
    (var_decl n p = Ok a p' -> is_decl a).
Proof.
  intros n p a p'; split; [|split]; [intro H | intros c H | intro H];
    [ pose proof (init_val_after n p) as A
    | pose proof (var_def_after n c p) as A
    | pose proof (var_decl_after n p) as A ];
    rewrite H in A; exact A.
Qed.

(** X5: the statements the parser builds.  [statement] returns a [StmtAST]
    over: nothing, a block of statements and declarations, a loop or a
    conditional whose branches are statements, a control node that carries an
    expression only when it is of kind return, an assignment whose target is
    a left-value, or an expression; [block] returns a block of such items. *)
Theorem X5_statements_are_well_formed :
  forall n (p : Parser) a p',
    (statement n p = Ok a p' -> is_stmt a) /\
    (block n p = Ok a p' -> is_block a).
Proof.
  intros n p a p'; split; intro H;
    [ pose proof (statement_after n p) as A
    | pose proof (block_after n p) as A ];
    rewrite H in A; exact A.
Qed.

(** X6: the tree of a program.  When [Parser::parsing] returns, the lexer is
    done and the tree is a [CompUnitAST] whose units are declarations and
    functions, in which every parameter is not const and is scalar or an
    array whose first dimension is the literal 0, and every body is a
    block. *)
Theorem X6_program_is_well_formed :
  forall n (lex : Lexer) a p,
    parsing n lex = Ok a p -> is_program a /\ is_done (lexer p) = true.
Proof.
  intros n lex a p H; split.
  - pose proof (parsing_after n lex) as A; rewrite H in A; exact A.
  - unfold parsing in H; destruct (lexing lex).
    exact (program_loop_done _ _ _ H).
Qed.

End Shapes.

Section RenderingIsSafe.

Variable type_to_string : Type_ -> string.
Variable vartype_to_string : VarType -> string.
Variable op_to_string : Operator -> string.

Local Abbreviation render :=
  (to_string type_to_string vartype_to_string op_to_string).

Lemma exp_renders : forall x, exp_ok x = true -> render x <> None.
Proof.
  fix IH 1; intros [ | | | | | | | | | op [l|] [r|] | op [e|] | | | | | | | ];
    simpl; try discriminate.
  - intro H; apply andb_prop in H; destruct H as [H Hr].
    apply andb_prop in H; destruct H as [_ Hl].
    specialize (IH l Hl) as Il; specialize (IH r Hr) as Ir.
    destruct (render l); [|contradiction].
    destruct (render r); [discriminate | contradiction].
  - intro H; apply andb_prop in H; destruct H as [_ He].
    specialize (IH e He) as Ie.
    destruct (render e); [discriminate | contradiction].
Qed.

Lemma render_lines_some (P : AST -> bool) units :
  (forall x, P x = true -> render x <> None) ->
  forallb (node P) units = true ->
  render_lines render units <> None.
Proof.
  intro HP; unfold render_lines.
  generalize EmptyString; induction units as [|[u|] units IH]; simpl;
    intros out H; try discriminate.
  apply andb_prop in H; destruct H as [Hu Hrest].
  specialize (HP u Hu); destruct (render u); [|contradiction].
  apply IH; exact Hrest.
Qed.

Lemma def_renders c x : def_ok c x = true -> render x <> None.
Proof.
  destruct x as [ | | | | | c' [v|] i | | | | | | | | | | | | ]; simpl;
    try discriminate.
  intro H; apply andb_prop in H; destruct H as [H _].
  apply andb_prop in H; destruct H as [_ Hv].
  destruct v; simpl in *; try discriminate Hv.
  destruct isConst, c'; discriminate.
Qed.

Lemma decl_renders x : decl_ok x = true -> render x <> None.
Proof.
  destruct x as [ | | | | c vars | | | | | | | | | | | | | ]; simpl;
    try discriminate.
  destruct vars as [|v vars]; [discriminate|]; intro H.
  pose proof (render_lines_some (def_ok c) (v :: vars) (@def_renders c) H)
    as R.
  destruct (render_lines render (v :: vars)); [|contradiction].
  destruct c; discriminate.
Qed.

Lemma stmt_renders : forall x, stmt_ok x = true -> render x <> None.
Proof.
  fix IH 1; intros [ | [x|] | | | | | | | | | | | | | | | | ];
    try discriminate.
  intro H.
  assert (R : render x <> None).
  { destruct x as [ | | | | | | | | stmts | | | | c t e | c s | k r | l r | | ];
      try (simpl in H; apply exp_renders; exact H); try discriminate H;
      try (simpl; discriminate).
    - simpl in H; simpl.
      assert (L : render_lines render stmts <> None).
      { unfold render_lines; generalize EmptyString.
        induction stmts as [|[i|] stmts IHs]; simpl; intros out;
          try discriminate; simpl in H; try discriminate H.
        apply andb_prop in H; destruct H as [Hi Hrest].
        assert (Ri : render i <> None).
        { apply orb_prop in Hi; destruct Hi as [Hi | Hi];
            [apply IH | apply decl_renders]; exact Hi. }
        destruct (render i); [|contradiction].
        apply IHs; exact Hrest. }
      destruct (render_lines render stmts); [discriminate | contradiction].
    - destruct c as [c|], t as [t|]; try discriminate H; simpl in H; simpl.
      apply andb_prop in H; destruct H as [H He].
      apply andb_prop in H; destruct H as [Hc Ht].
      pose proof (exp_renders c Hc) as Rc; pose proof (IH t Ht) as Rt.
      destruct (render c); [|contradiction].
      destruct (render t); [|contradiction].
      destruct e as [e|]; [|discriminate].
      pose proof (IH e He) as Re.
      destruct (render e); [discriminate | contradiction].
    - destruct c as [c|], s as [s|]; try discriminate H; simpl in H; simpl.
      apply andb_prop in H; destruct H as [Hc Hs].
      pose proof (exp_renders c Hc) as Rc; pose proof (IH s Hs) as Rs.
      destruct (render c); [|contradiction].
      destruct (render s); [discriminate | contradiction].
    - destruct k, r as [r|]; try discriminate H; simpl in H; simpl;
        try discriminate.
      pose proof (exp_renders r H) as Rr.
      destruct (render r); [discriminate | contradiction].
    - destruct l as [l|], r as [r|]; try discriminate H; simpl in H; simpl.
      apply andb_prop in H; destruct H as [H Hr].
      apply andb_prop in H; destruct H as [_ Hl].
      pose proof (exp_renders l Hl) as Rl; pose proof (exp_renders r Hr) as Rr.
      destruct (render l); [|contradiction].
      destruct (render r); [discriminate | contradiction]. }
  simpl; destruct (render x); [discriminate | contradiction].
Qed.

Lemma block_renders b : block_ok b = true -> render b <> None.
Proof.
  intro H.
  assert (S : stmt_ok (StmtAST (Some b)) = true)
    by (destruct b; try discriminate H; exact H).
  pose proof (stmt_renders _ S) as R; simpl in R.
  destruct (render b); [discriminate | contradiction].
Qed.

Lemma param_renders x : param_ok x = true -> render x <> None.
Proof.
  destruct x as [ | | | | | | nm t c d | | | | | | | | | | | ]; simpl;
    try discriminate.
  intros _; destruct c; discriminate.
Qed.

Lemma params_render params out :
  forallb (node param_ok) params = true ->
  fold_left (fun output param =>
               match output, param with
               | Some out, Some x =>
                 match render x with
                 | Some s => Some (out ++ s)%string
                 | None => None
                 end
               | _, _ => output
               end) params (Some out) <> None.
Proof.
  revert out; induction params as [|[x|] params IH]; simpl; intros out H;
    try discriminate.
  apply andb_prop in H; destruct H as [Hx Hrest].
  pose proof (param_renders x Hx) as R.
  destruct (render x); [|contradiction].
  apply IH; exact Hrest.
Qed.

Lemma unit_renders x : unit_ok x = true -> render x <> None.
Proof.
  destruct x as [ | | ty nm params [b|] | | c vars | | | | | | | | | | | | | ];
    try discriminate.
  - intro H; simpl in H; apply andb_prop in H; destruct H as [Hp Hb].
    simpl.
    pose proof (@params_render params
                  ("FunctionDef(" ++ type_to_string ty ++ "): " ++ nm ++ " ")
                  Hp) as Rp.
    destruct (fold_left _ params _); [|contradiction].
    pose proof (block_renders b Hb) as Rb.
    destruct (render b); [discriminate | contradiction].
  - apply decl_renders.
Qed.

Lemma program_renders x : program_ok x = true -> render x <> None.
Proof.
  destruct x as [units | | | | | | | | | | | | | | | | | ];
    try discriminate.
  intro H; simpl in H; simpl.
  pose proof (render_lines_some unit_ok units unit_renders H) as R.
  destruct (render_lines render units); [discriminate | contradiction].
Qed.

End RenderingIsSafe.

(** X7: the rendering of a parsed tree is safe.  [to_string] calls
    [to_string] through the pointers of a node without a test, except for
    the parameters and the body of a function, the else branch and the value
    of a return; on the tree that [Parser::parsing] returns no such call goes
    through a null pointer, whatever the three helper renderings are, and the
    same holds for the tree of a statement. *)
Theorem X7_rendering_never_meets_null :
  forall (type_to_string : Type_ -> string)
         (vartype_to_string : VarType -> string)
         (op_to_string : Operator -> string)
         (Lexer : Type) (source : TokenSource Lexer) n,
    (forall (lex : Lexer) a p,
       parsing n lex = Ok (Some a) p ->
       to_string type_to_string vartype_to_string op_to_string a <> None) /\
    (forall (p : @Parser Lexer) a p',
       statement n p = Ok (Some a) p' ->
       to_string type_to_string vartype_to_string op_to_string a <> None).
Proof.
  intros tts vts ots Lexer source n; split.
  - intros lex a p H; apply program_renders.
    pose proof (parsing_after n lex) as A; rewrite H in A; exact A.
  - intros p a p' H; apply stmt_renders.
    pose proof (statement_after n p) as A; rewrite H in A; exact A.
Qed.

(* ================================================================== *)
(** * Lists, prefixes and blocks *)

Section Sequences.

Context {Lexer : Type} {source : TokenSource Lexer}.

Local Abbreviation Parser := (@Parser Lexer).
Local Abbreviation Result := (@Result Lexer).
Local Abbreviation Rule := (@Rule Lexer).

(** Rewrites the tests of [match_token] that the hypotheses decide. *)
Ltac tags :=
  repeat match goal with
  | H : tag (token ?p) = ?t |- context [match_token ?p ?t'] =>
    rewrite (@match_token_is _ p t t' H)
  | H : tag (token ?p) <> ?t |- context [match_token ?p ?t] =>
    rewrite (@match_token_neq _ p t H)
  | H : tag (token ?p) <> ?t |- context [Tag_beq (tag (token ?p)) ?t] =>
    rewrite (proj2 (Tag_beq_neq (tag (token p)) t) H)
  | H : tag (token ?p) = ?t |- context [tag (token ?p)] =>
    rewrite H
  end;
  cbn [Tag_beq negb orb andb].

(** ** Prefix operators *)

Lemma unary_prefix (p : Parser) op e p' :
  prefix_op (tag (token p)) = Some op ->
  Returns unary (next p) (Some e) p' ->
  Returns unary p (Some (UnaryAST op (Some e))) p'.
Proof.
  intros Hop [N He]; exists (S N); intros [|m] Hm; [lia|].
  simpl; unfold match_token at 1 2 3 4 5.
  destruct (tag (token p)); try discriminate Hop; simpl;
    rewrite He by lia; inversion Hop; reflexivity.
Qed.

Lemma unary_prefix_run (p : Parser) ops p1 :
  prefix_run p ops p1 ->
  forall e p2,
    Returns unary p1 (Some e) p2 ->
    exists x,
      fold_right (fun op acc => Some (UnaryAST op acc)) (Some e) ops = Some x
      /\ Returns unary p (Some x) p2.
Proof.
  induction 1 as [p | p op ops p1 Hop _ IH]; intros e p2 He; simpl.
  - exists e; split; [reflexivity | exact He].
  - destruct (IH e p2 He) as (x & -> & Hx).
    eexists; split; [reflexivity|].
    eapply unary_prefix; eassumption.
Qed.

(** ** Parentheses *)

Lemma unary_parens (p : Parser) e p1 :
  tag (token p) = LPAREN ->
  Returns binary_add (next p) (Some e) p1 ->
  (tag (token p1) = RPAREN -> Returns unary p (Some e) (next p1)) /\
  (tag (token p1) <> RPAREN -> Exits unary p L249_exit102).
Proof.
  intros Hl [N He]; split; intro Hr; exists (S N); intros [|m] Hm;
    try lia; simpl; tags; rewrite He by lia; cbn [bind]; tags; reflexivity.
Qed.

Lemma unary_exits_upward (p : Parser) site :
  Exits unary p site ->
  Exits binary_add p site /\ Exits binary_or p site.
Proof.
  intro H.
  assert (Ha : Exits binary_add p site).
  { apply (tier_operand_exits add_tier), (tier_operand_exits mul_tier), H. }
  split; [exact Ha|].
  apply (tier_operand_exits or_tier), (tier_operand_exits and_tier),
        (tier_operand_exits eq_tier), (tier_operand_exits relation_tier), Ha.
Qed.

(** ** Lists with commas *)

Lemma call_params_run (p : Parser) args p' :
  comma_run binary_add p args p' ->
  exists N, forall k n, N <= k -> N <= n ->
    forall acc, call_params k (binary_add n) acc p = Ok (acc ++ args) p'.
Proof.
  induction 1 as [p a p1 [N Ha] Hc | p a p1 rest p2 [N1 Ha] Hc _ [N2 IH]].
  - exists (S N); intros [|k] n Hk Hn acc; [lia|].
    simpl; rewrite Ha by lia; cbn [bind]; tags; reflexivity.
  - exists (S (N1 + N2)); intros [|k] n Hk Hn acc; [lia|].
    simpl; rewrite Ha by lia; cbn [bind]; tags.
    rewrite IH by lia; unfold push_back; rewrite <- app_assoc; reflexivity.
Qed.

Lemma init_list_run (p : Parser) inits p' :
  comma_run init_val p inits p' ->
  exists N, forall k n, N <= k -> N <= n ->
    forall acc, init_list k (init_val n) acc p = Ok (acc ++ inits) p'.
Proof.
  induction 1 as [p a p1 [N Ha] Hc | p a p1 rest p2 [N1 Ha] Hc _ [N2 IH]].
  - exists (S N); intros [|k] n Hk Hn acc; [lia|].
    simpl; rewrite Ha by lia; cbn [bind]; tags; reflexivity.
  - exists (S (N1 + N2)); intros [|k] n Hk Hn acc; [lia|].
    simpl; rewrite Ha by lia; cbn [bind]; tags.
    rewrite IH by lia; unfold push_back; rewrite <- app_assoc; reflexivity.
Qed.

Lemma lval_position_run (p : Parser) idx p' :
  bracketed p idx p' ->
  exists N, forall k n, N <= k -> N <= n ->
    forall acc, lval_position k (binary_add n) acc p = Ok (acc ++ idx) p'.
Proof.
  induction 1 as [p Hstop | p e p1 ds p2 Hopen [N1 He] Hclose _ [N2 IH]].
  - exists 0; intros [|k] n _ _ acc; simpl; tags;
      rewrite app_nil_r; reflexivity.
  - exists (S (N1 + N2)); intros [|k] n Hk Hn acc; [lia|].
    simpl; tags; rewrite He by lia; cbn [bind]; tags.
    rewrite IH by lia; unfold push_back; rewrite <- app_assoc; reflexivity.
Qed.

Lemma comma_defs_run c null (q : Parser) vars p' :
  comma_run (fun n => var_def n c) q vars p' ->
  exists N v rest p1,
    vars = Some v :: rest /\
    (forall n, N <= n -> var_def n c q = Ok (Some v) p1) /\
    (forall k n, N <= k -> N <= n ->
       forall acc,
         comma_defs k (var_def n c) null (acc ++ [Some v]) p1
         = Ok (acc ++ vars) p').
Proof.
  induction 1 as [p a p1 [N Ha] Hc
                 | p a p1 rest p2 [N1 Ha] Hc _
                     (N2 & v & rest' & p1' & -> & Hv & IH)].
  - exists N, a, [], p1; repeat split; [exact Ha|].
    intros [|k] n _ _ acc; simpl; tags; reflexivity.
  - exists (S (N1 + N2)), a, (Some v :: rest'), p1; repeat split.
    + intros n Hn; apply Ha; lia.
    + intros [|k] n Hk Hn acc; [lia|].
      simpl; tags; rewrite Hv by lia; cbn [bind].
      unfold push_back; rewrite IH by lia.
      rewrite <- app_assoc; reflexivity.
Qed.

(** ** Calls and indexed left-values *)

Lemma unary_call_empty (p : Parser) :
  tag (token p) = ID -> tag (token (next p)) = LPAREN ->
  tag (token (next (next p))) = RPAREN ->
  Returns unary p (Some (FuncCallAST (name (token p)) []))
    (next (next (next p))).
Proof.
  intros Hid Hl Hr; exists 1; intros [|m] Hm; [lia|].
  simpl; tags; reflexivity.
Qed.

Lemma unary_call (p : Parser) args p1 :
  tag (token p) = ID -> tag (token (next p)) = LPAREN ->
  tag (token (next (next p))) <> RPAREN ->
  comma_run binary_add (next (next p)) args p1 ->
  (tag (token p1) = RPAREN ->
   Returns unary p (Some (FuncCallAST (name (token p)) args)) (next p1)) /\
  (tag (token p1) <> RPAREN -> Exits unary p L308_exit107).
Proof.
  intros Hid Hl Hn Hrun; destruct (call_params_run Hrun) as [N Hargs].
  split; intro Hr; exists (S N); intros [|m] Hm; try lia;
    simpl; tags; rewrite Hargs by lia; cbn [bind]; tags; reflexivity.
Qed.

Lemma unary_index (p : Parser) idx p' :
  tag (token p) = ID -> tag (token (next p)) = LBRACKET ->
  bracketed (next p) idx p' ->
  Returns unary p (Some (LValAST (name (token p)) array_t idx)) p' /\
  idx <> [].
Proof.
  intros Hid Hb Hrun; destruct (lval_position_run Hrun) as [N Hidx]; split.
  - exists (S N); intros [|m] Hm; [lia|].
    simpl; tags; rewrite Hidx by lia; reflexivity.
  - inversion Hrun; subst; [contradiction | discriminate].
Qed.

(** ** Definitions and declarations *)

Lemma var_def_init (c : bool) (p : Parser) dims p1 i p2 :
  tag (token p) = ID ->
  bracketed (next p) dims p1 ->
  tag (token p1) = ASSIGN ->
  Returns init_val (next p1) (Some i) p2 ->
  Returns (fun n => var_def n c) p
    (Some (VarDefAST c (id_of_dims (name (token p)) c dims) (Some i))) p2.
Proof.
  intros Hid Hrun Ha [N2 Hi]; destruct (bracket_dims_run Hrun) as [N1 Hd].
  exists (N1 + N2); intros m Hm.
  unfold var_def; tags; rewrite Hd by lia; cbn [bind]; tags.
  rewrite Hi by lia; reflexivity.
Qed.

Lemma var_def_bare (c : bool) (p : Parser) dims p1 :
  tag (token p) = ID ->
  bracketed (next p) dims p1 ->
  tag (token p1) <> ASSIGN ->
  (c = false ->
   Returns (fun n => var_def n c) p
     (Some (VarDefAST false (id_of_dims (name (token p)) false dims) None))
     p1) /\
  (c = true -> Exits (fun n => var_def n c) p L592_exit457).
Proof.
  intros Hid Hrun Ha; destruct (bracket_dims_run Hrun) as [N1 Hd].
  split; intros ->; exists N1; intros m Hm;
    unfold var_def; tags; rewrite Hd by lia; cbn [bind]; tags; reflexivity.
Qed.

Lemma var_decl_run (p : Parser) vars p1 :
  let c := match_token p KW_CONST in
  let q := if c then next p else p in
  tag (token q) = KW_INT ->
  comma_run (fun n => var_def n c) (next q) vars p1 ->
  (tag (token p1) = SEMICON ->
   Returns var_decl p (Some (VarDeclAST c vars)) (next p1)) /\
  (tag (token p1) <> SEMICON -> Exits var_decl p L552_exit452).
Proof.
  intros c q Hint Hrun.
  destruct (comma_defs_run L546_exit451 Hrun)
    as (N & v & rest & p0 & -> & Hv & Hrest).
  split; intro Hs; exists N; intros m Hm; unfold var_decl;
    fold c; fold q; tags; rewrite Hv by lia; cbn [bind];
    unfold push_back;
    match goal with
    | |- bind ?r _ = _ =>
      replace r with (Ok (Some v :: rest) p1)
        by (symmetry; exact (Hrest m m Hm Hm []))
    end; cbn [bind]; tags; reflexivity.
Qed.

(** ** Initializers *)

Lemma init_val_scalar (p : Parser) e p1 :
  tag (token p) <> LBRACE ->
  Returns binary_add p (Some e) p1 ->
  Returns init_val p (Some (InitValAST var_t [Some e])) p1.
Proof.
  intros Hb [N He]; exists (S N); intros [|m] Hm; [lia|].
  simpl; tags; rewrite He by lia; reflexivity.
Qed.

Lemma init_val_empty (p : Parser) :
  tag (token p) = LBRACE -> tag (token (next p)) = RBRACE ->
  Returns init_val p (Some (InitValAST array_t [])) (next (next p)).
Proof.
  intros Hb Hr; exists 1; intros [|m] Hm; [lia|].
  simpl; tags; reflexivity.
Qed.

Lemma init_val_aggregate (p : Parser) inits p1 :
  tag (token p) = LBRACE -> tag (token (next p)) <> RBRACE ->
  comma_run init_val (next p) inits p1 ->
  (tag (token p1) = RBRACE ->
   Returns init_val p (Some (InitValAST array_t inits)) (next p1)) /\
  (tag (token p1) <> RBRACE -> Exits init_val p L504_exit998).
Proof.
  intros Hb Hn Hrun; destruct (init_list_run Hrun) as [N Hl].
  split; intro Hr; exists (S N); intros [|m] Hm; try lia;
    simpl; tags; rewrite Hl by lia; cbn [bind]; tags; reflexivity.
Qed.

(** ** Blocks *)

Lemma block_loop_run (p : Parser) items p' :
  block_run p items p' ->
  exists N, forall k n, N <= k -> N <= n ->
    forall acc,
      block_loop k (var_decl n) (statement n) acc p = Ok (acc ++ items) p'.
Proof.
  induction 1 as [p Hend
                 | p d p1 rest p2 Hk [N1 Hd] _ [N2 IH]
                 | p s p1 rest p2 Hk [N1 Hs] _ [N2 IH]].
  - exists 0; intros [|k] n _ _ acc; simpl; tags;
      rewrite app_nil_r; reflexivity.
  - exists (S (N1 + N2)); intros [|k] n Hk' Hn acc; [lia|].
    simpl in Hk; simpl.
    assert (Hr : match_token p RBRACE = false)
      by (unfold match_token; destruct Hk as [<- | [<- | []]]; reflexivity).
    assert (Hc : match_token p KW_CONST || match_token p KW_INT = true)
      by (unfold match_token; destruct Hk as [<- | [<- | []]]; reflexivity).
    rewrite Hr, Hc; cbn [negb]; rewrite Hd by lia; cbn [bind].
    rewrite IH by lia; unfold push_back; rewrite <- app_assoc; reflexivity.
  - exists (S (N1 + N2)); intros [|k] n Hk' Hn acc; [lia|].
    simpl in Hk; simpl.
    assert (Hr : match_token p RBRACE = false).
    { apply match_token_neq; intro E; apply Hk; left; auto. }
    assert (Hc : match_token p KW_CONST || match_token p KW_INT = false).
    { apply orb_false_intro; apply match_token_neq; intro E; apply Hk;
        [right; left | right; right; left]; auto. }
    rewrite Hr, Hc; cbn [negb]; rewrite Hs by lia; cbn [bind].
    rewrite IH by lia; unfold push_back; rewrite <- app_assoc; reflexivity.
Qed.

Lemma block_items (p : Parser) items p' :
  block_run (next p) items p' ->
  Returns block p (Some (BlockAST items)) (next p').
Proof.
  intro Hrun; destruct (block_loop_run Hrun) as [N Hl].
  exists (S N); intros [|m] Hm; [lia|]; simpl.
  destruct (match_token (next p) RBRACE) eqn:E.
  - apply Tag_beq_eq in E.
    inversion Hrun; subst; try reflexivity; exfalso.
    + match goal with H : In _ _ |- _ =>
        rewrite E in H; simpl in H; destruct H as [H | [H | []]];
        discriminate H end.
    + match goal with H : ~ In _ _ |- _ => apply H; left; auto end.
  - rewrite (Hl m m) by lia; reflexivity.
Qed.

(** ** The copies in [program] *)

Lemma bracket_dims_sites n (f : Rule) s1 s2 s1' s2' :
  forall acc p l q,
    bracket_dims n f s1 s2 acc p = Ok l q ->
    bracket_dims n f s1' s2' acc p = Ok l q.
Proof.
  induction n as [|n IH]; intros acc p l q; simpl;
    destruct (match_token p LBRACKET); try discriminate; auto.
  destruct (f (next p)) as [[e|] p1 | | |]; cbn [bind]; try discriminate.
  destruct (negb (match_token p1 RBRACKET)); try discriminate.
  apply IH.
Qed.

Lemma comma_defs_sites n (f : Rule) s s' :
  forall acc p l q,
    comma_defs n f s acc p = Ok l q -> comma_defs n f s' acc p = Ok l q.
Proof.
  induction n as [|n IH]; intros acc p l q; simpl;
    destruct (match_token p COMMA); try discriminate; auto.
  destruct (f (next p)) as [[e|] p1 | | |]; cbn [bind]; try discriminate.
  apply IH.
Qed.

Lemma param_callers n c c' (p : Parser) a q :
  param n c p = Ok a q -> param n c' p = Ok a q.
Proof.
  unfold param; cbv zeta.
  destruct (negb (match_token p KW_INT)); [discriminate|].
  destruct (negb (match_token (next p) ID)); [discriminate|].
  destruct (match_token (next (next p)) LBRACKET); [|auto].
  destruct (negb (match_token (next (next (next p))) RBRACKET));
    [discriminate|].
  destruct (bracket_dims n (binary_add n) (param_dim_null c)
              (param_dim_no_rbracket c) _ _) as [l p1 | | |] eqn:E;
    cbn [bind]; try discriminate.
  apply bracket_dims_sites with (s1' := param_dim_null c')
    (s2' := param_dim_no_rbracket c') in E; rewrite E.
  auto.
Qed.

Lemma param_list_callers n c c' :
  forall acc (p : Parser) l q,
    param_list n c acc p = Ok l q -> param_list n c' acc p = Ok l q.
Proof.
  induction n as [|n IH]; intros acc p l q; simpl; [discriminate|].
  destruct (param n c p) as [a p1 | | |] eqn:E; cbn [bind];
    try discriminate.
  apply param_callers with (c' := c') in E; rewrite E; cbn [bind].
  destruct (negb (match_token p1 COMMA)); [auto | apply IH].
Qed.

Lemma params_upto_rparen_callers n c c' (p : Parser) l q :
  params_upto_rparen n c p = Ok l q -> params_upto_rparen n c' p = Ok l q.
Proof.
  unfold params_upto_rparen.
  destruct (negb (match_token p RPAREN)); [|auto].
  destruct (param_list n c [] p) as [a p1 | | |] eqn:E; cbn [bind];
    try discriminate.
  apply param_list_callers with (c' := c') in E; rewrite E; cbn [bind].
  destruct (negb (match_token p1 RPAREN)); [discriminate | auto].
Qed.

Lemma program_declares_like_var_decl n (p : Parser) d p' nodes :
  is_done (lexer p) = false ->
  tag (token p) = KW_INT ->
  tag (token (next (next p))) <> LPAREN ->
  var_decl n p = Ok d p' ->
  program_loop (S n) nodes p = program_loop n (push_back nodes d) p'.
Proof.
  intros Hdone Hint Hfun H.
  simpl; rewrite Hdone; cbn [Bool.eqb]; tags.
  unfold var_decl in H; revert H; tags; tags; unfold var_def at 1.
  destruct (negb (match_token (next p) ID)); cbn [bind]; [discriminate|].
  destruct (bracket_dims n (binary_add n) L570_exit453 L574_exit454 _ _)
    as [dims p1 | | |] eqn:E; cbn [bind]; try discriminate.
  apply bracket_dims_sites with (s1' := L141_exit453) (s2' := L145_exit454)
    in E; rewrite E; cbn [bind].
  destruct (match_token p1 ASSIGN).
  - destruct (init_val n (next p1)) as [[i|] p2 | | |]; cbn [bind];
      try discriminate.
    destruct (comma_defs n (var_def n false) L546_exit451 _ p2)
      as [vars p3 | | |] eqn:C; cbn [bind]; try discriminate.
    apply comma_defs_sites with (s' := L171_exit133) in C; rewrite C;
      cbn [bind].
    destruct (negb (match_token p3 SEMICON)); [discriminate|].
    intro H; inversion H; reflexivity.
  - cbn [bind].
    destruct (comma_defs n (var_def n false) L546_exit451 _ p1)
      as [vars p3 | | |] eqn:C; cbn [bind]; try discriminate.
    apply comma_defs_sites with (s' := L171_exit133) in C; rewrite C;
      cbn [bind].
    destruct (negb (match_token p3 SEMICON)); [discriminate|].
    intro H; inversion H; reflexivity.
Qed.

Lemma program_defines_like_function_def n (lx : Lexer) t_void t_int
  id_name args body p' nodes :
  is_done lx = false ->
  tag t_void = KW_VOID -> tag t_int = KW_INT ->
  function_def n (mkParser lx t_void)
  = Ok (Some (FuncDefAST void_t id_name args body)) p' ->
  program_loop (S n) nodes (mkParser lx t_int)
  = program_loop n
      (push_back nodes (Some (FuncDefAST int_t id_name args body))) p'.
Proof.
  intros Hdone Hv Hi H.
  set (pv := mkParser lx t_void) in *; set (pi := mkParser lx t_int).
  assert (Hn : next pi = next pv) by reflexivity.
  assert (Ti : tag (token pi) = KW_INT) by exact Hi.
  simpl; change (lexer pi) with lx; rewrite Hdone; cbn [Bool.eqb].
  tags; rewrite Hn.
  unfold function_def in H; revert H.
  destruct (negb (match_token (next pv) ID)); cbn [bind]; [discriminate|].
  destruct (negb (match_token (next (next pv)) LPAREN)) eqn:L;
    cbn [bind]; [discriminate|].
  apply negb_false_iff in L; rewrite L.
  destruct (params_upto_rparen n in_function_def _) as [l p1 | | |] eqn:E;
    cbn [bind]; try discriminate.
  apply params_upto_rparen_callers with (c' := in_program) in E;
    rewrite E; cbn [bind].
  destruct (block n (next p1)) as [b p2 | | |]; cbn [bind];
    try discriminate.
  destruct (function_type pv); [|discriminate].
  intro H; inversion H; reflexivity.
Qed.

(** ** Properties of the single rules *)

(** X8: prefix operators stack and bind tighter than any binary operator.
    A run of '+', '-' and '!' before an operand of the base tier gives the
    nest of unary nodes of these operators, outermost first, around the
    operand; and this nest is one operand of the multiplicative operator
    that follows. *)
Theorem X8_prefix_operators_stack :
  forall (p : Parser) ops p1 e p2,
    prefix_run p ops p1 ->
    Returns unary p1 (Some e) p2 ->
    let nest := fold_right (fun op acc => Some (UnaryAST op acc)) (Some e) ops
    in
    Returns unary p nest p2 /\
    (forall b p3,
       In (tag (token p2)) [MUL; DIV; MOD] ->
       Returns unary (next p2) (Some b) p3 ->
       find_op (tier_ops add_tier ++ tier_ops mul_tier)
               (tag_to_op (tag (token p3))) = false ->
       Returns binary_add p
         (Some (BinaryAST (tag_to_op (tag (token p2))) nest (Some b))) p3).
Proof.
  intros p ops p1 e p2 Hrun He nest.
  destruct (unary_prefix_run Hrun He) as (x & Hx & Hnest).
  fold nest in Hx; rewrite Hx; split; [exact Hnest|].
  intros b p3 Hop Hb Hstop.
  unfold find_op in Hstop; rewrite existsb_app in Hstop.
  apply orb_false_elim in Hstop; destruct Hstop as [Hsa Hsm].
  apply (tier_single add_tier); [|exact Hsa].
  apply (tier_pair mul_tier Hnest); [|exact Hb|exact Hsm].
  simpl in Hop; destruct Hop as [<- | [<- | [<- | []]]]; reflexivity.
Qed.

(** X9: parentheses hold an additive expression.  After '(' the additive
    tier is run and ')' must follow (exit 102 otherwise); the node of the
    expression is returned as it is.  So an operator of the four tiers above
    the additive one inside parentheses is fatal, also in a condition, which
    the logical-or tier parses. *)
Theorem X9_parentheses_hold_an_additive_expression :
  forall (p : Parser) e p1,
    tag (token p) = LPAREN ->
    Returns binary_add (next p) (Some e) p1 ->
    (tag (token p1) = RPAREN -> Returns unary p (Some e) (next p1)) /\
    (tag (token p1) <> RPAREN ->
     Exits unary p L249_exit102 /\ Exits binary_or p L249_exit102) /\
    (In (tag (token p1)) above_additive -> Exits binary_or p L249_exit102).
Proof.
  intros p e p1 Hl He.
  destruct (unary_parens _ Hl He) as [Hok Hbad].
  split; [exact Hok|]; split.
  - intro Hr; split; [exact (Hbad Hr)|].
    exact (proj2 (unary_exits_upward (Hbad Hr))).
  - intro Hop; destruct (above_additive_no_end Hop) as (_ & _ & Hr).
    exact (proj2 (unary_exits_upward (Hbad Hr))).
Qed.

(** X10: a call.  An identifier followed by '(' is a call: with ')' next,
    a call without arguments; otherwise the additive expressions separated
    by commas are its arguments, in their order, and ')' must follow (exit
    107 otherwise). *)
Theorem X10_call_arguments_in_order :
  forall (p : Parser),
    tag (token p) = ID -> tag (token (next p)) = LPAREN ->
    (tag (token (next (next p))) = RPAREN ->
     Returns unary p (Some (FuncCallAST (name (token p)) []))
       (next (next (next p)))) /\
    (forall args p1,
       tag (token (next (next p))) <> RPAREN ->
       comma_run binary_add (next (next p)) args p1 ->
       (tag (token p1) = RPAREN ->
        Returns unary p (Some (FuncCallAST (name (token p)) args)) (next p1))
       /\ (tag (token p1) <> RPAREN -> Exits unary p L308_exit107)).
Proof.
  intros p Hid Hl; split.
  - intro Hr; apply unary_call_empty; assumption.
  - intros args p1 Hn Hrun; apply unary_call; assumption.
Qed.

(** X11: an indexed left-value.  An identifier followed by '[' is a
    left-value of array kind whose indices are the bracketed additive
    expressions, in their order; there is at least one. *)
Theorem X11_indices_in_order :
  forall (p : Parser) idx p',
    tag (token p) = ID -> tag (token (next p)) = LBRACKET ->
    bracketed (next p) idx p' ->
    Returns unary p (Some (LValAST (name (token p)) array_t idx)) p' /\
    idx <> [].
Proof. intros p idx p' Hid Hb Hrun; apply unary_index; assumption. Qed.

(** X12: a definition.  An identifier and its bracketed dimensions give an
    [IdAST] with the dimensions in their order, of array kind exactly when
    there is a dimension.  With '=' next, the initializer that follows is
    kept; without it the definition has no initializer when it is not
    const, and a const definition is fatal (exit 457). *)
Theorem X12_definition :
  forall (c : bool) (p : Parser) dims p1,
    tag (token p) = ID ->
    bracketed (next p) dims p1 ->
    let var := id_of_dims (name (token p)) c dims in
    (var = Some (IdAST (name (token p))
                   (match dims with [] => var_t | _ :: _ => array_t end)
                   c dims)) /\
    (forall i p2,
       tag (token p1) = ASSIGN ->
       Returns init_val (next p1) (Some i) p2 ->
       Returns (fun n => var_def n c) p
         (Some (VarDefAST c var (Some i))) p2) /\
    (tag (token p1) <> ASSIGN -> c = false ->
     Returns (fun n => var_def n c) p (Some (VarDefAST c var None)) p1) /\
    (tag (token p1) <> ASSIGN -> c = true ->
     Exits (fun n => var_def n c) p L592_exit457).
Proof.
  intros c p dims p1 Hid Hrun var; split; [destruct dims; reflexivity|].
  split; [|split].
  - intros i p2 Ha Hi; eapply var_def_init; eassumption.
  - intros Ha Hc; subst c; eapply var_def_bare; eauto.
  - intros Ha Hc; eapply var_def_bare; eauto.
Qed.

(** X13: a declaration.  After an optional 'const' and the type 'int', the
    definitions separated by commas are the definitions of the declaration,
    in their order, each parsed with the const flag of the declaration; a
    terminator must follow (exit 452 otherwise). *)
Theorem X13_declaration_lists_its_definitions :
  forall (p : Parser) vars p1,
    let c := match_token p KW_CONST in
    let q := if c then next p else p in
    tag (token q) = KW_INT ->
    comma_run (fun n => var_def n c) (next q) vars p1 ->
    (tag (token p1) = SEMICON ->
     Returns var_decl p (Some (VarDeclAST c vars)) (next p1)) /\
    (tag (token p1) <> SEMICON -> Exits var_decl p L552_exit452).
Proof. intros p vars p1; apply var_decl_run. Qed.

(** X14: an initializer.  Without '{' the additive expression is wrapped in
    an initializer of scalar kind that holds it alone; '{' '}' is the empty
    initializer of array kind; otherwise the initializers separated by commas
    between the braces are the values, in their order, and '}' must follow
    (exit 998 otherwise). *)
Theorem X14_initializer :
  forall (p : Parser),
    (forall e p1,
       tag (token p) <> LBRACE ->
       Returns binary_add p (Some e) p1 ->
       Returns init_val p (Some (InitValAST var_t [Some e])) p1) /\
    (tag (token p) = LBRACE -> tag (token (next p)) = RBRACE ->
     Returns init_val p (Some (InitValAST array_t [])) (next (next p))) /\
    (forall inits p1,
       tag (token p) = LBRACE -> tag (token (next p)) <> RBRACE ->
       comma_run init_val (next p) inits p1 ->
       (tag (token p1) = RBRACE ->
        Returns init_val p (Some (InitValAST array_t inits)) (next p1)) /\
       (tag (token p1) <> RBRACE -> Exits init_val p L504_exit998)).
Proof.
  intro p; split; [|split].
  - intros e p1 Hb He; apply init_val_scalar; assumption.
  - intros Hb Hr; apply init_val_empty; assumption.
  - intros inits p1 Hb Hn Hrun; apply init_val_aggregate; assumption.
Qed.

(** X15: a block.  After the token taken for the opening brace, the
    declarations (after 'const' or 'int') and statements up to the closing
    brace are the items of the block, in their order; the closing brace is
    consumed. *)
Theorem X15_block_lists_its_items :
  forall (p : Parser) items p',
    block_run (next p) items p' ->
    Returns block p (Some (BlockAST items)) (next p').
Proof. intros p items p'; apply block_items. Qed.

(** X16: a declaration at top level is parsed like a local one.  When the
    token is 'int' and the token after the identifier is not '(',
    [Parser::program] parses the declaration with its own copy of the code
    of [var_decl] and [var_def]: whenever [var_decl] returns a node on these
    tokens, [program] appends the same node and goes on from the same
    state. *)
Theorem X16_program_declares_like_var_decl :
  forall n (p : Parser) d p' nodes,
    is_done (lexer p) = false ->
    tag (token p) = KW_INT ->
    tag (token (next (next p))) <> LPAREN ->
    var_decl n p = Ok d p' ->
    program_loop (S n) nodes p = program_loop n (push_back nodes d) p'.
Proof. intros; apply program_declares_like_var_decl; assumption. Qed.

(** X17: an 'int' function is parsed like a 'void' function.  On the tokens
    on which [function_def], entered on 'void', returns a function,
    [Parser::program], entered on 'int' with its own copy of the code,
    appends the function with the same name, parameters and body and the
    return type int, and goes on from the same state. *)
Theorem X17_program_defines_like_function_def :
  forall n (lx : Lexer) t_void t_int id_name args body p' nodes,
    is_done lx = false ->
    tag t_void = KW_VOID -> tag t_int = KW_INT ->
    function_def n (mkParser lx t_void)
    = Ok (Some (FuncDefAST void_t id_name args body)) p' ->
    program_loop (S n) nodes (mkParser lx t_int)
    = program_loop n
        (push_back nodes (Some (FuncDefAST int_t id_name args body))) p'.
Proof. intros; eapply program_defines_like_function_def; eassumption. Qed.

(** ** Function definitions *)

Lemma param_list_run c (p : Parser) args p' :
  comma_run (fun n => param n c) p args p' ->
  exists N, forall k, N <= k ->
    forall acc, param_list k c acc p = Ok (acc ++ args) p'.
Proof.
  induction 1 as [p a p1 [N Ha] Hc | p a p1 rest p2 [N1 Ha] Hc _ [N2 IH]].
  - exists (S N); intros [|k] Hk acc; [lia|].
    simpl; rewrite Ha by lia; cbn [bind]; tags; reflexivity.
  - exists (S (N1 + N2)); intros [|k] Hk acc; [lia|].
    simpl; rewrite Ha by lia; cbn [bind]; tags.
    rewrite IH by lia; unfold push_back; rewrite <- app_assoc; reflexivity.
Qed.

Lemma function_type_of (p : Parser) t :
  In (tag (token p), t)
     [(KW_INT, int_t); (KW_CHAR, char_t); (KW_VOID, void_t)] ->
  function_type p = Some t.
Proof.
  intros [H | [H | [H | []]]]; inversion H as [[Ht Hty]];
    symmetry in Ht; unfold function_type; tags; reflexivity.
Qed.

(** X20: a function definition.  [function_def] takes the return type from
    the token 'int', 'char' or 'void', the name from the identifier, and,
    between '(' and ')', no parameter or the parameters separated by commas,
    in their order (exit 993 when ')' does not follow them); the block behind
    ')' is the body.  [Parser::program] reaches it on 'void' only: on 'char'
    it exits with status 233. *)
Theorem X20_function_definition :
  forall (p : Parser) t args p1,
    In (tag (token p), t)
       [(KW_INT, int_t); (KW_CHAR, char_t); (KW_VOID, void_t)] ->
    tag (token (next p)) = ID ->
    tag (token (next (next p))) = LPAREN ->
    let q := next (next (next p)) in
    (tag (token q) = RPAREN /\ args = [] /\ p1 = q) \/
    (tag (token q) <> RPAREN /\
     comma_run (fun n => param n in_function_def) q args p1) ->
    (forall b p2,
       tag (token p1) = RPAREN ->
       Returns block (next p1) b p2 ->
       Returns function_def p
         (Some (FuncDefAST t (name (token (next p))) args b)) p2) /\
    (tag (token p1) <> RPAREN -> Exits function_def p L692_exit993) /\
    (tag (token p) = KW_CHAR -> is_done (lexer p) = false ->
     forall n nodes, program_loop (S n) nodes p = Exit L184_exit233).
Proof.
  intros p t args p1 Ht Hid Hl q Hargs.
  apply function_type_of in Ht.
  split; [|split].
  - intros b p2 Hr [N Hb].
    destruct Hargs as [(Hq & -> & ->) | (Hq & Hrun)].
    + exists N; intros m Hm.
      unfold function_def, params_upto_rparen; rewrite Ht; cbv zeta.
      fold q; tags; cbn [bind]; rewrite Hb by lia; reflexivity.
    + destruct (param_list_run Hrun) as [N' Hp].
      exists (N + N'); intros m Hm.
      unfold function_def, params_upto_rparen; rewrite Ht; cbv zeta.
      fold q; tags; rewrite Hp by lia; cbn [bind]; tags; cbn [bind].
      rewrite Hb by lia; reflexivity.
  - intros Hr; destruct Hargs as [(Hq & -> & ->) | (Hq & Hrun)];
      [contradiction|].
    destruct (param_list_run Hrun) as [N' Hp].
    exists N'; intros m Hm.
    unfold function_def, params_upto_rparen; cbv zeta.
    fold q; tags; rewrite Hp by lia; cbn [bind]; tags; reflexivity.
  - intros Hc Hd n nodes; simpl; rewrite Hd; simpl; tags; reflexivity.
Qed.

End Sequences.

(* ================================================================== *)
(** * The parser halts *)

Section Halting.

Context {Lexer : Type} {source : TokenSource Lexer}.

Local Abbreviation Parser := (@Parser Lexer).
Local Abbreviation Result := (@Result Lexer).
Local Abbreviation Rule := (@Rule Lexer).

Variable left : Lexer -> nat.
Hypothesis Hleft : finite_source left.

Local Abbreviation sz := (size left).

Lemma size_next_le (p : Parser) : sz (next p) <= sz p.
Proof.
  unfold size, next; destruct (Hleft (lexer p)) as [Hle Hlt].
  destruct (lexing (lexer p)) as [t lx]; simpl in *.
  destruct (Tag_beq (tag t) END) eqn:E.
  - lia.
  - assert (left lx < left (lexer p)); [|lia].
    apply Hlt; intro Ht; rewrite Ht in E; discriminate E.
Qed.

Lemma size_next_lt (p : Parser) :
  tag (token p) <> END -> sz (next p) < sz p.
Proof.
  intro Hp; unfold size, next; destruct (Hleft (lexer p)) as [Hle Hlt].
  destruct (lexing (lexer p)) as [t lx]; simpl in *.
  destruct (Tag_beq (tag (token p)) END) eqn:Ep.
  - apply internal_Tag_dec_bl in Ep; contradiction.
  - destruct (Tag_beq (tag t) END) eqn:E.
    + lia.
    + assert (left lx < left (lexer p)); [|lia].
      apply Hlt; intro Ht; rewrite Ht in E; discriminate E.
Qed.

Lemma size_next_match (p : Parser) t :
  match_token p t = true -> t <> END -> sz (next p) < sz p.
Proof.
  intros Hm Ht; apply size_next_lt.
  unfold match_token in Hm; apply internal_Tag_dec_bl in Hm; congruence.
Qed.

Lemma ends_bind {A B : Type} (Q R : Parser -> Prop)
  (r : Result A) (k : A -> Parser -> Result B) :
  ends Q r -> (forall a p, Q p -> ends R (k a p)) -> ends R (bind r k).
Proof. destruct r; simpl; auto. Qed.

Lemma ends_weaken {A : Type} (Q R : Parser -> Prop) (r : Result A) :
  ends Q r -> (forall p, Q p -> R p) -> ends R r.
Proof. destruct r; simpl; auto. Qed.

(** What is known of the sizes of the states in the context. *)
Ltac size_facts :=
  cbv beta in *;
  repeat match goal with
  | H : negb _ = false |- _ => apply negb_false_iff in H
  | H : negb _ = true |- _ => apply negb_true_iff in H
  | H : _ || _ = true |- _ => apply orb_true_iff in H; destruct H
  | H : _ /\ _ |- _ => destruct H
  end;
  repeat match goal with
  | H : match_token ?p ?t = true |- _ =>
    lazymatch goal with
    | _ : size left (next p) < size left p |- _ => fail
    | _ => pose proof (@size_next_match p t H ltac:(discriminate))
    end
  end;
  repeat match goal with
  | |- context [next ?p] =>
    lazymatch goal with
    | _ : size left (next p) <= size left p |- _ => fail
    | _ => pose proof (size_next_le p)
    end
  | _ : context [next ?p] |- _ =>
    lazymatch goal with
    | _ : size left (next p) <= size left p |- _ => fail
    | _ => pose proof (size_next_le p)
    end
  end.

Ltac sized := size_facts; simpl; lia.

(** A call of a rule whose bound is among the hypotheses. *)
Ltac ends_call :=
  match goal with
  | H : forall q, _ -> ends _ (?f q) |- ends _ (?f _) =>
    apply H; sized
  | H : forall c q, _ -> ends _ (?f c q) |- ends _ (?f _ _) =>
    apply H; sized
  end.

Ltac ends_step :=
  match goal with
  | |- ends _ (bind ?r _) =>
    eapply ends_bind;
    [ first [ ends_call | match goal with |- ?g => change (id g) end ]
    | intros ? ? ?; cbv beta in * ]
  | |- ends _ (if ?c then _ else _) => destruct c eqn:?
  | |- ends _ (match ?a with Some _ => _ | None => _ end) =>
    destruct a eqn:?
  | |- ends _ (Exit _) => exact I
  | |- ends _ Undefined => exact I
  | |- ends _ (Ok _ _) => sized
  | |- id (ends _ _) => unfold id; ends_call
  end.

Ltac ends_steps := repeat ends_step.

Lemma binary_loop_ends n (parser : Rule) ops :
  forall lhs (p : Parser),
    (forall q, sz q <= sz p -> ends (fun q' => sz q' < sz q) (parser q)) ->
    sz p < n ->
    ends (fun p' => sz p' <= sz p) (binary_loop n parser ops lhs p).
Proof.
  induction n as [|n IH]; intros lhs p Hp Hn; [lia|].
  simpl; ends_steps.
  eapply ends_weaken; [apply IH|].
  - intros q Hq; apply Hp; sized.
  - sized.
  - intros; sized.
Qed.

Lemma binary_ends n (parser : Rule) ops (p : Parser) :
  (forall q, sz q <= sz p -> ends (fun q' => sz q' < sz q) (parser q)) ->
  sz p <= n ->
  ends (fun p' => sz p' < sz p) (binary n parser ops p).
Proof.
  intros Hp Hn; unfold binary; ends_steps.
  eapply ends_weaken; [apply binary_loop_ends|].
  - intros q Hq; apply Hp; sized.
  - sized.
  - intros; sized.
Qed.

Lemma call_params_ends n (f : Rule) :
  forall params (p : Parser),
    (forall q, sz q <= sz p -> ends (fun q' => sz q' < sz q) (f q)) ->
    sz p < n ->
    ends (fun p' => sz p' <= sz p) (call_params n f params p).
Proof.
  induction n as [|n IH]; intros params p Hp Hn; [lia|].
  simpl; ends_steps.
  eapply ends_weaken; [apply IH|].
  - intros q Hq; apply Hp; sized.
  - sized.
  - intros; sized.
Qed.

Lemma lval_position_ends n (f : Rule) :
  forall position (p : Parser),
    (forall q, sz q <= sz p -> ends (fun q' => sz q' < sz q) (f q)) ->
    sz p < n ->
    ends (fun p' => sz p' <= sz p) (lval_position n f position p).
Proof.
  induction n as [|n IH]; intros position p Hp Hn; [lia|].
  simpl; ends_steps.
  eapply ends_weaken; [apply IH|].
  - intros q Hq; apply Hp; sized.
  - sized.
  - intros; sized.
Qed.

(** The calls of the loops, whose rule runs in states that are not larger. *)
Ltac ends_loop lemma :=
  unfold id; apply lemma; [intros ? ?; ends_call | sized].

Lemma expr_ends n :
  (forall p : Parser,
     3 * sz p + 1 <= n -> ends (fun p' => sz p' < sz p) (unary n p)) /\
  (forall p : Parser,
     3 * sz p + 3 <= n -> ends (fun p' => sz p' < sz p) (binary_add n p)) /\
  (forall p : Parser,
     3 * sz p + 2 <= n -> ends (fun p' => sz p' < sz p) (binary_mul n p)).
Proof.
  induction n as [|n (Hu & Ha & Hm)]; [repeat split; intros; lia|].
  repeat split; intros p Hn; simpl.
  - ends_steps.
    + ends_loop call_params_ends.
    + ends_steps.
    + ends_loop lval_position_ends.
    + ends_steps.
  - apply binary_ends; [intros ? ?; ends_call | sized].
  - apply binary_ends; [intros ? ?; ends_call | sized].
Qed.

Lemma binary_add_ends n (p : Parser) :
  3 * sz p + 3 <= n -> ends (fun p' => sz p' < sz p) (binary_add n p).
Proof. apply expr_ends. Qed.

Lemma binary_or_ends n (p : Parser) :
  3 * sz p + 3 <= n -> ends (fun p' => sz p' < sz p) (binary_or n p).
Proof.
  intro Hn.
  apply binary_ends; [intros q Hq | lia].
  apply binary_ends; [intros q1 Hq1 | lia].
  apply binary_ends; [intros q2 Hq2 | lia].
  apply binary_ends; [intros q3 Hq3 | lia].
  apply binary_add_ends; lia.
Qed.

Lemma init_list_ends n (f : Rule) :
  forall inits (p : Parser),
    (forall q, sz q <= sz p -> ends (fun q' => sz q' < sz q) (f q)) ->
    sz p < n ->
    ends (fun p' => sz p' <= sz p) (init_list n f inits p).
Proof.
  induction n as [|n IH]; intros inits p Hp Hn; [lia|].
  simpl; ends_steps.
  eapply ends_weaken; [apply IH|].
  - intros q Hq; apply Hp; sized.
  - sized.
  - intros; sized.
Qed.

Lemma init_val_ends n :
  forall p : Parser,
    3 * sz p + 4 <= n -> ends (fun p' => sz p' < sz p) (init_val n p).
Proof.
  induction n as [|n IH]; intros p Hn; [lia|].
  pose proof (@binary_add_ends n) as Ha.
  simpl; ends_steps.
  - ends_loop init_list_ends.
  - ends_steps.
Qed.

Lemma bracket_dims_ends n (f : Rule) null open :
  forall dims (p : Parser),
    (forall q, sz q <= sz p -> ends (fun q' => sz q' < sz q) (f q)) ->
    sz p < n ->
    ends (fun p' => sz p' <= sz p) (bracket_dims n f null open dims p).
Proof.
  induction n as [|n IH]; intros dims p Hp Hn; [lia|].
  simpl; ends_steps.
  eapply ends_weaken; [apply IH|].
  - intros q Hq; apply Hp; sized.
  - sized.
  - intros; sized.
Qed.

Lemma var_def_ends n c (p : Parser) :
  3 * sz p + 4 <= n -> ends (fun p' => sz p' < sz p) (var_def n c p).
Proof.
  intro Hn.
  pose proof (@binary_add_ends n) as Ha.
  pose proof (@init_val_ends n) as Hi.
  unfold var_def; ends_steps.
  1: ends_loop bracket_dims_ends.
  all: ends_steps.
Qed.

Lemma comma_defs_ends n (f : Rule) null :
  forall vars (p : Parser),
    (forall q, sz q <= sz p -> ends (fun q' => sz q' < sz q) (f q)) ->
    sz p < n ->
    ends (fun p' => sz p' <= sz p) (comma_defs n f null vars p).
Proof.
  induction n as [|n IH]; intros vars p Hp Hn; [lia|].
  simpl; ends_steps.
  eapply ends_weaken; [apply IH|].
  - intros q Hq; apply Hp; sized.
  - sized.
  - intros; sized.
Qed.

Lemma var_decl_ends n (p : Parser) :
  3 * sz p + 4 <= n -> ends (fun p' => sz p' < sz p) (var_decl n p).
Proof.
  intro Hn.
  pose proof (@var_def_ends n (match_token p KW_CONST)) as Hd.
  unfold var_decl; cbv zeta.
  destruct (match_token p KW_CONST) eqn:Hc; ends_steps.
  1: ends_loop comma_defs_ends.
  1: ends_steps.
  1: ends_loop comma_defs_ends.
  all: ends_steps.
Qed.

Lemma block_loop_ends n (d s : Rule) :
  forall stmts (p : Parser),
    (forall q, sz q <= sz p -> ends (fun q' => sz q' < sz q) (d q)) ->
    (forall q, sz q <= sz p -> ends (fun q' => sz q' < sz q) (s q)) ->
    sz p < n ->
    ends (fun p' => sz p' <= sz p /\ match_token p' RBRACE = true)
         (block_loop n d s stmts p).
Proof.
  induction n as [|n IH]; intros stmts p Hd Hs Hn; [lia|].
  simpl; ends_steps;
    try (eapply ends_weaken;
         [ apply IH;
           [ intros q Hq; apply Hd; sized
           | intros q Hq; apply Hs; sized
           | sized ]
         | intros ? [? ?]; split; [sized | assumption] ]).
  size_facts; simpl; split; [lia | assumption].
Qed.

Lemma stmt_ends n :
  (forall p : Parser,
     3 * sz p + 4 <= n -> ends (fun p' => sz p' < sz p) (statement n p)) /\
  (forall p : Parser,
     3 * sz (next p) + 5 <= n ->
     ends (fun p' => sz p' < sz (next p)) (if_else n p)) /\
  (forall p : Parser,
     3 * sz (next p) + 5 <= n ->
     ends (fun p' => sz p' < sz (next p)) (while_loop n p)) /\
  (forall p : Parser,
     3 * sz (next p) + 5 <= n ->
     ends (fun p' => sz p' < sz (next p)) (block n p)).
Proof.
  induction n as [|n (Hs & Hi & Hw & Hb)]; [repeat split; intros; lia|].
  pose proof (@binary_add_ends n) as Ha.
  pose proof (@binary_or_ends n) as Ho.
  pose proof (@var_decl_ends n) as Hd.
  repeat split; intros p Hn; simpl.
  - ends_steps.
  - ends_steps.
  - ends_steps.
  - ends_steps.
    1: unfold id; apply block_loop_ends; [intros ? ?; ends_call ..| sized].
    all: ends_steps.
Qed.

Lemma statement_ends n (p : Parser) :
  3 * sz p + 4 <= n -> ends (fun p' => sz p' < sz p) (statement n p).
Proof. apply stmt_ends. Qed.

Lemma block_ends n (p : Parser) :
  3 * sz (next p) + 5 <= n ->
  ends (fun p' => sz p' < sz (next p)) (block n p).
Proof. apply stmt_ends. Qed.

Lemma param_ends n c (p : Parser) :
  3 * sz p + 3 <= n -> ends (fun p' => sz p' < sz p) (param n c p).
Proof.
  intro Hn.
  pose proof (@binary_add_ends n) as Ha.
  unfold param; ends_steps.
  1: ends_loop bracket_dims_ends.
  all: ends_steps.
Qed.

Lemma param_list_ends n c :
  forall args (p : Parser),
    3 * sz p + 4 <= n ->
    ends (fun p' => sz p' <= sz p) (param_list n c args p).
Proof.
  induction n as [|n IH]; intros args p Hn; [lia|].
  pose proof (@param_ends n c) as Hp.
  simpl; ends_steps.
  eapply ends_weaken; [apply IH; sized | intros; sized].
Qed.

Lemma params_upto_rparen_ends n c (p : Parser) :
  3 * sz p + 4 <= n ->
  ends (fun p' => sz p' <= sz p) (params_upto_rparen n c p).
Proof.
  intro Hn.
  pose proof (@param_list_ends n c []) as Hp.
  unfold params_upto_rparen; ends_steps.
Qed.

Lemma function_def_ends n (p : Parser) :
  3 * sz p + 6 <= n -> ends (fun p' => sz p' < sz p) (function_def n p).
Proof.
  intro Hn.
  pose proof (@params_upto_rparen_ends n in_function_def) as Hp.
  pose proof (@block_ends n) as Hb.
  unfold function_def; cbv zeta; ends_steps.
Qed.





Lemma ends_returns {A : Type} (f : nat -> Parser -> Result A)
  (Q : Parser -> Prop) bound (p : Parser) :
  (forall n m, n <= m -> le_res (f n p) (f m p)) ->
  (forall n, bound <= n -> ends Q (f n p)) ->
  forall n a p', f n p = Ok a p' -> Q p'.
Proof.
  intros Hle Hends n a p' H.
  pose proof (Hends (Nat.max n bound) (Nat.le_max_r _ _)) as E.
  rewrite (le_res_ok (Hle n (Nat.max n bound) (Nat.le_max_l _ _)) H) in E.
  exact E.
Qed.


(** X19: a rule that returns has consumed a token.  Whenever one of the
    rules of the grammar returns, fewer tokens are left than when it was
    entered; this is why every loop of the parser that calls a rule at each
    turn comes to an end. *)
Theorem X19_a_rule_that_returns_has_consumed :
  forall n (p : Parser) a p',
    (unary n p = Ok a p' -> sz p' < sz p) /\
    (binary_add n p = Ok a p' -> sz p' < sz p) /\
    (binary_or n p = Ok a p' -> sz p' < sz p) /\
    (init_val n p = Ok a p' -> sz p' < sz p) /\
    (forall c, var_def n c p = Ok a p' -> sz p' < sz p) /\
    (var_decl n p = Ok a p' -> sz p' < sz p) /\
    (statement n p = Ok a p' -> sz p' < sz p) /\
    (block n p = Ok a p' -> sz p' < sz p) /\
    (function_def n p = Ok a p' -> sz p' < sz p).
Proof.
  intros n p a p'; repeat split.
  - apply (@ends_returns _ unary (fun q => sz q < sz p) (3 * sz p + 1)).
    + intros; apply unary_le; assumption.
    + intros; apply expr_ends; assumption.
  - apply (@ends_returns _ binary_add (fun q => sz q < sz p) (3 * sz p + 3)).
    + intros; apply binary_add_le; assumption.
    + intros; apply binary_add_ends; assumption.
  - apply (@ends_returns _ binary_or (fun q => sz q < sz p) (3 * sz p + 3)).
    + intros; apply binary_or_le; assumption.
    + intros; apply binary_or_ends; assumption.
  - apply (@ends_returns _ init_val (fun q => sz q < sz p) (3 * sz p + 4)).
    + intros; apply init_val_le; assumption.
    + intros; apply init_val_ends; assumption.
  - intro c.
    apply (@ends_returns _ (fun n => var_def n c) (fun q => sz q < sz p) (3 * sz p + 4)).
    + intros; apply var_def_le; assumption.
    + intros; apply var_def_ends; assumption.
  - apply (@ends_returns _ var_decl (fun q => sz q < sz p) (3 * sz p + 4)).
    + intros; apply var_decl_le; assumption.
    + intros; apply var_decl_ends; assumption.
  - apply (@ends_returns _ statement (fun q => sz q < sz p) (3 * sz p + 4)).
    + intros; apply statement_le; assumption.
    + intros; apply statement_ends; assumption.
  - apply (@ends_returns _ block (fun q => sz q < sz p) (3 * sz (next p) + 5)).
    + intros; apply block_le; assumption.
    + intros m Hm; eapply ends_weaken; [apply block_ends; assumption|].
      intros; sized.
  - apply (@ends_returns _ function_def (fun q => sz q < sz p) (3 * sz p + 6)).
    + intros; apply function_def_le; assumption.
    + intros; apply function_def_ends; assumption.
Qed.

End Halting.

(* ================================================================== *)
(** * More runs on token lists *)

Lemma init_val_steady (Lexer : Type) (source : TokenSource Lexer) :
  steady (@init_val Lexer source).
Proof. intros n m H; apply init_val_le; exact H. Qed.

Lemma var_def_steady (Lexer : Type) (source : TokenSource Lexer) c :
  steady (fun n => @var_def Lexer source n c).
Proof. intros n m H; apply var_def_le; exact H. Qed.

Lemma var_decl_steady (Lexer : Type) (source : TokenSource Lexer) :
  steady (@var_decl Lexer source).
Proof. intros n m H; apply var_decl_le; exact H. Qed.

Lemma X1_witness :
  parsing 3 (lexer_of [T LT]) = Exit L184_exit233 /\
  dead L184_exit233 = false.
Proof.
  split; [reflexivity|].
  exact (@X1_null_checks_never_fire ListLexer ListLexer_source 3
           (lexer_of [T LT]) L184_exit233 eq_refl).
Defined.

Lemma X3_witness :
  let p := start [TNum 1; T ADD; TId "a"; T SEMICON] in
  binary_add 5 p
  = Ok (Some (BinaryAST add_op (Some (NumAST 1))
                (Some (LValAST "a" var_t []))))
       (next (next (next p))) /\
  is_exp (Some (BinaryAST add_op (Some (NumAST 1))
                  (Some (LValAST "a" var_t [])))).
Proof.
  cbv zeta; split; [reflexivity|].
  exact (proj1 (proj2 (@X3_expressions_are_well_formed ListLexer
                         ListLexer_source 5
                         (start [TNum 1; T ADD; TId "a"; T SEMICON]) _ _))
           eq_refl).
Defined.

Lemma X4_witness :
  let p := start [T KW_CONST; T KW_INT; TId "a"; T ASSIGN; TNum 1;
                  T SEMICON] in
  let d := VarDeclAST true
             [Some (VarDefAST true (Some (IdAST "a" var_t true []))
                      (Some (InitValAST var_t [Some (NumAST 1)])))] in
  var_decl 6 p = Ok (Some d) (next (next (next (next (next (next p)))))) /\
  is_decl (Some d).
Proof.
  cbv zeta; split; [reflexivity|].
  exact (proj2 (proj2 (@X4_declarations_are_well_formed ListLexer
                         ListLexer_source 6
                         (start [T KW_CONST; T KW_INT; TId "a"; T ASSIGN;
                                 TNum 1; T SEMICON]) _ _))
           eq_refl).
Defined.

Lemma X5_witness :
  let p := start [T KW_BREAK; TNum 1; T SEMICON] in
  let s := StmtAST (Some (ControlAST return_c (Some (NumAST 1)))) in
  statement 6 p = Ok (Some s) (next (next (next p))) /\ is_stmt (Some s).
Proof.
  cbv zeta; split; [reflexivity|].
  exact (proj1 (@X5_statements_are_well_formed ListLexer ListLexer_source 6
                  (start [T KW_BREAK; TNum 1; T SEMICON]) _ _)
           eq_refl).
Defined.

Lemma X6_witness :
  exists p,
    parsing 6 (lexer_of [T KW_INT; TId "a"; T SEMICON])
    = Ok (Some (CompUnitAST
            [Some (VarDeclAST false
               [Some (VarDefAST false (Some (IdAST "a" var_t false []))
                        None)])])) p /\
    is_done (lexer p) = true.
Proof.
  eexists; split; [reflexivity|].
  exact (proj2 (@X6_program_is_well_formed ListLexer ListLexer_source 6
                  (lexer_of [T KW_INT; TId "a"; T SEMICON]) _ _ eq_refl)).
Defined.

Lemma X7_witness :
  exists a p,
    parsing 8 (lexer_of [T KW_VOID; TId "f"; T LPAREN; T RPAREN; T LBRACE;
                         T KW_RETURN; T SEMICON; T RBRACE])
    = Ok (Some a) p /\
    to_string (fun _ => "void") (fun _ => "var") (fun _ => "+") a <> None.
Proof.
  eexists; eexists; split; [reflexivity|].
  exact (proj1 (X7_rendering_never_meets_null (fun _ => "void")
                  (fun _ => "var") (fun _ => "+") ListLexer_source 8)
           (lexer_of [T KW_VOID; TId "f"; T LPAREN; T RPAREN; T LBRACE;
                      T KW_RETURN; T SEMICON; T RBRACE]) _ _ eq_refl).
Defined.

Lemma X8_witness :
  let p := start [T SUB; T NOT; TId "a"; T MUL; TId "b"; T SEMICON] in
  let nest := Some (UnaryAST sub_op (Some (UnaryAST not_op
                      (Some (LValAST "a" var_t []))))) in
  prefix_run p [sub_op; not_op] (next (next p)) /\
  Returns unary p nest (next (next (next p))) /\
  Returns binary_add p
    (Some (BinaryAST mul_op nest (Some (LValAST "b" var_t []))))
    (next (next (next (next (next p))))).
Proof.
  set (p := start [T SUB; T NOT; TId "a"; T MUL; TId "b"; T SEMICON]).
  cbv zeta.
  assert (R : prefix_run p [sub_op; not_op] (next (next p))).
  { apply prefix_more; [reflexivity|].
    apply prefix_more; [reflexivity|].
    exact (prefix_none _). }
  assert (Ha : Returns unary (next (next p)) (Some (LValAST "a" var_t []))
                 (next (next (next p)))).
  { ran (@unary_steady ListLexer _). }
  assert (Hb : Returns unary (next (next (next (next p))))
                 (Some (LValAST "b" var_t []))
                 (next (next (next (next (next p)))))).
  { ran (@unary_steady ListLexer _). }
  destruct (@X8_prefix_operators_stack ListLexer ListLexer_source
              p _ _ _ _ R Ha) as [H1 H2].
  split; [exact R|]. split; [exact H1|].
  apply (H2 _ _ (or_introl eq_refl) Hb eq_refl).
Defined.

Lemma X9_witness :
  let p := start [T LPAREN; TId "a"; T GT; TId "b"; T RPAREN; T SEMICON] in
  Returns binary_add (next p) (Some (LValAST "a" var_t [])) (next (next p))
  /\ Exits unary p L249_exit102 /\ Exits binary_or p L249_exit102.
Proof.
  set (p := start [T LPAREN; TId "a"; T GT; TId "b"; T RPAREN; T SEMICON]).
  cbv zeta.
  assert (Ha : Returns binary_add (next p) (Some (LValAST "a" var_t []))
                 (next (next p))).
  { ran (@binary_add_steady ListLexer _). }
  split; [exact Ha|].
  apply (proj1 (proj2 (@X9_parentheses_hold_an_additive_expression
                         ListLexer ListLexer_source p _ _ eq_refl Ha))).
  discriminate.
Defined.

Lemma X10_witness :
  let p := start [TId "f"; T LPAREN; TId "a"; T COMMA; TNum 1; T RPAREN;
                  T SEMICON] in
  let args := [Some (LValAST "a" var_t []); Some (NumAST 1)] in
  comma_run binary_add (next (next p)) args
    (next (next (next (next (next p))))) /\
  Returns unary p (Some (FuncCallAST "f" args))
    (next (next (next (next (next (next p)))))).
Proof.
  set (p := start [TId "f"; T LPAREN; TId "a"; T COMMA; TNum 1; T RPAREN;
                   T SEMICON]).
  cbv zeta.
  assert (R : comma_run binary_add (next (next p))
                [Some (LValAST "a" var_t []); Some (NumAST 1)]
                (next (next (next (next (next p)))))).
  { apply comma_more with (p1 := next (next (next p))).
    - ran (@binary_add_steady ListLexer _).
    - reflexivity.
    - apply comma_last.
      + ran (@binary_add_steady ListLexer _).
      + discriminate. }
  split; [exact R|].
  refine (proj1 (proj2 (@X10_call_arguments_in_order ListLexer
                          ListLexer_source p eq_refl eq_refl) _ _ _ R)
            eq_refl).
  discriminate.
Defined.

Lemma X11_witness :
  let p := start [TId "a"; T LBRACKET; TNum 0; T RBRACKET; T LBRACKET;
                  TId "i"; T RBRACKET; T SEMICON] in
  let idx := [Some (NumAST 0); Some (LValAST "i" var_t [])] in
  let p' := next (next (next (next (next (next (next p)))))) in
  bracketed (next p) idx p' /\
  Returns unary p (Some (LValAST "a" array_t idx)) p'.
Proof.
  set (p := start [TId "a"; T LBRACKET; TNum 0; T RBRACKET; T LBRACKET;
                   TId "i"; T RBRACKET; T SEMICON]).
  cbv zeta.
  assert (B : bracketed (next p)
                [Some (NumAST 0); Some (LValAST "i" var_t [])]
                (next (next (next (next (next (next (next p)))))))).
  { apply bracketed_more with (p1 := next (next (next p))).
    - reflexivity.
    - ran (@binary_add_steady ListLexer _).
    - reflexivity.
    - apply bracketed_more
        with (p1 := next (next (next (next (next (next p)))))).
      + reflexivity.
      + ran (@binary_add_steady ListLexer _).
      + reflexivity.
      + apply bracketed_end; [discriminate | reflexivity]. }
  split; [exact B|].
  exact (proj1 (@X11_indices_in_order ListLexer ListLexer_source p _ _
                  eq_refl eq_refl B)).
Defined.

Lemma X12_witness :
  let p := start [TId "a"; T LBRACKET; TNum 2; T RBRACKET; T ASSIGN;
                  T LBRACE; TNum 1; T COMMA; TNum 2; T RBRACE; T SEMICON] in
  let p1 := next (next (next (next p))) in
  let p2 := next (next (next (next (next (next p1))))) in
  let i := InitValAST array_t
             [Some (InitValAST var_t [Some (NumAST 1)]);
              Some (InitValAST var_t [Some (NumAST 2)])] in
  bracketed (next p) [Some (NumAST 2)] p1 /\
  Returns init_val (next p1) (Some i) p2 /\
  Returns (fun n => var_def n false) p
    (Some (VarDefAST false
             (Some (IdAST "a" array_t false [Some (NumAST 2)])) (Some i)))
    p2.
Proof.
  set (p := start [TId "a"; T LBRACKET; TNum 2; T RBRACKET; T ASSIGN;
                   T LBRACE; TNum 1; T COMMA; TNum 2; T RBRACE; T SEMICON]).
  cbv zeta.
  assert (B : bracketed (next p) [Some (NumAST 2)]
                (next (next (next (next p))))).
  { apply bracketed_more with (p1 := next (next (next p))).
    - reflexivity.
    - ran (@binary_add_steady ListLexer _).
    - reflexivity.
    - apply bracketed_end; [discriminate | reflexivity]. }
  assert (I : Returns init_val (next (next (next (next (next p)))))
                (Some (InitValAST array_t
                         [Some (InitValAST var_t [Some (NumAST 1)]);
                          Some (InitValAST var_t [Some (NumAST 2)])]))
                (next (next (next (next (next (next
                   (next (next (next (next p))))))))))).
  { ran (@init_val_steady ListLexer _). }
  split; [exact B|]. split; [exact I|].
  exact (proj1 (proj2 (@X12_definition ListLexer ListLexer_source false p
                         _ _ eq_refl B)) _ _ eq_refl I).
Defined.

Lemma X13_witness :
  let p := start [T KW_CONST; T KW_INT; TId "a"; T ASSIGN; TNum 1; T COMMA;
                  TId "b"; T ASSIGN; TNum 2; T SEMICON] in
  let p1 := next (next (next (next (next (next (next (next (next p)))))))) in
  let def x v := Some (VarDefAST true (Some (IdAST x var_t true []))
                         (Some (InitValAST var_t [Some (NumAST v)]))) in
  comma_run (fun n => var_def n true) (next (next p))
    [def "a" 1%Z; def "b" 2%Z] p1 /\
  Returns var_decl p (Some (VarDeclAST true [def "a" 1%Z; def "b" 2%Z]))
    (next p1).
Proof.
  set (p := start [T KW_CONST; T KW_INT; TId "a"; T ASSIGN; TNum 1; T COMMA;
                   TId "b"; T ASSIGN; TNum 2; T SEMICON]).
  cbv zeta.
  assert (R : comma_run (fun n => var_def n true) (next (next p))
                [Some (VarDefAST true (Some (IdAST "a" var_t true []))
                         (Some (InitValAST var_t [Some (NumAST 1)])));
                 Some (VarDefAST true (Some (IdAST "b" var_t true []))
                         (Some (InitValAST var_t [Some (NumAST 2)])))]
                (next (next (next (next (next (next (next (next
                   (next p)))))))))).
  { apply comma_more with (p1 := next (next (next (next (next p))))).
    - ran (@var_def_steady ListLexer _ true).
    - reflexivity.
    - apply comma_last.
      + ran (@var_def_steady ListLexer _ true).
      + discriminate. }
  split; [exact R|].
  exact (proj1 (@X13_declaration_lists_its_definitions ListLexer
                  ListLexer_source p _ _ eq_refl R) eq_refl).
Defined.

Lemma X14_witness :
  let p := start [T LBRACE; TNum 1; T COMMA; T LBRACE; TNum 2; T RBRACE;
                  T RBRACE; T SEMICON] in
  let p1 := next (next (next (next (next (next p))))) in
  let inits := [Some (InitValAST var_t [Some (NumAST 1)]);
                Some (InitValAST array_t
                        [Some (InitValAST var_t [Some (NumAST 2)])])] in
  comma_run init_val (next p) inits p1 /\
  Returns init_val p (Some (InitValAST array_t inits)) (next p1).
Proof.
  set (p := start [T LBRACE; TNum 1; T COMMA; T LBRACE; TNum 2; T RBRACE;
                   T RBRACE; T SEMICON]).
  cbv zeta.
  assert (R : comma_run init_val (next p)
                [Some (InitValAST var_t [Some (NumAST 1)]);
                 Some (InitValAST array_t
                         [Some (InitValAST var_t [Some (NumAST 2)])])]
                (next (next (next (next (next (next p))))))).
  { apply comma_more with (p1 := next (next p)).
    - ran (@init_val_steady ListLexer _).
    - reflexivity.
    - apply comma_last.
      + ran (@init_val_steady ListLexer _).
      + discriminate. }
  split; [exact R|].
  refine (proj1 (proj2 (proj2 (@X14_initializer ListLexer ListLexer_source
                                 p)) _ _ eq_refl _ R) eq_refl).
  discriminate.
Defined.

Lemma X15_witness :
  let p := start [T LBRACE; T KW_INT; TId "a"; T SEMICON; TId "a"; T ASSIGN;
                  TNum 1; T SEMICON; T RBRACE] in
  let p' := next (next (next (next (next (next (next (next p))))))) in
  let items :=
    [Some (VarDeclAST false
             [Some (VarDefAST false (Some (IdAST "a" var_t false [])) None)]);
     Some (StmtAST (Some (AssignAST (Some (LValAST "a" var_t []))
                            (Some (NumAST 1)))))] in
  block_run (next p) items p' /\
  Returns block p (Some (BlockAST items)) (next p').
Proof.
  set (p := start [T LBRACE; T KW_INT; TId "a"; T SEMICON; TId "a";
                   T ASSIGN; TNum 1; T SEMICON; T RBRACE]).
  cbv zeta.
  assert (R : block_run (next p)
    [Some (VarDeclAST false
             [Some (VarDefAST false (Some (IdAST "a" var_t false [])) None)]);
     Some (StmtAST (Some (AssignAST (Some (LValAST "a" var_t []))
                            (Some (NumAST 1)))))]
    (next (next (next (next (next (next (next (next p))))))))).
  { apply block_decl with (p1 := next (next (next (next p)))).
    - right; left; reflexivity.
    - ran (@var_decl_steady ListLexer _).
    - apply block_stmt
        with (p1 := next (next (next (next (next (next (next (next p)))))))).
      + intros [H | [H | [H | []]]]; discriminate H.
      + ran (@statement_steady ListLexer _).
      + apply block_end; reflexivity. }
  split; [exact R|].
  exact (@X15_block_lists_its_items ListLexer ListLexer_source p _ _ R).
Defined.

Lemma X16_witness :
  let p := start [T KW_INT; TId "a"; T SEMICON; T KW_INT; TId "b";
                  T SEMICON] in
  let d := Some (VarDeclAST false
             [Some (VarDefAST false (Some (IdAST "a" var_t false [])) None)])
  in
  var_decl 6 p = Ok d (next (next (next p))) /\
  program_loop 7 [] p = program_loop 6 [d] (next (next (next p))).
Proof.
  cbv zeta; split; [reflexivity|].
  refine (@X16_program_declares_like_var_decl ListLexer ListLexer_source 6
            (start [T KW_INT; TId "a"; T SEMICON; T KW_INT; TId "b";
                    T SEMICON]) _ _ [] eq_refl eq_refl _ eq_refl).
  discriminate.
Defined.

Lemma X17_witness :
  let lx := lexer (start [T KW_INT; TId "f"; T LPAREN; T KW_INT; TId "a";
                          T RPAREN; T LBRACE; T RBRACE]) in
  let p' := next (next (next (next (next (next (next (next
              (mkParser lx (T KW_INT))))))))) in
  function_def 8 (mkParser lx (T KW_VOID))
  = Ok (Some (FuncDefAST void_t "f"
                [Some (IdAST "a" var_t false [])] (Some (BlockAST [])))) p'
  /\
  program_loop 9 [] (mkParser lx (T KW_INT))
  = program_loop 8
      [Some (FuncDefAST int_t "f"
               [Some (IdAST "a" var_t false [])] (Some (BlockAST [])))] p'.
Proof.
  cbv zeta; split; [reflexivity|].
  exact (@X17_program_defines_like_function_def ListLexer ListLexer_source 8
           (lexer (start [T KW_INT; TId "f"; T LPAREN; T KW_INT; TId "a";
                          T RPAREN; T LBRACE; T RBRACE]))
           (T KW_VOID) (T KW_INT) _ _ _ _ [] eq_refl eq_refl eq_refl
           eq_refl).
Defined.

Lemma list_lexer_finite : finite_source list_left.
Proof.
  intros [ts done]; unfold list_left; destruct ts as [|t ts]; simpl;
    split; intros; try lia; contradiction.
Qed.


Lemma X19_witness :
  let p := start [TId "a"; T ASSIGN; TNum 1; T SEMICON; T RBRACE] in
  let s := StmtAST (Some (AssignAST (Some (LValAST "a" var_t []))
                            (Some (NumAST 1)))) in
  let p' := next (next (next (next p))) in
  statement 6 p = Ok (Some s) p' /\ size list_left p' < size list_left p.
Proof.
  cbv zeta; split; [reflexivity|].
  refine (proj1 (proj2 (proj2 (proj2 (proj2 (proj2 (proj2
            (@X19_a_rule_that_returns_has_consumed ListLexer
               ListLexer_source list_left list_lexer_finite 6
               (start [TId "a"; T ASSIGN; TNum 1; T SEMICON; T RBRACE])
               _ _))))))) _).
  reflexivity.
Defined.

Lemma X20_witness :
  let p := start [T KW_VOID; TId "f"; T LPAREN; T KW_INT; TId "a"; T COMMA;
                  T KW_INT; TId "b"; T LBRACKET; T RBRACKET; T RPAREN;
                  T LBRACE; T RBRACE] in
  let args := [Some (IdAST "a" var_t false []);
               Some (IdAST "b" array_t false [Some (NumAST 0)])] in
  let p1 := Nat.iter 10 next p in
  comma_run (fun n => param n in_function_def) (next (next (next p))) args p1
  /\
  Returns function_def p
    (Some (FuncDefAST void_t "f" args (Some (BlockAST []))))
    (Nat.iter 13 next p).
Proof.
  set (p := start [T KW_VOID; TId "f"; T LPAREN; T KW_INT; TId "a"; T COMMA;
                   T KW_INT; TId "b"; T LBRACKET; T RBRACKET; T RPAREN;
                   T LBRACE; T RBRACE]).
  cbv zeta.
  assert (R : comma_run (fun n => param n in_function_def)
                (next (next (next p)))
                [Some (IdAST "a" var_t false []);
                 Some (IdAST "b" array_t false [Some (NumAST 0)])]
                (Nat.iter 10 next p)).
  { apply comma_more with (p1 := Nat.iter 5 next p).
    - ran (@param_steady ListLexer _ in_function_def).
    - reflexivity.
    - apply comma_last.
      + ran (@param_steady ListLexer _ in_function_def).
      + discriminate. }
  assert (B : Returns block (next (Nat.iter 10 next p))
                (Some (BlockAST [])) (Nat.iter 13 next p)).
  { ran (@block_steady ListLexer _). }
  assert (Hq : tag (token (next (next (next p)))) <> RPAREN)
    by discriminate.
  split; [exact R|].
  exact (proj1 (@X20_function_definition ListLexer ListLexer_source p
                  void_t _ _
                  (or_intror (or_intror (or_introl eq_refl)))
                  eq_refl eq_refl
                  (or_intror (conj Hq R)))
           _ _ eq_refl B).
Defined.
